(** * A dynamic array over raw memory: model of [vector.h]

    The development embeds the two classes of [vector.h], [RawMemory<T>] and
    [Vector<T>], as state-passing functions over an explicit heap of raw
    blocks, a store of vector objects and a trace of the allocator and
    element-lifetime events, and proves the container's contract about them.

    Conventions.
    - [size_t] is [nat].  A size counts objects that exist in memory, so the
      additions of the code ([size_ * 2], [++size_], [index + 1]) never wrap;
      the subtractions that no test guards are written with [size_sub], which
      wraps as [size_t] does.
    - The build is the debug build: [assert] is checked, and a failed
      assertion ends the run with [AssertFail].
    - Behaviour the language leaves undefined (access through a pointer that
      does not designate a live object, [operator delete] of a pointer that
      [operator new] did not return, ...) ends the run with [Undefined].
    - [operator new] always finds memory. *)

From Stdlib Require Import ssreflect.
From stdpp Require Import base option list gmap.

Open Scope general_if_scope.

(** ** The element type [T]

    What the container can observe of its template argument: the values, the
    constructors it calls and when they throw, and the two type traits
    [SafeMove] dispatches on. *)
Class ElemType := {
  T : Type;
  (** argument packs of the constructors of [T] other than copy and move *)
  Args : Type;
  (** [T(args...)]: the value built, [None] when the constructor throws *)
  T_ctor : Args → option T;
  (** [T()], value-initialisation *)
  T_default : option T;
  (** [std::is_copy_constructible_v<T>] *)
  is_copy_constructible : bool;
  (** the sources on which [T(const T&)] throws *)
  copy_throws : T → bool;
  (** [std::is_nothrow_move_constructible_v<T>] *)
  is_nothrow_move_constructible : bool;
  (** the sources on which [T(T&&)] throws; not consulted when the move
      constructor is [noexcept] *)
  move_throws : T → bool;
  (** the value a moved-from object is left with *)
  moved_from : T → T;
  (** the sources on which [operator=(const T&)] throws *)
  copy_assign_throws : T → bool;
  (** the sources on which [operator=(T&&)] throws *)
  move_assign_throws : T → bool;
}.

(** ** Pointers *)

Definition addr := nat.

(** A [T*]: null, or a block (the address [operator new] returned) and an
    offset counted in elements. *)
Inductive ptr := nullptr | Ptr (a : addr) (off : nat).

Global Instance ptr_eq_dec : EqDecision ptr.
Proof. solve_decision. Defined.

(** [p + n].  Forming the pointer is not checked, every access through it
    is. *)
Definition ptr_add (p : ptr) (n : nat) : ptr :=
  match p with
  | nullptr => nullptr
  | Ptr a off => Ptr a (off + n)
  end.

(** [p - n]; a pointer below its block is unusable and is mapped to
    [nullptr]. *)
Definition ptr_sub (p : ptr) (n : nat) : ptr :=
  match p with
  | nullptr => nullptr
  | Ptr a off => if n <=? off then Ptr a (off - n) else nullptr
  end.

(** [static_cast<size_t>(p - q)], defined for two pointers into one block
    with [q] not after [p]. *)
Definition ptr_diff (p q : ptr) : option nat :=
  match p, q with
  | nullptr, nullptr => Some 0
  | Ptr a i, Ptr b j => if decide (a = b) then (if j <=? i then Some (i - j) else None) else None
  | _, _ => None
  end.

(** [a - b] on [size_t], an unsigned type of 64 bits: a negative difference
    wraps around. *)
Definition modulus (bits : nat) : nat := 2 ^ bits.
Global Arguments modulus : simpl never.

Definition size_sub (a b : nat) : nat :=
  if b <=? a then a - b else modulus 64 - (b - a).

(** ** Objects of the two classes *)

Record RawMemory := { buffer_ : ptr; capacity_ : nat }.

Record Vector := { data_ : RawMemory; size_ : nat }.

(** The address of a [Vector] object. *)
Definition vid := nat.

Section model.
Context `{ET : ElemType}.

(** ** Memory, events, states *)

(** A slot of a raw block: uninitialised storage, or a live object. *)
Inductive slot := Raw | Live (v : T).

Inductive how := Direct | Default | Copy | Move.

Inductive event :=
| EvNew (a : addr) (n : nat)        (* operator new for n elements returned a *)
| EvDelete (a : addr)               (* operator delete *)
| EvConstruct (h : how) (v : T)     (* a constructor completed, the object holds v *)
| EvAssign (h : how) (v : T)        (* an assignment completed, its target holds v *)
| EvDestroy (v : T).                (* the destructor ran on an object holding v *)

Record state := St {
  heap : gmap addr (list slot);
  vecs : gmap vid Vector;
  trace : list event;
}.

Definition set_heap (f : gmap addr (list slot) → gmap addr (list slot)) (s : state) : state :=
  {| heap := f (heap s); vecs := vecs s; trace := trace s |}.
Definition set_vecs (f : gmap vid Vector → gmap vid Vector) (s : state) : state :=
  {| heap := heap s; vecs := f (vecs s); trace := trace s |}.
Definition add_trace (evs : list event) (s : state) : state :=
  {| heap := heap s; vecs := vecs s; trace := trace s ++ evs |}.

(** ** The monad of the code: state, exceptions, failed assertions *)

Inductive outcome (A : Type) :=
| Ok (a : A)      (* normal completion *)
| Thrown          (* an exception is propagating *)
| AssertFail      (* assert(...) failed *)
| Undefined.      (* undefined behaviour *)
Global Arguments Ok {A} a.
Global Arguments Thrown {A}.
Global Arguments AssertFail {A}.
Global Arguments Undefined {A}.

Definition M (A : Type) : Type := state → outcome A * state.

Global Instance M_ret : MRet M := λ A a s, (Ok a, s).
Global Instance M_bind : MBind M := λ A B f m s,
  match m s with
  | (Ok a, s') => f a s'
  | (Thrown, s') => (Thrown, s')
  | (AssertFail, s') => (AssertFail, s')
  | (Undefined, s') => (Undefined, s')
  end.

Definition lift {A} (o : outcome A) : M A := λ s, (o, s).
Definition throw {A} : M A := lift Thrown.
Definition undefined {A} : M A := lift Undefined.
Definition assert (b : bool) : M unit := λ s, if b then (Ok (), s) else (AssertFail, s).
Definition log (e : event) : M unit := λ s, (Ok (), add_trace [e] s).
Definition defined {A} (o : option A) : M A :=
  match o with Some a => mret a | None => undefined end.

(** [try { m } catch (...) { h; throw; }], and also the destructors [h] of
    the locals of a scope that [m] leaves by an exception. *)
Definition on_throw {A} (m : M A) (h : M unit) : M A := λ s,
  match m s with
  | (Thrown, s') =>
      match h s' with
      | (Ok _, s'') => (Thrown, s'')
      | (Thrown, s'') => (Thrown, s'')
      | (AssertFail, s'') => (AssertFail, s'')
      | (Undefined, s'') => (Undefined, s'')
      end
  | r => r
  end.

(** ** Raw storage *)

(** [operator new(n * sizeof(T))], [n ≠ 0]. *)
Definition operator_new (n : nat) : M ptr := λ s,
  let a := fresh (dom (heap s)) in
  (Ok (Ptr a 0), add_trace [EvNew a n] (set_heap (insert a (replicate n Raw)) s)).

(** [operator delete(buf)], [buf ≠ nullptr]. *)
Definition operator_delete (buf : ptr) : M unit := λ s,
  match buf with
  | Ptr a 0 =>
      match heap s !! a with
      | Some _ => (Ok (), add_trace [EvDelete a] (set_heap (delete a) s))
      | None => (Undefined, s)
      end
  | _ => (Undefined, s)
  end.

(** The slot [p] designates. *)
Definition slot_at (p : ptr) : M slot := λ s,
  match p with
  | Ptr a off =>
      match heap s !! a ≫= (.!! off) with
      | Some x => (Ok x, s)
      | None => (Undefined, s)
      end
  | nullptr => (Undefined, s)
  end.

(** The value of the live object at [p]. *)
Definition load (p : ptr) : M T :=
  x ← slot_at p;
  match x with Live v => mret v | Raw => undefined end.

(** Overwrite the slot [p] designates. *)
Definition store (p : ptr) (x : slot) : M unit := λ s,
  match p with
  | Ptr a off =>
      match heap s !! a with
      | Some blk =>
          if off <? length blk
          then (Ok (), set_heap (insert a (<[off := x]> blk)) s)
          else (Undefined, s)
      | None => (Undefined, s)
      end
  | nullptr => (Undefined, s)
  end.

(** ** Element lifetimes *)

(** The argument pack of a constructor call [T(std::forward<Args>(args)...)]:
    an lvalue of type [T] selects the copy constructor, an rvalue the move
    constructor, anything else a converting constructor. *)
Inductive ctor_args := ArgCopy (v : T) | ArgMove (v : T) | ArgPack (a : Args).

(** Whether [T(T&&)] throws on a source holding [v]. *)
Definition move_ctor_throws (v : T) : bool :=
  negb is_nothrow_move_constructible && move_throws v.

(** The constructor the arguments select: what it builds or whether it
    throws.  Copying a type that has no copy constructor is not a program. *)
Definition ctor (args : ctor_args) : outcome T :=
  match args with
  | ArgCopy v =>
      if negb is_copy_constructible then Undefined
      else if copy_throws v then Thrown else Ok v
  | ArgMove v => if move_ctor_throws v then Thrown else Ok v
  | ArgPack a =>
      match T_ctor a with
      | Some v => Ok v
      | None => Thrown
      end
  end.

Definition ctor_how (args : ctor_args) : how :=
  match args with
  | ArgCopy _ => Copy
  | ArgMove _ => Move
  | ArgPack _ => Direct
  end.

(** [new (p) T(std::forward<Args>(args)...)] *)
Definition construct_at (p : ptr) (args : ctor_args) : M unit :=
  v ← lift (ctor args);
  store p (Live v);;
  log (EvConstruct (ctor_how args) v).

(** [new (p) T()] *)
Definition value_construct_at (p : ptr) : M unit :=
  match T_default with
  | Some v => store p (Live v);; log (EvConstruct Default v)
  | None => throw
  end.

(** [new (p) T( *q)] *)
Definition copy_construct_at (p q : ptr) : M unit :=
  v ← load q;
  construct_at p (ArgCopy v).

(** [new (p) T(std::move( *q))] *)
Definition move_construct_at (p q : ptr) : M unit :=
  v ← load q;
  _ ← lift (ctor (ArgMove v));
  store q (Live (moved_from v));;
  store p (Live v);;
  log (EvConstruct Move v).

(** [*p = *q]; an assignment that throws leaves its target as it was. *)
Definition copy_assign (p q : ptr) : M unit :=
  v ← load q;
  _ ← load p;
  if copy_assign_throws v then throw
  else store p (Live v);; log (EvAssign Copy v).

(** [*p = std::move( *q)] *)
Definition move_assign (p q : ptr) : M unit :=
  v ← load q;
  _ ← load p;
  if move_assign_throws v then throw
  else store q (Live (moved_from v));; store p (Live v);; log (EvAssign Move v).

(** [std::destroy_at(p)], [p->~T()] *)
Definition destroy_at (p : ptr) : M unit :=
  v ← load p;
  store p Raw;;
  log (EvDestroy v).

(** A local [T temp(args...)]: the object lives on the stack, the model keeps
    its value. *)
Definition construct_local (args : ctor_args) : M T :=
  v ← lift (ctor args);
  log (EvConstruct (ctor_how args) v);;
  mret v.

(** [*p = std::move(temp)]; returns the value [temp] is left with. *)
Definition move_assign_local (p : ptr) (temp : T) : M T :=
  _ ← load p;
  if move_assign_throws temp then throw
  else store p (Live temp);; log (EvAssign Move temp);; mret (moved_from temp).

(** The destructor of a local at the end of its scope. *)
Definition destroy_local (temp : T) : M unit := log (EvDestroy temp).

(** ** The algorithms of [<memory>] and [<algorithm>] the code calls

    Each follows its specification in the C++ standard; the three
    [uninitialized_] algorithms destroy what they have constructed when a
    constructor throws. *)

Fixpoint uninitialized_value_construct_n (first : ptr) (n : nat) : M unit :=
  match n with
  | 0 => mret ()
  | S k =>
      value_construct_at first;;
      on_throw (uninitialized_value_construct_n (ptr_add first 1) k) (destroy_at first)
  end.

Fixpoint uninitialized_copy_n (first : ptr) (n : nat) (d_first : ptr) : M unit :=
  match n with
  | 0 => mret ()
  | S k =>
      copy_construct_at d_first first;;
      on_throw (uninitialized_copy_n (ptr_add first 1) k (ptr_add d_first 1))
               (destroy_at d_first)
  end.

Fixpoint uninitialized_move_n (first : ptr) (n : nat) (d_first : ptr) : M unit :=
  match n with
  | 0 => mret ()
  | S k =>
      move_construct_at d_first first;;
      on_throw (uninitialized_move_n (ptr_add first 1) k (ptr_add d_first 1))
               (destroy_at d_first)
  end.

(** [std::copy_n]: returns the end of the destination range. *)
Fixpoint copy_n (first : ptr) (n : nat) (d_first : ptr) : M ptr :=
  match n with
  | 0 => mret d_first
  | S k => copy_assign d_first first;; copy_n (ptr_add first 1) k (ptr_add d_first 1)
  end.

Fixpoint destroy_n (first : ptr) (n : nat) : M unit :=
  match n with
  | 0 => mret ()
  | S k => destroy_at first;; destroy_n (ptr_add first 1) k
  end.

(** The loop of [std::move(first, last, d_first)], [n = last - first]. *)
Fixpoint move_n (first : ptr) (n : nat) (d_first : ptr) : M unit :=
  match n with
  | 0 => mret ()
  | S k => move_assign d_first first;; move_n (ptr_add first 1) k (ptr_add d_first 1)
  end.

Definition std_move (first last d_first : ptr) : M unit :=
  n ← defined (ptr_diff last first);
  move_n first n d_first.

(** The loop of [std::move_backward(first, last, d_last)]:
    [while (first != last) *(--d_last) = std::move( *(--last));] *)
Fixpoint move_backward_n (last : ptr) (n : nat) (d_last : ptr) : M unit :=
  match n with
  | 0 => mret ()
  | S k =>
      move_assign (ptr_sub d_last 1) (ptr_sub last 1);;
      move_backward_n (ptr_sub last 1) k (ptr_sub d_last 1)
  end.

Definition std_move_backward (first last d_last : ptr) : M unit :=
  n ← defined (ptr_diff last first);
  move_backward_n last n d_last.

(** ** [class RawMemory] *)

Definition Allocate (n : nat) : M ptr :=
  if decide (n ≠ 0) then operator_new n else mret nullptr.

Definition Deallocate (buf : ptr) : M unit :=
  if decide (buf ≠ nullptr) then operator_delete buf else mret ().

(** [RawMemory() noexcept = default] *)
Definition RawMemory_default : RawMemory := {| buffer_ := nullptr; capacity_ := 0 |}.

(** [explicit RawMemory(size_t capacity)] *)
Definition RawMemory_ctor (capacity : nat) : M RawMemory :=
  buf ← Allocate capacity;
  mret {| buffer_ := buf; capacity_ := capacity |}.

(** [~RawMemory()] *)
Definition RawMemory_dtor (m : RawMemory) : M unit := Deallocate (buffer_ m).

(** [T* operator+(size_t offset)] *)
Definition RawMemory_plus (m : RawMemory) (offset : nat) : M ptr :=
  assert (offset <=? capacity_ m);;
  mret (ptr_add (buffer_ m) offset).

(** [T& operator[](size_t index)]; the reference is the address of the slot. *)
Definition RawMemory_index (m : RawMemory) (index : nat) : M ptr :=
  assert (index <? capacity_ m);;
  mret (ptr_add (buffer_ m) index).

(** [void Swap(RawMemory &other)]: the pair is [( *this, other)] afterwards. *)
Definition RawMemory_Swap (this other : RawMemory) : RawMemory * RawMemory :=
  ({| buffer_ := buffer_ other; capacity_ := capacity_ other |},
   {| buffer_ := buffer_ this; capacity_ := capacity_ this |}).

Definition GetAddress (m : RawMemory) : ptr := buffer_ m.

Definition RawMemory_Capacity (m : RawMemory) : nat := capacity_ m.

(** [void Init(RawMemory &&other)], for two distinct objects: the pair is
    [( *this, other)] afterwards. *)
Definition RawMemory_Init (this other : RawMemory) : M (RawMemory * RawMemory) :=
  Deallocate (buffer_ this);;
  mret ({| buffer_ := buffer_ other; capacity_ := capacity_ other |},
        {| buffer_ := nullptr; capacity_ := 0 |}).

(** ** [class Vector] *)

(** Access to the object at address [this]. *)
Definition get_vec (this : vid) : M Vector := λ s,
  match vecs s !! this with
  | Some v => (Ok v, s)
  | None => (Undefined, s)
  end.
Definition put_vec (this : vid) (v : Vector) : M unit := λ s,
  (Ok (), set_vecs (insert this v) s).
Definition set_data (this : vid) (d : RawMemory) : M unit :=
  v ← get_vec this; put_vec this {| data_ := d; size_ := size_ v |}.
Definition set_size (this : vid) (n : nat) : M unit :=
  v ← get_vec this; put_vec this {| data_ := data_ v; size_ := n |}.

(** The storage of a local [Vector], and its release at the end of the
    scope. *)
Definition local_vector : M vid := λ s, (Ok (fresh (dom (vecs s))), s).
Definition end_of_life (this : vid) : M unit := λ s,
  (Ok (), set_vecs (delete this) s).

Definition Vector_begin (this : vid) : M ptr :=
  v ← get_vec this; mret (GetAddress (data_ v)).

Definition Vector_end (this : vid) : M ptr :=
  v ← get_vec this; RawMemory_plus (data_ v) (size_ v).

Definition Size (this : vid) : M nat :=
  v ← get_vec this; mret (size_ v).

Definition Capacity (this : vid) : M nat :=
  v ← get_vec this; mret (RawMemory_Capacity (data_ v)).

(** [Vector() noexcept = default] *)
Definition Vector_default (this : vid) : M unit :=
  put_vec this {| data_ := RawMemory_default; size_ := 0 |}.

(** [explicit Vector(size_t size)].  The object exists once its constructor
    returns; when the body throws, the member [data_] is destroyed. *)
Definition Vector_sized (this : vid) (size : nat) : M unit :=
  d ← RawMemory_ctor size;
  on_throw (uninitialized_value_construct_n (GetAddress d) size) (RawMemory_dtor d);;
  put_vec this {| data_ := d; size_ := size |}.

(** [Vector(const Vector &other)] *)
Definition Vector_copy (this other : vid) : M unit :=
  o ← get_vec other;
  d ← RawMemory_ctor (size_ o);
  on_throw (uninitialized_copy_n (GetAddress (data_ o)) (size_ o) (GetAddress d))
           (RawMemory_dtor d);;
  put_vec this {| data_ := d; size_ := size_ o |}.

(** [data_ = std::move(rhs.data_)], that is [data_.Init(std::move(rhs.data_))] *)
Definition take_data (this rhs : vid) : M unit :=
  v ← get_vec this;
  r ← get_vec rhs;
  '(d, rd) ← RawMemory_Init (data_ v) (data_ r);
  set_data this d;;
  set_data rhs rd.

(** [size_ = std::exchange(rhs.size_, 0)] *)
Definition take_size (this rhs : vid) : M unit :=
  r ← get_vec rhs;
  set_size rhs 0;;
  set_size this (size_ r).

(** [Vector(Vector &&other) noexcept] *)
Definition Vector_move (this other : vid) : M unit :=
  put_vec this {| data_ := RawMemory_default; size_ := 0 |};;
  take_data this other;;
  take_size this other.

(** [~Vector()], then the destructor of the member [data_] *)
Definition Vector_dtor (this : vid) : M unit :=
  v ← get_vec this;
  destroy_n (GetAddress (data_ v)) (size_ v);;
  RawMemory_dtor (data_ v);;
  end_of_life this.

(** [void Swap(Vector &other) noexcept] *)
Definition Vector_Swap (this other : vid) : M unit :=
  a ← get_vec this;
  b ← get_vec other;
  let '(d, od) := RawMemory_Swap (data_ a) (data_ b) in
  set_data this d;;
  set_data other od;;
  set_size this (size_ b);;
  set_size other (size_ a).

(** [Vector& operator=(const Vector &rhs)] *)
Definition Vector_copy_assign (this rhs : vid) : M unit :=
  if decide (this ≠ rhs) then
    v ← get_vec this;
    r ← get_vec rhs;
    if capacity_ (data_ v) <? size_ r then
      rhs_copy ← local_vector;
      Vector_copy rhs_copy rhs;;
      Vector_Swap this rhs_copy;;
      Vector_dtor rhs_copy
    else
      let copy_elem := if size_ r <? size_ v then size_ r else size_ v in
      end_ ← copy_n (GetAddress (data_ r)) copy_elem (GetAddress (data_ v));
      (if size_ r <? size_ v
       then destroy_n end_ (size_ v - size_ r)
       else uninitialized_copy_n (ptr_add (GetAddress (data_ r)) (size_ v))
                                 (size_ r - size_ v) end_);;
      set_size this (size_ r)
  else mret ().

(** [Vector& operator=(Vector &&rhs) noexcept] *)
Definition Vector_move_assign (this rhs : vid) : M unit :=
  if decide (this ≠ rhs) then
    take_data this rhs;;
    take_size this rhs
  else mret ().

(** [static void SafeMove(T *from, size_t size, T *to)] *)
Definition SafeMove (from : ptr) (size : nat) (to : ptr) : M unit :=
  (if is_nothrow_move_constructible || negb is_copy_constructible
   then uninitialized_move_n from size to
   else uninitialized_copy_n from size to);;
  destroy_n from size.

(** [void Reserve(size_t new_capacity)] *)
Definition Reserve (this : vid) (new_capacity : nat) : M unit :=
  v ← get_vec this;
  if new_capacity <=? RawMemory_Capacity (data_ v) then mret ()
  else
    new_data ← RawMemory_ctor new_capacity;
    on_throw (SafeMove (GetAddress (data_ v)) (size_ v) (GetAddress new_data))
             (RawMemory_dtor new_data);;
    let '(d, new_data) := RawMemory_Swap (data_ v) new_data in
    set_data this d;;
    RawMemory_dtor new_data.

(** [void Resize(size_t new_size)] *)
Definition Resize (this : vid) (new_size : nat) : M unit :=
  v ← get_vec this;
  (if new_size <? size_ v then
     destroy_n (ptr_add (GetAddress (data_ v)) new_size) (size_ v - new_size)
   else if size_ v <? new_size then
     Reserve this new_size;;
     v ← get_vec this;
     uninitialized_value_construct_n (ptr_add (GetAddress (data_ v)) (size_ v))
                                     (new_size - size_ v)
   else mret ());;
  set_size this new_size.

(** [void PopBack() noexcept] *)
Definition PopBack (this : vid) : M unit :=
  v ← get_vec this;
  assert (0 <? size_ v);;
  p ← RawMemory_plus (data_ v) (size_sub (size_ v) 1);
  destroy_at p;;
  set_size this (size_sub (size_ v) 1).

(** [T& EmplaceBack(Args&&... args)] *)
Definition EmplaceBack (this : vid) (args : ctor_args) : M ptr :=
  v ← get_vec this;
  (if decide (size_ v = RawMemory_Capacity (data_ v)) then
     new_data ← RawMemory_ctor (if decide (size_ v = 0) then 1 else size_ v * 2);
     on_throw (p ← RawMemory_plus new_data (size_ v);
               construct_at p args;;
               SafeMove (GetAddress (data_ v)) (size_ v) (GetAddress new_data))
              (RawMemory_dtor new_data);;
     let '(d, new_data) := RawMemory_Swap (data_ v) new_data in
     set_data this d;;
     RawMemory_dtor new_data
   else
     p ← RawMemory_plus (data_ v) (size_ v);
     construct_at p args);;
  set_size this (size_ v + 1);;
  v ← get_vec this;
  RawMemory_index (data_ v) (size_sub (size_ v) 1).

(** [T& PushBack(const T &value)] *)
Definition PushBack_copy (this : vid) (value : T) : M ptr :=
  EmplaceBack this (ArgCopy value).

(** [T& PushBack(T &&value)] *)
Definition PushBack_move (this : vid) (value : T) : M ptr :=
  EmplaceBack this (ArgMove value).

(** [iterator EmplaceWithReallocate(const_iterator pos, Args&&... args)] *)
Definition EmplaceWithReallocate (this : vid) (pos : ptr) (args : ctor_args) : M ptr :=
  v ← get_vec this;
  index ← defined (ptr_diff pos (GetAddress (data_ v)));
  new_data ← RawMemory_ctor (if decide (size_ v = 0) then 1 else size_ v * 2);
  on_throw
    (p ← RawMemory_plus new_data index;
     construct_at p args;;
     on_throw (SafeMove (GetAddress (data_ v)) index (GetAddress new_data))
              (q ← RawMemory_index new_data index; destroy_at q);;
     from ← RawMemory_plus (data_ v) index;
     to ← RawMemory_plus new_data (index + 1);
     on_throw (SafeMove from (size_sub (size_ v) index) to)
              (destroy_n (GetAddress new_data) (index + 1)))
    (RawMemory_dtor new_data);;
  let '(d, new_data) := RawMemory_Swap (data_ v) new_data in
  set_data this d;;
  set_size this (size_ v + 1);;
  b ← Vector_begin this;
  RawMemory_dtor new_data;;
  mret (ptr_add b index).

(** [iterator EmplaceWithoutReallocate(const_iterator pos, Args&&... args)] *)
Definition EmplaceWithoutReallocate (this : vid) (pos : ptr) (args : ctor_args) : M ptr :=
  v ← get_vec this;
  index ← defined (ptr_diff pos (GetAddress (data_ v)));
  temp ← construct_local args;
  temp ← on_throw
    (e ← Vector_end this;
     last ← RawMemory_index (data_ v) (size_sub (size_ v) 1);
     move_construct_at e last;;
     std_move_backward (ptr_add (GetAddress (data_ v)) index) (ptr_sub e 1) e;;
     p ← RawMemory_index (data_ v) index;
     move_assign_local p temp)
    (destroy_local temp);
  set_size this (size_ v + 1);;
  b ← Vector_begin this;
  destroy_local temp;;
  mret (ptr_add b index).

(** [iterator Emplace(const_iterator pos, Args&&... args)] *)
Definition Emplace (this : vid) (pos : ptr) (args : ctor_args) : M ptr :=
  e ← Vector_end this;
  if decide (pos = e) then EmplaceBack this args
  else
    v ← get_vec this;
    if decide (size_ v = RawMemory_Capacity (data_ v))
    then EmplaceWithReallocate this pos args
    else EmplaceWithoutReallocate this pos args.

(** [iterator Insert(const_iterator pos, const T &value)] *)
Definition Insert_copy (this : vid) (pos : ptr) (value : T) : M ptr :=
  Emplace this pos (ArgCopy value).

(** [iterator Insert(const_iterator pos, T &&value)] *)
Definition Insert_move (this : vid) (pos : ptr) (value : T) : M ptr :=
  Emplace this pos (ArgMove value).

(** [iterator Erase(const_iterator pos)] *)
Definition Erase (this : vid) (pos : ptr) : M ptr :=
  v ← get_vec this;
  assert (0 <? size_ v);;
  index ← defined (ptr_diff pos (GetAddress (data_ v)));
  e ← Vector_end this;
  std_move (ptr_add (ptr_add (GetAddress (data_ v)) index) 1) e
           (ptr_add (GetAddress (data_ v)) index);;
  p ← RawMemory_index (data_ v) (size_sub (size_ v) 1);
  destroy_at p;;
  set_size this (size_sub (size_ v) 1);;
  b ← Vector_begin this;
  mret (ptr_add b index).

(** [T& operator[](size_t index) noexcept] *)
Definition Vector_index (this : vid) (index : nat) : M ptr :=
  v ← get_vec this;
  assert (index <? size_ v);;
  RawMemory_index (data_ v) index.

(** ** Observations *)

(** The slots [[0, size_)] of the vector at [this], as the heap has them. *)
Definition contents (s : state) (this : vid) : option (list slot) :=
  v ← vecs s !! this;
  match buffer_ (data_ v) with
  | nullptr => Some []
  | Ptr a off => blk ← heap s !! a; Some (take (size_ v) (drop off blk))
  end.

(** ** Vocabulary of the statements *)

(** What the slot the shift of [Erase] vacates is left with, when the slot
    right before the shifted values [vs] held [x]. *)
Fixpoint shift_residue (x : T) (vs : list T) : T :=
  match vs with
  | [] => x
  | v :: vs => shift_residue (moved_from v) vs
  end.

(** What the first slot of the values [vs] shifted right is left with, when
    the slot right after them held [y]. *)
Definition gap_residue (y : T) (vs : list T) : T :=
  match vs with
  | [] => y
  | v :: _ => moved_from v
  end.

(** No operation of [T] throws on a source holding [v]. *)
Definition quiet (v : T) : bool :=
  negb (copy_throws v) && negb (move_ctor_throws v) &&
  negb (copy_assign_throws v) && negb (move_assign_throws v).

(** The element events of a transfer of the values [vs] by [SafeMove]. *)
Definition transfer_trace (vs : list T) : list event :=
  if is_nothrow_move_constructible || negb is_copy_constructible
  then map (EvConstruct Move) vs ++ map EvDestroy (map moved_from vs)
  else map (EvConstruct Copy) vs ++ map EvDestroy vs.

(** The vector at [this] is well formed in [s] and holds the values [vs]: its
    block starts at [buf] and has [cap] slots, the first [length vs] of them
    live with these values, the others raw. *)
Definition holds (s : state) (this : vid) (buf : ptr) (cap : nat) (vs : list T) : Prop :=
  vecs s !! this =
    Some {| data_ := {| buffer_ := buf; capacity_ := cap |}; size_ := length vs |} ∧
  length vs ≤ cap ∧
  match buf with
  | nullptr => cap = 0
  | Ptr a off =>
      off = 0 ∧ heap s !! a = Some (map Live vs ++ replicate (cap - length vs) Raw)
  end.

(** The capacity [EmplaceBack] and [Emplace] grow a full vector of [n]
    elements to. *)
Definition grown (n : nat) : nat := if decide (n = 0) then 1 else n * 2.

(** ** The invariant and the judgements used to prove it *)

(** Every vector object has at most as many elements as its block has
    slots. *)
Definition size_le_capacity (V : gmap vid Vector) : Prop :=
  map_Forall (λ _ v, size_ v ≤ capacity_ (data_ v)) V.

(** [m] leaves the vector objects alone: it works on the heap and the trace
    only. *)
Definition heap_only {A} (m : M A) : Prop := ∀ s, vecs (m s).2 = vecs s.

(** [m] lets no exception escape. *)
Definition no_throw {A} (m : M A) : Prop := ∀ s, (m s).1 ≠ Thrown.

(** A triple over the vector objects: from objects that satisfy [P], [m]
    returns [a] with objects that satisfy [Q a], or throws with objects that
    satisfy [E].  Runs that end in a failed assertion or in undefined
    behaviour have no state to speak about. *)
Definition vtriple {A} (P : gmap vid Vector → Prop) (m : M A)
    (Q : A → gmap vid Vector → Prop) (E : gmap vid Vector → Prop) : Prop :=
  ∀ s, P (vecs s) →
    match m s with
    | (Ok a, s') => Q a (vecs s')
    | (Thrown, s') => E (vecs s')
    | (AssertFail, _) | (Undefined, _) => True
    end.

(** The public operations of [Vector], each on the object at [this]. *)
Inductive operation :=
| OpDefault (this : vid)
| OpSized (this : vid) (size : nat)
| OpCopy (this other : vid)
| OpMove (this other : vid)
| OpCopyAssign (this rhs : vid)
| OpMoveAssign (this rhs : vid)
| OpSwap (this other : vid)
| OpReserve (this : vid) (new_capacity : nat)
| OpResize (this : vid) (new_size : nat)
| OpEmplaceBack (this : vid) (args : ctor_args)
| OpPopBack (this : vid)
| OpEmplace (this : vid) (pos : ptr) (args : ctor_args)
| OpErase (this : vid) (pos : ptr).

Definition exec (op : operation) : M unit :=
  match op with
  | OpDefault this => Vector_default this
  | OpSized this size => Vector_sized this size
  | OpCopy this other => Vector_copy this other
  | OpMove this other => Vector_move this other
  | OpCopyAssign this rhs => Vector_copy_assign this rhs
  | OpMoveAssign this rhs => Vector_move_assign this rhs
  | OpSwap this other => Vector_Swap this other
  | OpReserve this new_capacity => Reserve this new_capacity
  | OpResize this new_size => Resize this new_size
  | OpEmplaceBack this args => EmplaceBack this args;; mret ()
  | OpPopBack this => PopBack this
  | OpEmplace this pos args => Emplace this pos args;; mret ()
  | OpErase this pos => Erase this pos;; mret ()
  end.

End model.

(** ** Two element types and a few states, for the examples *)

(** [int]-like: nothing throws, a moved-from object keeps its value. *)
Definition Plain : ElemType := {|
  T := nat;
  Args := nat;
  T_ctor := Some;
  T_default := Some 0;
  is_copy_constructible := true;
  copy_throws := λ _, false;
  is_nothrow_move_constructible := true;
  move_throws := λ _, false;
  moved_from := λ v, v;
  copy_assign_throws := λ _, false;
  move_assign_throws := λ _, false;
|}.

(** A copyable type whose move constructor is not [noexcept] and whose copy
    constructor throws on the value 13; a moved-from object holds 0. *)
Definition Fragile : ElemType := {|
  T := nat;
  Args := nat;
  T_ctor := Some;
  T_default := Some 0;
  is_copy_constructible := true;
  copy_throws := λ v, v =? 13;
  is_nothrow_move_constructible := false;
  move_throws := λ v, v =? 13;
  moved_from := λ _, 0;
  copy_assign_throws := λ _, false;
  move_assign_throws := λ _, false;
|}.

(** A type whose default constructor throws; nothing else does. *)
Definition NoDefault : ElemType := {|
  T := nat;
  Args := nat;
  T_ctor := Some;
  T_default := None;
  is_copy_constructible := true;
  copy_throws := λ _, false;
  is_nothrow_move_constructible := true;
  move_throws := λ _, false;
  moved_from := λ v, v;
  copy_assign_throws := λ _, false;
  move_assign_throws := λ _, false;
|}.

(** The full vector [[1, 13]] at address 0, its block at address 1. *)
Definition full_pair `{ET : ElemType} (x y : T) : state :=
  St {[1 := [Live x; Live y]]}
     {[0 := {| data_ := {| buffer_ := Ptr 1 0; capacity_ := 2 |}; size_ := 2 |}]}
     [].

(** The vector [[x, y]] with room for four at address 0 (block 1), and the
    vector [[z]] at address 5 (block 2). *)
Definition two_vectors `{ET : ElemType} (x y z : T) : state :=
  St {[1 := [Live x; Live y; Raw; Raw]; 2 := [Live z]]}
     {[0 := {| data_ := {| buffer_ := Ptr 1 0; capacity_ := 4 |}; size_ := 2 |};
       5 := {| data_ := {| buffer_ := Ptr 2 0; capacity_ := 1 |}; size_ := 1 |}]}
     [].

(** * Proofs

    ** Running the monad *)

Section monad.
Context `{ET : ElemType}.
Implicit Types (h : gmap addr (list slot)) (V : gmap vid Vector) (t : list event).
Implicit Types (vs ws : list T) (pre post : list slot).

(** ** Running the monad *)

Lemma bind_run {A B} (m : M A) (f : A → M B) s :
  (m ≫= f) s =
  match m s with
  | (Ok a, s') => f a s'
  | (Thrown, s') => (Thrown, s')
  | (AssertFail, s') => (AssertFail, s')
  | (Undefined, s') => (Undefined, s')
  end.
Proof. reflexivity. Qed.

Lemma ret_run {A} (a : A) (s : state) : (mret a : M A) s = (Ok a, s).
Proof. reflexivity. Qed.

Lemma bind_ok {A B} (m : M A) (f : A → M B) s a s' :
  m s = (Ok a, s') → (m ≫= f) s = f a s'.
Proof. intros H. by rw bind_run H. Qed.

Lemma bind_assoc {A B C} (m : M A) (f : A → M B) (g : B → M C) s :
  ((m ≫= f) ≫= g) s = (m ≫= λ a, f a ≫= g) s.
Proof. rw !bind_run. by destruct (m s) as [[]]. Qed.

Lemma on_throw_ok {A} (m : M A) k s a s' :
  m s = (Ok a, s') → on_throw m k s = (Ok a, s').
Proof. intros H. unfold on_throw. by rw H. Qed.

Lemma on_throw_thrown {A} (m : M A) k s s' s'' :
  m s = (Thrown, s') → k s' = (Ok (), s'') → on_throw m k s = (Thrown, s'').
Proof. intros H H'. unfold on_throw. by rw H H'. Qed.

End monad.

(** Bring the first action of a run to the head. *)
Ltac flatten :=
  repeat match goal with
         | |- context [mbind ?g (mbind ?f ?m) ?s] => rw (bind_assoc m f g s)
         end.

(** Normalise a heap built from insertions and deletions at two addresses. *)
Ltac heap_norm :=
  repeat first
    [ rw delete_insert_eq
    | rw delete_insert_ne; [done|]
    | rw insert_insert_eq
    | match goal with
      | |- context [<[?a := ?x]> (<[?b := ?y]> (<[?a := ?z]> ?m))] =>
          rw (insert_insert_ne (<[a := z]> m) a b x y); [done|]
      end ].

(** Run the first action: [tac] proves its equation. *)
Tactic Notation "step" "by" tactic3(tac) :=
  flatten; erewrite bind_ok; last (solve [tac; done]).
Tactic Notation "step" :=
  flatten; erewrite bind_ok; last first.

Section primitives.
Context `{ET : ElemType}.
Implicit Types (h : gmap addr (list slot)) (V : gmap vid Vector) (t : list event).
Implicit Types (vs ws : list T) (pre post : list slot).

(** ** The primitives *)

Lemma get_vec_run h V t this v :
  V !! this = Some v → get_vec this (St h V t) = (Ok v, St h V t).
Proof. intros H. unfold get_vec. simpl. by rw H. Qed.

Lemma put_vec_run h V t this v :
  put_vec this v (St h V t) = (Ok (), St h (<[this := v]> V) t).
Proof. done. Qed.

Lemma set_size_run h V t this v n :
  V !! this = Some v →
  set_size this n (St h V t) =
  (Ok (), St h (<[this := {| data_ := data_ v; size_ := n |}]> V) t).
Proof. intros H. unfold set_size. by rw (bind_ok _ _ _ _ _ (get_vec_run _ _ _ _ _ H)). Qed.

Lemma set_data_run h V t this v d :
  V !! this = Some v →
  set_data this d (St h V t) =
  (Ok (), St h (<[this := {| data_ := d; size_ := size_ v |}]> V) t).
Proof. intros H. unfold set_data. by rw (bind_ok _ _ _ _ _ (get_vec_run _ _ _ _ _ H)). Qed.

Lemma load_run h V t a off blk v :
  h !! a = Some blk → blk !! off = Some (Live v) →
  load (Ptr a off) (St h V t) = (Ok v, St h V t).
Proof.
  intros Ha Hoff. unfold load. rw bind_run. unfold slot_at. simpl.
  rw Ha. simpl. by rw Hoff.
Qed.

Lemma store_run h V t a off blk x :
  h !! a = Some blk → off < length blk →
  store (Ptr a off) x (St h V t) = (Ok (), St (<[a := <[off := x]> blk]> h) V t).
Proof.
  intros Ha Hoff. unfold store. simpl. rw Ha.
  by destruct (Nat.ltb_spec off (length blk)); [|lia].
Qed.

(** The same two, for a slot given by what is before and after it. *)
Lemma load_mid h V t a pre v post :
  h !! a = Some (pre ++ Live v :: post) →
  load (Ptr a (length pre)) (St h V t) = (Ok v, St h V t).
Proof. intros Ha. eapply load_run; [done|]. by apply list_lookup_middle. Qed.

Lemma store_mid h V t a pre y post x :
  h !! a = Some (pre ++ y :: post) →
  store (Ptr a (length pre)) x (St h V t) = (Ok (), St (<[a := pre ++ x :: post]> h) V t).
Proof.
  intros Ha. rw (store_run _ _ _ _ _ _ x Ha).
  - rw length_app /=. lia.
  - by rw insert_app_r_alt // Nat.sub_diag.
Qed.

Lemma load_at h V t a off pre v post :
  off = length pre → h !! a = Some (pre ++ Live v :: post) →
  load (Ptr a off) (St h V t) = (Ok v, St h V t).
Proof. intros ->. apply load_mid. Qed.

Lemma store_at h V t a off pre y post x :
  off = length pre → h !! a = Some (pre ++ y :: post) →
  store (Ptr a off) x (St h V t) = (Ok (), St (<[a := pre ++ x :: post]> h) V t).
Proof. intros ->. apply store_mid. Qed.

Lemma destroy_at_run h V t a pre v post :
  h !! a = Some (pre ++ Live v :: post) →
  destroy_at (Ptr a (length pre)) (St h V t) =
  (Ok (), St (<[a := pre ++ Raw :: post]> h) V (t ++ [EvDestroy v])).
Proof.
  intros Ha. unfold destroy_at.
  rw (bind_ok _ _ _ _ _ (load_mid _ _ _ _ _ _ _ Ha)).
  by rw (bind_ok _ _ _ _ _ (store_mid _ _ _ _ _ _ _ Raw Ha)).
Qed.

Lemma construct_at_run h V t a pre y post args x :
  h !! a = Some (pre ++ y :: post) → ctor args = Ok x →
  construct_at (Ptr a (length pre)) args (St h V t) =
  (Ok (), St (<[a := pre ++ Live x :: post]> h) V (t ++ [EvConstruct (ctor_how args) x])).
Proof.
  intros Ha Hx. unfold construct_at. rw bind_run. unfold lift. rw Hx.
  by rw (bind_ok _ _ _ _ _ (store_mid _ _ _ _ _ _ _ (Live x) Ha)).
Qed.

Lemma construct_at_thrown h V t p args :
  ctor args = Thrown → construct_at p args (St h V t) = (Thrown, St h V t).
Proof. intros Hx. unfold construct_at. rw bind_run. unfold lift. by rw Hx. Qed.

End primitives.

(** ** The algorithms that construct and destroy *)

Section construction.
Context `{ET : ElemType}.
Implicit Types (h : gmap addr (list slot)) (V : gmap vid Vector) (t : list event).
Implicit Types (vs ws : list T) (pre post : list slot).

Lemma ptr_add_snoc a pre (x : slot) :
  Ptr a (length pre + 1) = Ptr a (length (pre ++ [x])).
Proof. by rw length_app. Qed.

Lemma snoc_app {A} (l1 : list A) x l2 : (l1 ++ [x]) ++ l2 = l1 ++ x :: l2.
Proof. by rw -app_assoc. Qed.

Lemma destroy_n_run h V t a pre vs post :
  h !! a = Some (pre ++ map Live vs ++ post) →
  destroy_n (Ptr a (length pre)) (length vs) (St h V t) =
  (Ok (), St (<[a := pre ++ replicate (length vs) Raw ++ post]> h) V
             (t ++ map EvDestroy vs)).
Proof.
  revert pre h t. induction vs as [|v vs IH]; intros pre h t Ha; simpl.
  - by rw insert_id // app_nil_r.
  - rw (bind_ok _ _ _ _ _ (destroy_at_run _ _ _ _ _ _ _ Ha)).
    rw (ptr_add_snoc a pre Raw) IH.
    + by rw lookup_insert_eq snoc_app.
    + rw insert_insert_eq !snoc_app. done.
Qed.

Lemma copy_construct_at_run h V t a b pa v qa pb y qb :
  is_copy_constructible = true → copy_throws v = false →
  h !! a = Some (pa ++ Live v :: qa) →
  h !! b = Some (pb ++ y :: qb) →
  copy_construct_at (Ptr b (length pb)) (Ptr a (length pa)) (St h V t) =
  (Ok (), St (<[b := pb ++ Live v :: qb]> h) V (t ++ [EvConstruct Copy v])).
Proof.
  intros Hc Hv Ha Hb. unfold copy_construct_at.
  rw (bind_ok _ _ _ _ _ (load_mid _ _ _ _ _ _ _ Ha)).
  rw (construct_at_run _ _ _ _ _ _ _ (ArgCopy v) v Hb) //.
  by rw /= Hc Hv.
Qed.

Lemma copy_construct_at_thrown h V t a p pa v qa :
  is_copy_constructible = true → copy_throws v = true →
  h !! a = Some (pa ++ Live v :: qa) →
  copy_construct_at p (Ptr a (length pa)) (St h V t) = (Thrown, St h V t).
Proof.
  intros Hc Hv Ha. unfold copy_construct_at.
  rw (bind_ok _ _ _ _ _ (load_mid _ _ _ _ _ _ _ Ha)).
  by rw construct_at_thrown // /= Hc Hv.
Qed.

Lemma uninitialized_copy_n_run h V t a b pa vs qa pb ys qb :
  is_copy_constructible = true → a ≠ b →
  Forall (λ v, copy_throws v = false) vs →
  length ys = length vs →
  h !! a = Some (pa ++ map Live vs ++ qa) →
  h !! b = Some (pb ++ ys ++ qb) →
  uninitialized_copy_n (Ptr a (length pa)) (length vs) (Ptr b (length pb)) (St h V t) =
  (Ok (), St (<[b := pb ++ map Live vs ++ qb]> h) V (t ++ map (EvConstruct Copy) vs)).
Proof.
  intros Hc Hab. revert pa pb ys h t.
  induction vs as [|v vs IH]; intros pa pb ys h t Hq Hlen Ha Hb; simpl.
  - destruct ys; [|done]. by rw insert_id // app_nil_r.
  - destruct ys as [|y ys]; [done|]. inversion Hq as [|?? Hv Hq']; subst.
    rw (bind_ok _ _ _ _ _ (copy_construct_at_run _ _ _ _ _ _ _ _ _ _ _ Hc Hv Ha Hb)).
    rw (ptr_add_snoc a pa (Live v)) (ptr_add_snoc b pb (Live v)).
    erewrite on_throw_ok; last first.
    { apply (IH _ _ ys); [done|by simplify_eq/=| |].
      - by rw lookup_insert_ne // snoc_app.
      - by rw lookup_insert_eq snoc_app. }
    by rw insert_insert_eq !snoc_app -?app_assoc.
Qed.

(** When a copy throws, what was constructed is destroyed again: the heap is
    as before, the source untouched. *)
Lemma uninitialized_copy_n_thrown h V t a b pa vs qa pb qb :
  is_copy_constructible = true → a ≠ b →
  Exists (λ v, copy_throws v = true) vs →
  h !! a = Some (pa ++ map Live vs ++ qa) →
  h !! b = Some (pb ++ replicate (length vs) Raw ++ qb) →
  ∃ evs,
    uninitialized_copy_n (Ptr a (length pa)) (length vs) (Ptr b (length pb)) (St h V t) =
    (Thrown, St h V (t ++ evs)).
Proof.
  intros Hc Hab. revert pa pb h t.
  induction vs as [|v vs IH]; intros pa pb h t Hex Ha Hb; simpl.
  - by apply Exists_nil in Hex.
  - destruct (copy_throws v) eqn:Hv.
    + exists []. rw bind_run (copy_construct_at_thrown _ _ _ _ _ _ _ _ Hc Hv Ha).
      by rw app_nil_r.
    + apply Exists_cons in Hex as [Hex|Hex]; [congruence|].
      rw (bind_ok _ _ _ _ _ (copy_construct_at_run _ _ _ _ _ _ _ _ _ _ _ Hc Hv Ha Hb)).
      rw (ptr_add_snoc a pa (Live v)) (ptr_add_snoc b pb (Live v)).
      edestruct (IH (pa ++ [Live v]) (pb ++ [Live v])
                   (<[b:=pb ++ Live v :: replicate (length vs) Raw ++ qb]> h)
                   (t ++ [EvConstruct Copy v])) as [evs Hrun]; [done| | |].
      { by rw lookup_insert_ne // snoc_app. }
      { by rw lookup_insert_eq snoc_app. }
      eexists. erewrite on_throw_thrown; [|exact Hrun|].
      2:{ apply destroy_at_run. by rw lookup_insert_eq. }
      rw insert_insert_eq insert_id // -!app_assoc. reflexivity.
Qed.

Lemma move_construct_at_run h V t a b pa v qa pb y qb :
  a ≠ b → move_ctor_throws v = false →
  h !! a = Some (pa ++ Live v :: qa) →
  h !! b = Some (pb ++ y :: qb) →
  move_construct_at (Ptr b (length pb)) (Ptr a (length pa)) (St h V t) =
  (Ok (), St (<[b := pb ++ Live v :: qb]> (<[a := pa ++ Live (moved_from v) :: qa]> h)) V
             (t ++ [EvConstruct Move v])).
Proof.
  intros Hab Hv Ha Hb. unfold move_construct_at.
  rw (bind_ok _ _ _ _ _ (load_mid _ _ _ _ _ _ _ Ha)).
  rw bind_run /lift /= Hv.
  rw (bind_ok _ _ _ _ _ (store_mid _ _ _ _ _ _ _ (Live (moved_from v)) Ha)).
  erewrite bind_ok; last first.
  { apply store_mid with (y := y). by rw lookup_insert_ne. }
  done.
Qed.

Lemma uninitialized_move_n_run h V t a b pa vs qa pb ys qb :
  a ≠ b →
  Forall (λ v, move_ctor_throws v = false) vs →
  length ys = length vs →
  h !! a = Some (pa ++ map Live vs ++ qa) →
  h !! b = Some (pb ++ ys ++ qb) →
  uninitialized_move_n (Ptr a (length pa)) (length vs) (Ptr b (length pb)) (St h V t) =
  (Ok (), St (<[b := pb ++ map Live vs ++ qb]>
               (<[a := pa ++ map Live (map moved_from vs) ++ qa]> h)) V
             (t ++ map (EvConstruct Move) vs)).
Proof.
  intros Hab. revert pa pb ys h t.
  induction vs as [|v vs IH]; intros pa pb ys h t Hq Hlen Ha Hb; simpl.
  - destruct ys; [|done]. by rw (insert_id h a) // insert_id // app_nil_r.
  - destruct ys as [|y ys]; [done|]. inversion Hq as [|?? Hv Hq']; subst.
    rw (bind_ok _ _ _ _ _ (move_construct_at_run _ _ _ _ _ _ _ _ _ _ _ Hab Hv Ha Hb)).
    rw (ptr_add_snoc a pa (Live (moved_from v))) (ptr_add_snoc b pb (Live v)).
    erewrite on_throw_ok; last first.
    { apply (IH _ _ ys); [done|by simplify_eq/=| |].
      - by rw lookup_insert_ne // lookup_insert_eq snoc_app.
      - by rw lookup_insert_eq snoc_app. }
    rw (insert_insert_ne _ a b) // !insert_insert_eq.
    by rw !snoc_app -?app_assoc.
Qed.

End construction.

(** ** The algorithms that assign *)

Section assignment.
Context `{ET : ElemType}.
Implicit Types (h : gmap addr (list slot)) (V : gmap vid Vector) (t : list event).
Implicit Types (vs ws : list T) (pre post : list slot).

Lemma copy_assign_run h V t a b pa v qa pb w qb :
  a ≠ b → copy_assign_throws v = false →
  h !! a = Some (pa ++ Live v :: qa) →
  h !! b = Some (pb ++ Live w :: qb) →
  copy_assign (Ptr b (length pb)) (Ptr a (length pa)) (St h V t) =
  (Ok (), St (<[b := pb ++ Live v :: qb]> h) V (t ++ [EvAssign Copy v])).
Proof.
  intros Hab Hv Ha Hb. unfold copy_assign.
  rw (bind_ok _ _ _ _ _ (load_mid _ _ _ _ _ _ _ Ha)).
  rw (bind_ok _ _ _ _ _ (load_mid _ _ _ _ _ _ _ Hb)) Hv.
  by rw (bind_ok _ _ _ _ _ (store_mid _ _ _ _ _ _ _ (Live v) Hb)).
Qed.

Lemma copy_n_run h V t a b pa vs qa pb ws qb :
  a ≠ b →
  Forall (λ v, copy_assign_throws v = false) vs →
  length ws = length vs →
  h !! a = Some (pa ++ map Live vs ++ qa) →
  h !! b = Some (pb ++ map Live ws ++ qb) →
  copy_n (Ptr a (length pa)) (length vs) (Ptr b (length pb)) (St h V t) =
  (Ok (Ptr b (length pb + length vs)),
   St (<[b := pb ++ map Live vs ++ qb]> h) V (t ++ map (EvAssign Copy) vs)).
Proof.
  intros Hab. revert pa pb ws h t.
  induction vs as [|v vs IH]; intros pa pb ws h t Hq Hlen Ha Hb; simpl.
  - destruct ws; [|done]. by rw insert_id // app_nil_r Nat.add_0_r.
  - destruct ws as [|w ws]; [done|]. inversion Hq as [|?? Hv Hq']; subst.
    rw (bind_ok _ _ _ _ _ (copy_assign_run _ _ _ _ _ _ _ _ _ _ _ Hab Hv Ha Hb)).
    rw (ptr_add_snoc a pa (Live v)) (ptr_add_snoc b pb (Live v)).
    rw (IH _ _ ws); [done|by simplify_eq/=| | |].
    + by rw lookup_insert_ne // snoc_app.
    + by rw lookup_insert_eq snoc_app.
    + rw insert_insert_eq !snoc_app -?app_assoc length_app /=.
      do 3 f_equal. lia.
Qed.

(** [*p = std::move( *q)] for two neighbours of one block, [q] after [p] *)
Lemma move_assign_from_next h V t a pre x v post :
  move_assign_throws v = false →
  h !! a = Some (pre ++ Live x :: Live v :: post) →
  move_assign (Ptr a (length pre)) (Ptr a (length pre + 1)) (St h V t) =
  (Ok (), St (<[a := pre ++ Live v :: Live (moved_from v) :: post]> h) V
             (t ++ [EvAssign Move v])).
Proof.
  intros Hv Ha. unfold move_assign.
  have Ha' : h !! a = Some ((pre ++ [Live x]) ++ Live v :: post) by rw snoc_app.
  have Hlen : ∀ y : slot, length pre + 1 = length (pre ++ [y])
    by (intros; rw length_app).
  rw (bind_ok _ _ _ _ _ (load_at _ _ _ _ _ _ _ _ (Hlen _) Ha')).
  rw (bind_ok _ _ _ _ _ (load_mid _ _ _ _ _ _ _ Ha)) Hv.
  rw (bind_ok _ _ _ _ _ (store_at _ _ _ _ _ _ _ _ (Live (moved_from v)) (Hlen _) Ha')).
  erewrite bind_ok; last first.
  { apply store_mid with (y := Live x). by rw lookup_insert_eq snoc_app. }
  by rw insert_insert_eq.
Qed.

(** ... and [q] before [p] *)
Lemma move_assign_from_prev h V t a pre v x post :
  move_assign_throws v = false →
  h !! a = Some (pre ++ Live v :: Live x :: post) →
  move_assign (Ptr a (length pre + 1)) (Ptr a (length pre)) (St h V t) =
  (Ok (), St (<[a := pre ++ Live (moved_from v) :: Live v :: post]> h) V
             (t ++ [EvAssign Move v])).
Proof.
  intros Hv Ha. unfold move_assign.
  have Ha' : h !! a = Some ((pre ++ [Live v]) ++ Live x :: post) by rw snoc_app.
  have Hlen : ∀ y : slot, length pre + 1 = length (pre ++ [y])
    by (intros; rw length_app).
  rw (bind_ok _ _ _ _ _ (load_mid _ _ _ _ _ _ _ Ha)).
  rw (bind_ok _ _ _ _ _ (load_at _ _ _ _ _ _ _ _ (Hlen _) Ha')) Hv.
  rw (bind_ok _ _ _ _ _ (store_mid _ _ _ _ _ _ _ (Live (moved_from v)) Ha)).
  erewrite bind_ok; last first.
  { apply store_at with (pre := pre ++ [Live (moved_from v)]) (y := Live x); [done|].
    by rw lookup_insert_eq snoc_app. }
  by rw insert_insert_eq snoc_app.
Qed.

(** [new (p) T(std::move( *q))] for [p] right after [q] in one block *)
Lemma move_construct_at_next h V t a pre v y post :
  move_ctor_throws v = false →
  h !! a = Some (pre ++ Live v :: y :: post) →
  move_construct_at (Ptr a (length pre + 1)) (Ptr a (length pre)) (St h V t) =
  (Ok (), St (<[a := pre ++ Live (moved_from v) :: Live v :: post]> h) V
             (t ++ [EvConstruct Move v])).
Proof.
  intros Hv Ha. unfold move_construct_at.
  have Hlen : ∀ y : slot, length pre + 1 = length (pre ++ [y])
    by (intros; rw length_app).
  rw (bind_ok _ _ _ _ _ (load_mid _ _ _ _ _ _ _ Ha)).
  rw bind_run /lift /= Hv.
  rw (bind_ok _ _ _ _ _ (store_mid _ _ _ _ _ _ _ (Live (moved_from v)) Ha)).
  erewrite bind_ok; last first.
  { apply store_at with (pre := pre ++ [Live (moved_from v)]) (y := y); [done|].
    by rw lookup_insert_eq snoc_app. }
  by rw insert_insert_eq snoc_app.
Qed.

Lemma move_n_run h V t a pre x vs post :
  Forall (λ v, move_assign_throws v = false) vs →
  h !! a = Some (pre ++ Live x :: map Live vs ++ post) →
  move_n (Ptr a (length pre + 1)) (length vs) (Ptr a (length pre)) (St h V t) =
  (Ok (), St (<[a := pre ++ map Live vs ++ Live (shift_residue x vs) :: post]> h) V
             (t ++ map (EvAssign Move) vs)).
Proof.
  revert pre x h t. induction vs as [|v vs IH]; intros pre x h t Hq Ha; simpl.
  - by rw insert_id // app_nil_r.
  - inversion Hq as [|?? Hv Hq']; subst.
    rw (bind_ok _ _ _ _ _ (move_assign_from_next _ _ _ _ _ _ _ _ Hv Ha)).
    have -> : length pre + 1 = length (pre ++ [Live v]) by rw length_app.
    rw (IH _ (moved_from v)) //.
    + by rw lookup_insert_eq snoc_app.
    + by rw insert_insert_eq !snoc_app -?app_assoc.
Qed.

Lemma ptr_sub_1 a k : ptr_sub (Ptr a (k + 1)) 1 = Ptr a k.
Proof.
  rw /ptr_sub. destruct (Nat.leb_spec 1 (k + 1)); [|lia].
  f_equal. lia.
Qed.

Lemma move_backward_n_S last k d_last :
  move_backward_n last (S k) d_last =
  (move_assign (ptr_sub d_last 1) (ptr_sub last 1);;
   move_backward_n (ptr_sub last 1) k (ptr_sub d_last 1)).
Proof. reflexivity. Qed.

Lemma move_backward_n_run h V t a pre vs y post :
  Forall (λ v, move_assign_throws v = false) vs →
  h !! a = Some (pre ++ map Live vs ++ Live y :: post) →
  move_backward_n (Ptr a (length pre + length vs)) (length vs)
                  (Ptr a (length pre + length vs + 1)) (St h V t) =
  (Ok (), St (<[a := pre ++ Live (gap_residue y vs) :: map Live vs ++ post]> h) V
             (t ++ map (EvAssign Move) (rev vs))).
Proof.
  revert y post h t. induction vs as [|v vs IH] using rev_ind; intros y post h t Hq Ha; simpl.
  - by rw insert_id // app_nil_r.
  - apply Forall_app in Hq as [Hq Hv]. inversion Hv as [|?? Hv' _]; subst.
    rw length_app /= Nat.add_assoc (Nat.add_1_r (length vs)).
    rw move_backward_n_S !ptr_sub_1.
    rw map_app -app_assoc /= in Ha.
    have Ha' : h !! a = Some ((pre ++ map Live vs) ++ Live v :: Live y :: post)
      by rw -app_assoc.
    have Hlen : length pre + length vs = length (pre ++ map Live vs)
      by rw length_app length_map.
    rw Hlen (bind_ok _ _ _ _ _ (move_assign_from_prev _ _ _ _ _ _ _ _ Hv' Ha')).
    rw -Hlen (IH (moved_from v) (Live v :: post)) //.
    + by rw lookup_insert_eq -app_assoc.
    + rw insert_insert_eq rev_app_distr /= map_app -!app_assoc /=.
      by destruct vs.
Qed.

End assignment.

(** ** [RawMemory] and [SafeMove] *)

Section raw_memory.
Context `{ET : ElemType}.
Implicit Types (h : gmap addr (list slot)) (V : gmap vid Vector) (t : list event).
Implicit Types (vs ws : list T) (pre post : list slot).

(** ** Allocation *)

Lemma fresh_block h : h !! fresh (dom h) = None.
Proof. apply not_elem_of_dom, is_fresh. Qed.

Lemma Allocate_run h V t n :
  n ≠ 0 →
  Allocate n (St h V t) =
  (Ok (Ptr (fresh (dom h)) 0),
   St (<[fresh (dom h) := replicate n Raw]> h) V (t ++ [EvNew (fresh (dom h)) n])).
Proof. intros Hn. unfold Allocate. by case_decide. Qed.

Lemma RawMemory_ctor_run h V t n :
  n ≠ 0 →
  RawMemory_ctor n (St h V t) =
  (Ok {| buffer_ := Ptr (fresh (dom h)) 0; capacity_ := n |},
   St (<[fresh (dom h) := replicate n Raw]> h) V (t ++ [EvNew (fresh (dom h)) n])).
Proof. intros Hn. unfold RawMemory_ctor. by rw (bind_ok _ _ _ _ _ (Allocate_run _ _ _ _ Hn)). Qed.

Lemma RawMemory_ctor_0 s :
  RawMemory_ctor 0 s = (Ok {| buffer_ := nullptr; capacity_ := 0 |}, s).
Proof. done. Qed.

Lemma Deallocate_run h V t a blk :
  h !! a = Some blk →
  Deallocate (Ptr a 0) (St h V t) = (Ok (), St (delete a h) V (t ++ [EvDelete a])).
Proof. intros Ha. unfold Deallocate. case_decide; [|done]. by rw /operator_delete /= Ha. Qed.

Lemma Deallocate_null s : Deallocate nullptr s = (Ok (), s).
Proof. done. Qed.

Lemma RawMemory_plus_run m off s :
  off ≤ capacity_ m → RawMemory_plus m off s = (Ok (ptr_add (buffer_ m) off), s).
Proof.
  intros H. unfold RawMemory_plus, assert. rw bind_run.
  by destruct (Nat.leb_spec off (capacity_ m)); [|lia].
Qed.

Lemma RawMemory_index_run m i s :
  i < capacity_ m → RawMemory_index m i s = (Ok (ptr_add (buffer_ m) i), s).
Proof.
  intros H. unfold RawMemory_index, assert. rw bind_run.
  by destruct (Nat.ltb_spec i (capacity_ m)); [|lia].
Qed.

(** ** [SafeMove] *)

Lemma quiet_copy v : quiet v = true → copy_throws v = false.
Proof. unfold quiet. destruct (copy_throws v); naive_solver. Qed.
Lemma quiet_move v : quiet v = true → move_ctor_throws v = false.
Proof. unfold quiet. destruct (move_ctor_throws v), (copy_throws v); naive_solver. Qed.
Lemma quiet_copy_assign v : quiet v = true → copy_assign_throws v = false.
Proof.
  unfold quiet.
  destruct (copy_assign_throws v), (move_ctor_throws v), (copy_throws v); naive_solver.
Qed.
Lemma quiet_move_assign v : quiet v = true → move_assign_throws v = false.
Proof.
  unfold quiet.
  destruct (move_assign_throws v), (copy_assign_throws v), (move_ctor_throws v),
    (copy_throws v); naive_solver.
Qed.

Lemma SafeMove_0 from to s : SafeMove from 0 to s = (Ok (), s).
Proof. unfold SafeMove. by destruct (_ || _). Qed.

Lemma SafeMove_move_run h V t a b pa vs qa pb ys qb :
  is_nothrow_move_constructible || negb is_copy_constructible = true →
  a ≠ b →
  Forall (λ v, move_ctor_throws v = false) vs →
  length ys = length vs →
  h !! a = Some (pa ++ map Live vs ++ qa) →
  h !! b = Some (pb ++ ys ++ qb) →
  SafeMove (Ptr a (length pa)) (length vs) (Ptr b (length pb)) (St h V t) =
  (Ok (), St (<[a := pa ++ replicate (length vs) Raw ++ qa]>
               (<[b := pb ++ map Live vs ++ qb]> h)) V
             (t ++ map (EvConstruct Move) vs ++ map EvDestroy (map moved_from vs))).
Proof.
  intros Hk Hab Hq Hlen Ha Hb. unfold SafeMove. rw Hk.
  erewrite bind_ok; last by eapply uninitialized_move_n_run.
  rw -{1}(length_map moved_from vs) (destroy_n_run _ _ _ _ pa _ qa).
  - by rw lookup_insert_ne // lookup_insert_eq.
  - rw insert_insert_ne // insert_insert_eq insert_insert_ne //.
    by rw length_map -app_assoc.
Qed.

Lemma SafeMove_copy_run h V t a b pa vs qa pb ys qb :
  is_nothrow_move_constructible || negb is_copy_constructible = false →
  a ≠ b →
  Forall (λ v, copy_throws v = false) vs →
  length ys = length vs →
  h !! a = Some (pa ++ map Live vs ++ qa) →
  h !! b = Some (pb ++ ys ++ qb) →
  SafeMove (Ptr a (length pa)) (length vs) (Ptr b (length pb)) (St h V t) =
  (Ok (), St (<[a := pa ++ replicate (length vs) Raw ++ qa]>
               (<[b := pb ++ map Live vs ++ qb]> h)) V
             (t ++ map (EvConstruct Copy) vs ++ map EvDestroy vs)).
Proof.
  intros Hk Hab Hq Hlen Ha Hb. unfold SafeMove. rw Hk.
  apply orb_false_iff in Hk as [_ Hc]. apply negb_false_iff in Hc.
  erewrite bind_ok; last by eapply uninitialized_copy_n_run.
  rw (destroy_n_run _ _ _ _ pa _ qa).
  - by rw lookup_insert_ne.
  - by rw insert_insert_ne // -app_assoc.
Qed.

(** A copy that throws ends the transfer before any source is destroyed. *)
Lemma SafeMove_copy_thrown h V t a b pa vs qa pb qb :
  is_nothrow_move_constructible || negb is_copy_constructible = false →
  a ≠ b →
  Exists (λ v, copy_throws v = true) vs →
  h !! a = Some (pa ++ map Live vs ++ qa) →
  h !! b = Some (pb ++ replicate (length vs) Raw ++ qb) →
  ∃ evs,
    SafeMove (Ptr a (length pa)) (length vs) (Ptr b (length pb)) (St h V t) =
    (Thrown, St h V (t ++ evs)).
Proof.
  intros Hk Hab Hex Ha Hb. unfold SafeMove. rw Hk.
  apply orb_false_iff in Hk as [_ Hc]. apply negb_false_iff in Hc.
  destruct (uninitialized_copy_n_thrown h V t a b pa vs qa pb qb) as [evs Hrun];
    [done..|].
  exists evs. by rw bind_run Hrun.
Qed.

Lemma SafeMove_run h V t a b pa vs qa pb ys qb :
  a ≠ b →
  Forall (λ v, quiet v = true) vs →
  length ys = length vs →
  h !! a = Some (pa ++ map Live vs ++ qa) →
  h !! b = Some (pb ++ ys ++ qb) →
  SafeMove (Ptr a (length pa)) (length vs) (Ptr b (length pb)) (St h V t) =
  (Ok (), St (<[a := pa ++ replicate (length vs) Raw ++ qa]>
               (<[b := pb ++ map Live vs ++ qb]> h)) V
             (t ++ transfer_trace vs)).
Proof.
  intros Hab Hq Hlen Ha Hb. unfold transfer_trace.
  destruct (_ || _) eqn:Hk.
  - apply SafeMove_move_run with (ys := ys); [done..| |done|done|done].
    eapply Forall_impl; [done|]. apply quiet_move.
  - apply SafeMove_copy_run with (ys := ys); [done..| |done|done|done].
    eapply Forall_impl; [done|]. apply quiet_copy.
Qed.

Lemma SafeMove_at h V t a b i j n pa vs qa pb ys qb :
  i = length pa → j = length pb → n = length vs →
  a ≠ b →
  Forall (λ v, quiet v = true) vs →
  length ys = length vs →
  h !! a = Some (pa ++ map Live vs ++ qa) →
  h !! b = Some (pb ++ ys ++ qb) →
  SafeMove (Ptr a i) n (Ptr b j) (St h V t) =
  (Ok (), St (<[a := pa ++ replicate (length vs) Raw ++ qa]>
               (<[b := pb ++ map Live vs ++ qb]> h)) V
             (t ++ transfer_trace vs)).
Proof. intros -> -> ->. apply SafeMove_run. Qed.

Lemma construct_at_at h V t a off pre y post args x :
  off = length pre →
  h !! a = Some (pre ++ y :: post) → ctor args = Ok x →
  construct_at (Ptr a off) args (St h V t) =
  (Ok (), St (<[a := pre ++ Live x :: post]> h) V (t ++ [EvConstruct (ctor_how args) x])).
Proof. intros ->. apply construct_at_run. Qed.

End raw_memory.

(** ** The paths of [EmplaceBack] *)

Section append_paths.
Context `{ET : ElemType}.
Implicit Types (h : gmap addr (list slot)) (V : gmap vid Vector) (t : list event).
Implicit Types (vs ws : list T) (pre post : list slot).

Lemma replicate_split {A} (x : A) n m :
  n < m → replicate m x = replicate n x ++ x :: replicate (m - n - 1) x.
Proof.
  intros H. replace m with (n + S (m - n - 1)) at 1 by lia.
  by rw replicate_add.
Qed.

Lemma grown_gt n : n < grown n.
Proof. unfold grown. case_decide; lia. Qed.

Lemma size_sub_le a b : b ≤ a → size_sub a b = a - b.
Proof. intros H. unfold size_sub. by destruct (Nat.leb_spec b a); [|lia]. Qed.

Lemma EmplaceBack_full_run h V t this a vs args x :
  V !! this = Some {| data_ := {| buffer_ := Ptr a 0; capacity_ := length vs |};
                      size_ := length vs |} →
  h !! a = Some (map Live vs) →
  ctor args = Ok x →
  Forall (λ v, quiet v = true) vs →
  let b := fresh (dom h) in
  let n := length vs in
  EmplaceBack this args (St h V t) =
  (Ok (Ptr b n),
   St (<[b := map Live (vs ++ [x]) ++ replicate (grown n - (n + 1)) Raw]> (delete a h))
      (<[this := {| data_ := {| buffer_ := Ptr b 0; capacity_ := grown n |};
                    size_ := n + 1 |}]> V)
      (t ++ EvNew b (grown n) :: EvConstruct (ctor_how args) x :: transfer_trace vs
         ++ [EvDelete a])).
Proof.
  intros Hv Ha Hx Hq b n. unfold EmplaceBack.
  have Hb : h !! b = None by apply fresh_block.
  have Hab : a ≠ b by congruence.
  have Hn := grown_gt n. 
  step by apply get_vec_run.
  cbn [size_ data_ RawMemory_Capacity capacity_ GetAddress buffer_].
  rw decide_True // -/n -/(grown n).
  step by (apply RawMemory_ctor_run; lia).
  step.
  { apply on_throw_ok.
    step by (apply RawMemory_plus_run; simpl; lia).
    step.
    { apply construct_at_at with (pre := replicate n Raw) (y := Raw);
        [by rw /= length_replicate| |done].
      by rw lookup_insert_eq (replicate_split Raw n). }
    apply SafeMove_at with (pa := []) (qa := []) (pb := []) (ys := replicate n Raw);
      try done.
    - by rw length_replicate.
    - by rw lookup_insert_ne // lookup_insert_ne // app_nil_r.
    - by rw lookup_insert_eq. }
  cbn [RawMemory_Swap buffer_ capacity_].
  step by apply set_data_run.
  step.
  { eapply Deallocate_run. by rw lookup_insert_eq. }
  step by (apply set_size_run; by rw lookup_insert_eq).
  step by (apply get_vec_run; by rw lookup_insert_eq).
  cbn [size_ data_].
  rw size_sub_le; first lia.
  rw RawMemory_index_run /=; first lia.
  f_equal; first (do 2 f_equal; lia).
  f_equal.
  - rw !insert_insert_eq delete_insert_eq delete_insert_ne //.
    rw map_app -app_assoc /=.
    do 4 f_equal. lia.
  - by rw !insert_insert_eq.
  - by rw -!app_assoc /=.
Qed.



Lemma EmplaceBack_null_run h V t this args x :
  V !! this = Some {| data_ := {| buffer_ := nullptr; capacity_ := 0 |}; size_ := 0 |} →
  ctor args = Ok x →
  let b := fresh (dom h) in
  EmplaceBack this args (St h V t) =
  (Ok (Ptr b 0),
   St (<[b := [Live x]]> h)
      (<[this := {| data_ := {| buffer_ := Ptr b 0; capacity_ := 1 |}; size_ := 1 |}]> V)
      (t ++ [EvNew b 1; EvConstruct (ctor_how args) x])).
Proof.
  intros Hv Hx b. unfold EmplaceBack.
  step by apply get_vec_run.
  cbn [size_ data_ RawMemory_Capacity capacity_ GetAddress buffer_].
  destruct (decide (0 = 0)) as [_|]; [|done].
  step by (by apply RawMemory_ctor_run).
  step.
  { apply on_throw_ok.
    step by (apply RawMemory_plus_run; simpl; lia).
    step.
    { apply construct_at_at with (pre := []) (y := Raw) (post := []); [done| |done].
      by rw lookup_insert_eq. }
    apply SafeMove_0. }
  cbn [RawMemory_Swap buffer_ capacity_].
  step by apply set_data_run.
  step by apply Deallocate_null.
  step by (apply set_size_run; by rw lookup_insert_eq).
  step by (apply get_vec_run; by rw lookup_insert_eq).
  cbn [size_ data_].
  rw size_sub_le; first lia.
  rw RawMemory_index_run /=; first lia.
  by rw !insert_insert_eq -!app_assoc.
Qed.

Lemma EmplaceBack_room_run h V t this a cap vs args x :
  V !! this = Some {| data_ := {| buffer_ := Ptr a 0; capacity_ := cap |};
                      size_ := length vs |} →
  length vs < cap →
  h !! a = Some (map Live vs ++ replicate (cap - length vs) Raw) →
  ctor args = Ok x →
  EmplaceBack this args (St h V t) =
  (Ok (Ptr a (length vs)),
   St (<[a := map Live (vs ++ [x]) ++ replicate (cap - (length vs + 1)) Raw]> h)
      (<[this := {| data_ := {| buffer_ := Ptr a 0; capacity_ := cap |};
                    size_ := length vs + 1 |}]> V)
      (t ++ [EvConstruct (ctor_how args) x])).
Proof.
  intros Hv Hlt Ha Hx. unfold EmplaceBack.
  step by apply get_vec_run.
  cbn [size_ data_ RawMemory_Capacity capacity_ GetAddress buffer_].
  rw decide_False; first lia.
  step by (apply RawMemory_plus_run; simpl; lia).
  step.
  { apply construct_at_at with (pre := map Live vs) (y := Raw)
      (post := replicate (cap - length vs - 1) Raw); [by rw /= length_map| |done].
    rw Ha (replicate_split Raw 0 (cap - length vs)); first lia.
    by rw /= Nat.sub_0_r. }
  step by (by apply set_size_run).
  step by (apply get_vec_run; by rw lookup_insert_eq).
  cbn [size_ data_].
  rw size_sub_le; first lia.
  rw RawMemory_index_run /=; first lia.
  by rw map_app -app_assoc /= Nat.add_sub Nat.sub_add_distr.
Qed.

End append_paths.

(** ** Computations that leave the vector objects alone *)

Section frame.
Context `{ET : ElemType}.
Implicit Types (h : gmap addr (list slot)) (V : gmap vid Vector) (t : list event).

(** ** Computations that work on the heap only *)

Lemma ho_ret {A} (a : A) : heap_only (mret a).
Proof. done. Qed.

Lemma ho_lift {A} (o : outcome A) : heap_only (lift o).
Proof. done. Qed.

Lemma ho_bind {A B} (m : M A) (f : A → M B) :
  heap_only m → (∀ a, heap_only (f a)) → heap_only (m ≫= f).
Proof.
  intros Hm Hf s. rw bind_run. specialize (Hm s).
  destruct (m s) as [[a| | |] s']; simpl in *; [|done..].
  by rw Hf.
Qed.

Lemma ho_on_throw {A} (m : M A) k :
  heap_only m → heap_only k → heap_only (on_throw m k).
Proof.
  intros Hm Hk s. unfold on_throw. specialize (Hm s).
  destruct (m s) as [[a| | |] s']; simpl in *; [done| |done..].
  specialize (Hk s'). by destruct (k s') as [[[]| | |] s'']; simpl in *; congruence.
Qed.

Lemma ho_assert b : heap_only (assert b).
Proof. intros s. unfold assert. by destruct b. Qed.

Lemma ho_log e : heap_only (log e).
Proof. done. Qed.

Lemma ho_defined {A} (o : option A) : heap_only (defined o).
Proof. by destruct o. Qed.

Lemma ho_operator_new n : heap_only (operator_new n).
Proof. done. Qed.

Lemma ho_operator_delete p : heap_only (operator_delete p).
Proof. intros s. unfold operator_delete. by repeat case_match. Qed.

Lemma ho_slot_at p : heap_only (slot_at p).
Proof. intros s. unfold slot_at. by repeat case_match. Qed.

Lemma ho_store p x : heap_only (store p x).
Proof. intros s. unfold store. by repeat case_match. Qed.

Lemma ho_get_vec this : heap_only (get_vec this).
Proof. intros s. unfold get_vec. by case_match. Qed.

Lemma ho_load p : heap_only (load p).
Proof. apply ho_bind; [apply ho_slot_at|]. intros []; [apply ho_lift|apply ho_ret]. Qed.

End frame.

Create HintDb heap_only discriminated.
#[global] Hint Resolve ho_ret ho_lift ho_assert ho_log ho_defined ho_operator_new
  ho_operator_delete ho_slot_at ho_store ho_load ho_get_vec : heap_only.

(** Decompose a computation built from binds, handlers and tests. *)
Ltac heap_only :=
  repeat first
    [ progress intros
    | apply ho_bind
    | apply ho_on_throw
    | solve [eauto with heap_only]
    | match goal with
      | |- heap_only (if ?b then _ else _) => destruct b
      | |- heap_only (match ?x with _ => _ end) => destruct x
      | |- heap_only (let '(_, _) := ?x in _) => destruct x
      end ].

Section frame_ops.
Context `{ET : ElemType}.

Lemma ho_throw {A} : heap_only (throw (A:=A)).
Proof. done. Qed.
Lemma ho_undefined {A} : heap_only (undefined (A:=A)).
Proof. done. Qed.

Lemma ho_construct_at p args : heap_only (construct_at p args).
Proof. unfold construct_at. heap_only. Qed.
Lemma ho_value_construct_at p : heap_only (value_construct_at p).
Proof. unfold value_construct_at. heap_only. Qed.
Lemma ho_copy_construct_at p q : heap_only (copy_construct_at p q).
Proof. unfold copy_construct_at. heap_only. Qed.
Lemma ho_move_construct_at p q : heap_only (move_construct_at p q).
Proof. unfold move_construct_at. heap_only. Qed.
Lemma ho_copy_assign p q : heap_only (copy_assign p q).
Proof. unfold copy_assign. heap_only. Qed.
Lemma ho_move_assign p q : heap_only (move_assign p q).
Proof. unfold move_assign. heap_only. Qed.
Lemma ho_destroy_at p : heap_only (destroy_at p).
Proof. unfold destroy_at. heap_only. Qed.
Lemma ho_construct_local args : heap_only (construct_local args).
Proof. unfold construct_local. heap_only. Qed.
Lemma ho_move_assign_local p x : heap_only (move_assign_local p x).
Proof. unfold move_assign_local. heap_only. Qed.
Lemma ho_destroy_local x : heap_only (destroy_local x).
Proof. done. Qed.

End frame_ops.

#[global] Hint Resolve ho_throw ho_undefined ho_construct_at ho_value_construct_at
  ho_copy_construct_at ho_move_construct_at ho_copy_assign ho_move_assign ho_destroy_at
  ho_construct_local ho_move_assign_local ho_destroy_local : heap_only.

Section frame_algorithms.
Context `{ET : ElemType}.

Lemma ho_uninitialized_value_construct_n p n :
  heap_only (uninitialized_value_construct_n p n).
Proof. revert p. induction n; intros p; simpl; heap_only. Qed.
Lemma ho_uninitialized_copy_n p n q : heap_only (uninitialized_copy_n p n q).
Proof. revert p q. induction n; intros p q; simpl; heap_only. Qed.
Lemma ho_uninitialized_move_n p n q : heap_only (uninitialized_move_n p n q).
Proof. revert p q. induction n; intros p q; simpl; heap_only. Qed.
Lemma ho_copy_n p n q : heap_only (copy_n p n q).
Proof. revert p q. induction n; intros p q; simpl; heap_only. Qed.
Lemma ho_destroy_n p n : heap_only (destroy_n p n).
Proof. revert p. induction n; intros p; simpl; heap_only. Qed.
Lemma ho_move_n p n q : heap_only (move_n p n q).
Proof. revert p q. induction n; intros p q; simpl; heap_only. Qed.
Lemma ho_move_backward_n p n q : heap_only (move_backward_n p n q).
Proof. revert p q. induction n; intros p q; rw /= -/ptr_sub; heap_only. Qed.

End frame_algorithms.

#[global] Hint Resolve ho_uninitialized_value_construct_n ho_uninitialized_copy_n
  ho_uninitialized_move_n ho_copy_n ho_destroy_n ho_move_n ho_move_backward_n : heap_only.

Section frame_memory.
Context `{ET : ElemType}.

Lemma ho_std_move p q r : heap_only (std_move p q r).
Proof. unfold std_move. heap_only. Qed.
Lemma ho_std_move_backward p q r : heap_only (std_move_backward p q r).
Proof. unfold std_move_backward. heap_only. Qed.
Lemma ho_Allocate n : heap_only (Allocate n).
Proof. unfold Allocate. heap_only. Qed.
Lemma ho_Deallocate p : heap_only (Deallocate p).
Proof. unfold Deallocate. heap_only. Qed.
Lemma ho_RawMemory_ctor n : heap_only (RawMemory_ctor n).
Proof. unfold RawMemory_ctor. heap_only. apply ho_Allocate. Qed.
Lemma ho_RawMemory_dtor m : heap_only (RawMemory_dtor m).
Proof. apply ho_Deallocate. Qed.
Lemma ho_RawMemory_plus m i : heap_only (RawMemory_plus m i).
Proof. unfold RawMemory_plus. heap_only. Qed.
Lemma ho_RawMemory_index m i : heap_only (RawMemory_index m i).
Proof. unfold RawMemory_index. heap_only. Qed.
Lemma ho_RawMemory_Init m m' : heap_only (RawMemory_Init m m').
Proof. unfold RawMemory_Init. heap_only. apply ho_Deallocate. Qed.
Lemma ho_SafeMove p n q : heap_only (SafeMove p n q).
Proof. unfold SafeMove. heap_only. Qed.

End frame_memory.

#[global] Hint Resolve ho_std_move ho_std_move_backward ho_Allocate ho_Deallocate
  ho_RawMemory_ctor ho_RawMemory_dtor ho_RawMemory_plus ho_RawMemory_index
  ho_RawMemory_Init ho_SafeMove : heap_only.

(** ** The invariant [size <= capacity] *)

Section invariant.
Context `{ET : ElemType}.
Implicit Types (h : gmap addr (list slot)) (V : gmap vid Vector) (t : list event).

Lemma get_vec_none h V t this :
  V !! this = None → get_vec this (St h V t) = (Undefined, St h V t).
Proof. intros H. unfold get_vec. simpl. by rw H. Qed.

Lemma frame_run {A} (m : M A) h V t :
  heap_only m → ∃ o h' t', m (St h V t) = (o, St h' V t').
Proof.
  intros Hm. specialize (Hm (St h V t)).
  destruct (m (St h V t)) as [o [h' V' t']]. simpl in Hm. subst. eauto.
Qed.

Lemma inv_insert V this v :
  size_le_capacity V → size_ v ≤ capacity_ (data_ v) →
  size_le_capacity (<[this := v]> V).
Proof. intros. by apply map_Forall_insert_2. Qed.

Lemma inv_lookup V this v :
  size_le_capacity V → V !! this = Some v → size_ v ≤ capacity_ (data_ v).
Proof. intros H Hv. by apply (map_Forall_lookup_1 _ _ _ _ H Hv). Qed.

Lemma inv_delete V this : size_le_capacity V → size_le_capacity (delete this V).
Proof. apply map_Forall_delete. Qed.

Lemma Deallocate_no_throw p : no_throw (Deallocate p).
Proof.
  intros s. unfold Deallocate, operator_delete. repeat case_match; simpl; congruence.
Qed.

Lemma RawMemory_ctor_frame h V t n :
  ∃ buf h' t',
    RawMemory_ctor n (St h V t) = (Ok {| buffer_ := buf; capacity_ := n |}, St h' V t').
Proof. unfold RawMemory_ctor, Allocate. case_decide; by eexists _, _, _. Qed.

Lemma RawMemory_Init_frame h V t m m' :
  ∃ o h' t',
    RawMemory_Init m m' (St h V t) = (o, St h' V t') ∧ o ≠ Thrown ∧
    ∀ r, o = Ok r →
      r = ({| buffer_ := buffer_ m'; capacity_ := capacity_ m' |},
           {| buffer_ := nullptr; capacity_ := 0 |}).
Proof.
  unfold RawMemory_Init. rw bind_run.
  destruct (frame_run (Deallocate (buffer_ m)) h V t) as (o & h' & t' & Hrun);
    first by heap_only.
  pose proof (Deallocate_no_throw (buffer_ m) (St h V t)) as Hn.
  rw Hrun in Hn |- *. destruct o; simpl in *; eexists _, _, _; split; try done.
  all: split; [done|]. all: by intros ? [= <-].
Qed.

Lemma Deallocate_frame h V t p :
  ∃ o h' t', Deallocate p (St h V t) = (o, St h' V t') ∧ o ≠ Thrown.
Proof.
  destruct (frame_run (Deallocate p) h V t) as (o & h' & t' & Hrun); first by heap_only.
  pose proof (Deallocate_no_throw p (St h V t)) as Hn. rw Hrun in Hn.
  by eexists _, _, _.
Qed.

End invariant.

(** Symbolic execution of a triple, one action at a time.  The goal is the
    body of a [vtriple] on a state [St h V t]. *)

(** the action reads the object at [this] *)
Ltac vt_get :=
  flatten; rw bind_run;
  match goal with
  | |- context [get_vec ?this (St ?h ?V ?t)] =>
      let v := fresh "v" in
      let Hv := fresh "Hv" in
      destruct (V !! this) as [v|] eqn:Hv;
      [rw (get_vec_run h V t this v Hv)| by rw (get_vec_none h V t this Hv)]
  end.

(** the action leaves the objects alone *)
Ltac vt_frame_at m h V t :=
  let o := fresh "o" in
  let h' := fresh "h" in
  let t' := fresh "t" in
  let H := fresh "Hrun" in
  destruct (frame_run m h V t ltac:(heap_only)) as (o & h' & t' & H);
  rw H; clear H; destruct o as [?| | |]; [|try done..].

Ltac vt_frame :=
  flatten; rw bind_run;
  match goal with
  | |- context [match ?m (St ?h ?V ?t) with _ => _ end] => vt_frame_at m h V t
  end.

Ltac vt_last :=
  match goal with
  | |- context [match ?m (St ?h ?V ?t) with _ => _ end] => vt_frame_at m h V t
  end.

(** the action is [RawMemory_ctor] *)
Ltac vt_alloc :=
  flatten; rw bind_run;
  match goal with
  | |- context [RawMemory_ctor ?n (St ?h ?V ?t)] =>
      let buf := fresh "buf" in
      let h' := fresh "h" in
      let t' := fresh "t" in
      let H := fresh "Hrun" in
      destruct (RawMemory_ctor_frame h V t n) as (buf & h' & t' & H);
      rw H; clear H
  end.

(** the action is a deallocation *)
Ltac vt_free :=
  flatten; rw bind_run;
  match goal with
  | |- context [Deallocate ?p (St ?h ?V ?t)] =>
      let o := fresh "o" in
      let h' := fresh "h" in
      let t' := fresh "t" in
      let H := fresh "Hrun" in
      let Hn := fresh "Hn" in
      destruct (Deallocate_frame h V t p) as (o & h' & t' & H & Hn);
      rw H; clear H; destruct o as [?| | |]; [|done..]; clear Hn
  end.

(** the action is [RawMemory::Init] *)
Ltac vt_init :=
  flatten; rw bind_run;
  match goal with
  | |- context [RawMemory_Init ?m ?m' (St ?h ?V ?t)] =>
      let o := fresh "o" in
      let h' := fresh "h" in
      let t' := fresh "t" in
      let H := fresh "Hrun" in
      let Hn := fresh "Hn" in
      let Hr := fresh "Hr" in
      destruct (RawMemory_Init_frame h V t m m') as (o & h' & t' & H & Hn & Hr);
      rw H; clear H; destruct o as [?| | |]; [|done..]; clear Hn;
      rw (Hr _ eq_refl); clear Hr
  end.

(** the next actions read and write objects that are there *)
Ltac vt_run :=
  repeat first [ step by (apply get_vec_run; by simplify_map_eq)
               | step by apply put_vec_run
               | step by apply ret_run ].

(** the action updates the object at [this] *)
Ltac vt_set :=
  flatten; rw bind_run;
  first [ erewrite set_size_run by (first [eassumption | by rw lookup_insert_eq])
        | erewrite set_data_run by (first [eassumption | by rw lookup_insert_eq]) ];
  cbn [data_ size_].

Section invariant_methods.
Context `{ET : ElemType}.
Implicit Types (h : gmap addr (list slot)) (V : gmap vid Vector) (t : list event).

Local Abbreviation inv := size_le_capacity.

Lemma vt_Vector_default this :
  vtriple inv (Vector_default this) (λ _, inv) inv.
Proof. intros [h V t] HV. simpl in *. apply inv_insert; [done|simpl; lia]. Qed.

Lemma vt_Vector_sized this size :
  vtriple inv (Vector_sized this size) (λ _, inv) inv.
Proof.
  intros [h V t] HV. simpl in HV. unfold Vector_sized.
  vt_alloc. vt_frame. simpl. by apply inv_insert.
Qed.

Lemma vt_Vector_copy this other :
  vtriple inv (Vector_copy this other) (λ _, inv) inv.
Proof.
  intros [h V t] HV. simpl in HV. unfold Vector_copy.
  vt_get. vt_alloc. vt_frame. simpl. by apply inv_insert.
Qed.

Lemma vt_EmplaceBack this args :
  vtriple inv (EmplaceBack this args) (λ _, inv) inv.
Proof.
  intros [h V t] HV. simpl in HV. unfold EmplaceBack.
  vt_get. pose proof (inv_lookup _ _ _ HV Hv) as Hle.
  case_decide as Hfull.
  - vt_alloc. vt_frame. cbn [RawMemory_Swap buffer_ capacity_].
    vt_set. unfold RawMemory_dtor. vt_free. vt_set.
    erewrite bind_ok; last (apply get_vec_run; by rw lookup_insert_eq).
    vt_last. all: simpl; rw insert_insert_eq; apply inv_insert; [done|simpl].
    all: unfold RawMemory_Capacity in *; case_decide; lia.
  - do 2 vt_frame. vt_set.
    erewrite bind_ok; last (apply get_vec_run; by rw lookup_insert_eq).
    vt_last. all: simpl; apply inv_insert; [done|simpl].
    all: unfold RawMemory_Capacity in *; lia.
Qed.

Lemma vt_bind {A B} P (m : M A) (f : A → M B) Q R E :
  vtriple P m Q E → (∀ a, vtriple (Q a) (f a) R E) → vtriple P (m ≫= f) R E.
Proof.
  intros Hm Hf s HP. rw bind_run. specialize (Hm s HP).
  destruct (m s) as [[a| | |] s']; [|done..]. by apply Hf.
Qed.

Lemma vt_weaken {A} (P P' : gmap vid Vector → Prop) (m : M A) Q Q' E :
  (∀ V, P' V → P V) → (∀ a V, Q a V → Q' a V) →
  vtriple P m Q E → vtriple P' m Q' E.
Proof.
  intros HP HQ Hm s Hs. specialize (Hm s (HP _ Hs)).
  destruct (m s) as [[a| | |] s']; auto.
Qed.

Lemma Vector_Swap_run h V t a b va vb :
  V !! a = Some va → V !! b = Some vb →
  Vector_Swap a b (St h V t) = (Ok (), St h (<[b := va]> (<[a := vb]> V)) t).
Proof.
  intros Ha Hb. unfold Vector_Swap, RawMemory_Swap, set_data, set_size.
  destruct va as [[bufa capa] na], vb as [[bufb capb] nb].
  destruct (decide (a = b)) as [->|Hab].
  - simplify_eq.
    repeat first [ step by (apply get_vec_run; by simplify_map_eq)
                 | step by apply put_vec_run ].
    erewrite put_vec_run. cbn. by rw !insert_insert_eq.
  - repeat first [ step by (apply get_vec_run; by simplify_map_eq)
                 | step by apply put_vec_run ].
    erewrite put_vec_run. cbn. do 2 f_equal.
    rw (insert_insert_ne _ a b) // insert_insert_eq.
    rw (insert_insert_ne _ b a) // (insert_insert_ne _ b a) // insert_insert_eq.
    by rw (insert_insert_ne _ b a) // insert_insert_eq.
Qed.

Lemma vt_Vector_Swap this other :
  vtriple inv (Vector_Swap this other) (λ _, inv) inv.
Proof.
  intros [h V t] HV. simpl in HV.
  destruct (V !! this) as [va|] eqn:Ha; last first.
  { unfold Vector_Swap. by rw bind_run get_vec_none. }
  destruct (V !! other) as [vb|] eqn:Hb; last first.
  { unfold Vector_Swap. rw bind_run (get_vec_run _ _ _ _ _ Ha).
    by rw bind_run get_vec_none. }
  rw (Vector_Swap_run _ _ _ _ _ _ _ Ha Hb) /=.
  apply inv_insert; [apply inv_insert|]; eauto using inv_lookup.
Qed.

Lemma vt_Vector_dtor this :
  vtriple inv (Vector_dtor this) (λ _, inv) inv.
Proof.
  intros [h V t] HV. simpl in HV. unfold Vector_dtor, RawMemory_dtor.
  vt_get. vt_frame. vt_free. simpl. by apply inv_delete.
Qed.

Lemma vt_take this rhs :
  this ≠ rhs →
  vtriple inv (take_data this rhs;; take_size this rhs) (λ _, inv) inv.
Proof.
  intros Hne [h V t] HV. simpl in HV. unfold take_data.
  vt_get. vt_get. vt_init.
  pose proof (inv_lookup _ _ _ HV Hv0).
  unfold take_size, set_data, set_size. vt_run.
  erewrite put_vec_run. cbn.
  rw insert_insert_eq (insert_insert_ne _ rhs this) // insert_insert_eq.
  apply inv_insert; [apply inv_insert|]; simpl; [done|lia|lia].
Qed.

Lemma vt_Vector_move_assign this rhs :
  vtriple inv (Vector_move_assign this rhs) (λ _, inv) inv.
Proof.
  unfold Vector_move_assign. case_decide; [by apply vt_take|].
  by intros [h V t] HV.
Qed.

Lemma vt_Vector_move this other :
  vtriple inv (Vector_move this other) (λ _, inv) inv.
Proof.
  unfold Vector_move. destruct (decide (this = other)) as [<-|Hne].
  - intros [h V t] HV. simpl in HV.
    unfold take_data, take_size, set_data, set_size.
    step by apply put_vec_run. vt_run. cbn. vt_run.
    erewrite put_vec_run. cbn. rw !insert_insert_eq.
    apply inv_insert; simpl; [done|lia].
  - eapply vt_bind with (Q := λ _, inv); [|intros _; by apply vt_take].
    intros [h V t] HV. simpl in *. apply inv_insert; [done|simpl; lia].
Qed.

Lemma vt_Vector_copy_assign this rhs :
  vtriple inv (Vector_copy_assign this rhs) (λ _, inv) inv.
Proof.
  unfold Vector_copy_assign. case_decide; [|by intros [h V t] HV].
  intros [h V t] HV. simpl in HV. vt_get. vt_get.
  pose proof (inv_lookup _ _ _ HV Hv) as Hle.
  destruct (Nat.ltb_spec (capacity_ (data_ v)) (size_ v0)).
  - rw bind_run /local_vector /=.
    apply (vt_bind inv _ _ (λ _, inv) (λ _, inv) inv (vt_Vector_copy _ _)); [|done].
    intros _.
    apply (vt_bind inv _ _ (λ _, inv) (λ _, inv) inv (vt_Vector_Swap _ _)).
    intros _. apply vt_Vector_dtor.
  - do 2 vt_frame. unfold set_size. vt_run. erewrite put_vec_run. cbn.
    apply inv_insert; [done|simpl; lia].
Qed.

(** [Reserve] also leaves room for [new_capacity] elements. *)
Lemma vt_Reserve this new_capacity :
  vtriple inv (Reserve this new_capacity)
    (λ _ V, inv V ∧ ∀ v, V !! this = Some v → new_capacity ≤ capacity_ (data_ v)) inv.
Proof.
  intros [h V t] HV. simpl in HV. unfold Reserve.
  vt_get. pose proof (inv_lookup _ _ _ HV Hv) as Hle.
  unfold RawMemory_Capacity.
  destruct (Nat.leb_spec new_capacity (capacity_ (data_ v))).
  - simpl. split; [done|]. intros v' Hv'. by simplify_eq.
  - vt_alloc. vt_frame. cbn [RawMemory_Swap buffer_ capacity_].
    vt_set. unfold RawMemory_dtor.
    match goal with
    | |- context [Deallocate ?p (St ?h ?V ?t)] =>
        destruct (Deallocate_frame h V t p) as (o & h' & t' & -> & Hn)
    end.
    destruct o; [|done..]. simpl. split.
    + apply inv_insert; [done|simpl; lia].
    + intros v' Hv'. by simplify_map_eq.
Qed.

Lemma vt_Resize this new_size :
  vtriple inv (Resize this new_size) (λ _, inv) inv.
Proof.
  intros [h V t] HV. simpl in HV. unfold Resize.
  vt_get. pose proof (inv_lookup _ _ _ HV Hv) as Hle.
  destruct (Nat.ltb_spec new_size (size_ v)).
  - vt_frame. rw (set_size_run _ _ _ _ _ _ Hv) /=.
    apply inv_insert; [done|simpl; lia].
  - destruct (Nat.ltb_spec (size_ v) new_size).
    + flatten. rw bind_run.
      pose proof (vt_Reserve this new_size (St h V t) HV) as HR.
      destruct (Reserve this new_size (St h V t)) as [[[]| | |] [h1 V1 t1]];
        [|done..].
      simpl in HR. destruct HR as [HV1 Hcap].
      vt_get. vt_frame. rw (set_size_run _ _ _ _ _ _ Hv0) /=.
      apply inv_insert; [done|simpl; eauto].
    + rw bind_run /= (set_size_run _ _ _ _ _ _ Hv) /=.
      apply inv_insert; [done|simpl; lia].
Qed.

Lemma vt_PopBack this :
  vtriple inv (PopBack this) (λ _, inv) inv.
Proof.
  intros [h V t] HV. simpl in HV. unfold PopBack.
  vt_get. pose proof (inv_lookup _ _ _ HV Hv) as Hle.
  rw bind_run /assert. destruct (Nat.ltb_spec 0 (size_ v)); [|done].
  do 2 vt_frame. rw (set_size_run _ _ _ _ _ _ Hv) /=.
  apply inv_insert; [done|simpl]. rw size_sub_le; lia.
Qed.

Lemma vt_Erase this pos :
  vtriple inv (Erase this pos) (λ _, inv) inv.
Proof.
  intros [h V t] HV. simpl in HV. unfold Erase.
  vt_get. pose proof (inv_lookup _ _ _ HV Hv) as Hle.
  rw bind_run /assert. destruct (Nat.ltb_spec 0 (size_ v)); [|done].
  vt_frame. unfold Vector_end. vt_run. do 4 vt_frame. vt_set.
  unfold Vector_begin. vt_run. simpl.
  apply inv_insert; [done|simpl]. rw size_sub_le; lia.
Qed.

Lemma vt_EmplaceWithReallocate this pos args :
  vtriple inv (EmplaceWithReallocate this pos args) (λ _, inv) inv.
Proof.
  intros [h V t] HV. simpl in HV. unfold EmplaceWithReallocate.
  vt_get. pose proof (inv_lookup _ _ _ HV Hv) as Hle.
  vt_frame. vt_alloc. vt_frame. cbn [RawMemory_Swap buffer_ capacity_].
  vt_set. vt_set. unfold Vector_begin. vt_run. unfold RawMemory_dtor. vt_free.
  simpl. rw insert_insert_eq. apply inv_insert; [done|simpl]. case_decide; lia.
Qed.

(** [EmplaceWithoutReallocate] is for a vector that has a free slot. *)
Lemma vt_EmplaceWithoutReallocate this pos args :
  vtriple (λ V, inv V ∧ ∀ v, V !! this = Some v → size_ v ≠ capacity_ (data_ v))
    (EmplaceWithoutReallocate this pos args) (λ _, inv) inv.
Proof.
  intros [h V t] [HV Hroom]. simpl in HV, Hroom. unfold EmplaceWithoutReallocate.
  vt_get. pose proof (inv_lookup _ _ _ HV Hv) as Hle. specialize (Hroom _ eq_refl).
  do 3 vt_frame. vt_set. unfold Vector_begin. vt_run.
  all: simpl; apply inv_insert; [done|simpl; lia].
Qed.

Lemma vt_Emplace this pos args :
  vtriple inv (Emplace this pos args) (λ _, inv) inv.
Proof.
  intros [h V t] HV. simpl in HV. unfold Emplace, Vector_end.
  vt_get. vt_frame. case_decide.
  - by apply vt_EmplaceBack.
  - rw (bind_ok _ _ _ _ _ (get_vec_run _ _ _ _ _ Hv)).
    unfold RawMemory_Capacity. case_decide.
    + by apply vt_EmplaceWithReallocate.
    + apply vt_EmplaceWithoutReallocate. split; [done|]. intros v' ?. by simplify_eq/=.
Qed.

(** Every public operation keeps the invariant, whether it returns or
    throws. *)
Lemma vt_exec op : vtriple inv (exec op) (λ _, inv) inv.
Proof.
  destruct op; simpl.
  - apply vt_Vector_default.
  - apply vt_Vector_sized.
  - apply vt_Vector_copy.
  - apply vt_Vector_move.
  - apply vt_Vector_copy_assign.
  - apply vt_Vector_move_assign.
  - apply vt_Vector_Swap.
  - eapply vt_weaken; [| |apply vt_Reserve]; [done|]. by intros _ V [].
  - apply vt_Resize.
  - eapply vt_bind; [apply vt_EmplaceBack|]. by intros _ s.
  - apply vt_PopBack.
  - eapply vt_bind; [apply vt_Emplace|]. by intros _ s.
  - eapply vt_bind; [apply vt_Erase|]. by intros _ s.
Qed.

End invariant_methods.

(** ** Appending *)

Section append.
Context `{ET : ElemType}.
Implicit Types (h : gmap addr (list slot)) (V : gmap vid Vector) (t : list event).
Implicit Types (vs ws : list T) (pre post : list slot).

Lemma quiet_Forall vs :
  forallb quiet vs = true → Forall (λ v, quiet v = true) vs.
Proof. intros H. apply Forall_forall. intros v Hv. apply (proj1 (forallb_forall _ _) H). by apply list_elem_of_In. Qed.

Lemma grown_max n : grown n = max 1 (n * 2).
Proof. unfold grown. case_decide; lia. Qed.

(** What [EmplaceBack] does to the capacity of the object, whether it
    returns or throws. *)
Lemma EmplaceBack_capacity_mono this args v s :
  vecs s !! this = Some v →
  match EmplaceBack this args s with
  | (Ok _, s') | (Thrown, s') =>
      ∃ v', vecs s' !! this = Some v' ∧ capacity_ (data_ v) ≤ capacity_ (data_ v')
  | _ => True
  end.
Proof.
  destruct s as [h V t]. intros Hv0. simpl in Hv0. unfold EmplaceBack.
  vt_get. simplify_eq. case_decide as Hfull.
  - vt_alloc. vt_frame; last by eauto. cbn [RawMemory_Swap buffer_ capacity_].
    vt_set. unfold RawMemory_dtor. vt_free. vt_set.
    erewrite bind_ok; last (apply get_vec_run; by rw lookup_insert_eq).
    vt_last. all: simpl; eexists; rw lookup_insert_eq; split; [done|simpl].
    all: unfold RawMemory_Capacity in *; case_decide; lia.
  - vt_frame; last by eauto. vt_frame; last by eauto. vt_set.
    erewrite bind_ok; last (apply get_vec_run; by rw lookup_insert_eq).
    vt_last. all: simpl; eexists; rw lookup_insert_eq; split; [done|simpl; lia].
Qed.

(** An append whose constructor and transfers do not throw. *)
Lemma EmplaceBack_returns s this buf cap vs args x :
  holds s this buf cap vs →
  ctor args = Ok x → Forall (λ v, quiet v = true) vs →
  ∃ s' buf' cap',
    EmplaceBack this args s = (Ok (ptr_add buf' (length vs)), s') ∧
    holds s' this buf' cap' (vs ++ [x]) ∧
    (length vs = cap →
       cap' = max 1 (length vs * 2) ∧ ∃ b, buf' = Ptr b 0 ∧ heap s !! b = None) ∧
    (length vs < cap →
       cap' = cap ∧ buf' = buf ∧
       trace s' = trace s ++ [EvConstruct (ctor_how args) x]).
Proof.
  destruct s as [h V t]. intros (Hv & Hle & Hbuf) Hx Hq. simpl in Hv.
  destruct buf as [|a off].
  - subst cap. destruct vs; [|simpl in Hle; lia].
    eexists _, (Ptr (fresh (dom h)) 0), 1.
    split; [by apply EmplaceBack_null_run|]. split; [|split].
    + split; [by rw /= lookup_insert_eq|]. split; [simpl; lia|].
      split; [done|]. by rw /= lookup_insert_eq.
    + intros _. split; [done|]. eexists. split; [done|]. apply fresh_block.
    + simpl. lia.
  - destruct Hbuf as [-> Ha]. simpl in Ha.
    destruct (decide (length vs = cap)) as [<-|Hne].
    + rw Nat.sub_diag app_nil_r in Ha.
      eexists _, (Ptr (fresh (dom h)) 0), (grown (length vs)).
      split; [by apply EmplaceBack_full_run|]. split; [|split].
      * split; [by rw /= lookup_insert_eq length_app|].
        pose proof (grown_gt (length vs)).
        split; [rw length_app /=; lia|]. split; [done|].
        by rw /= lookup_insert_eq length_app.
      * intros _. rw grown_max. split; [done|].
        eexists. split; [done|]. apply fresh_block.
      * lia.
    + eexists _, (Ptr a 0), cap.
      split; [apply EmplaceBack_room_run; [done|lia|done..]|]. split; [|split].
      * split; [by rw /= lookup_insert_eq length_app|].
        split; [rw length_app /=; lia|]. split; [done|].
        by rw /= lookup_insert_eq length_app.
      * done.
      * done.
Qed.

(** ** C5 *)

(** C5.  Appending to a full vector ([size == capacity]) moves it to a new
    block of [max(1, size * 2)] slots, so the capacity becomes 1 from 0 and at
    least doubles otherwise; appending to a vector with a free slot constructs
    the element in the next free slot of the same block and leaves the
    capacity as it is; and no append, returning or throwing, reduces the
    capacity.  Where the append is said to return, the element constructor
    and the transfers are taken not to throw. *)
Theorem EmplaceBack_capacity s this buf cap vs args :
  holds s this buf cap vs →
  (match EmplaceBack this args s with
   | (Ok _, s') | (Thrown, s') =>
       ∃ v', vecs s' !! this = Some v' ∧ cap ≤ capacity_ (data_ v')
   | _ => True
   end) ∧
  ∀ x, ctor args = Ok x → forallb quiet vs = true →
    ∃ s' buf' cap',
      EmplaceBack this args s = (Ok (ptr_add buf' (length vs)), s') ∧
      holds s' this buf' cap' (vs ++ [x]) ∧
      (length vs = cap →
         cap' = max 1 (length vs * 2) ∧ cap * 2 ≤ cap' ∧ (cap = 0 → cap' = 1) ∧
         ∃ b, buf' = Ptr b 0 ∧ heap s !! b = None) ∧
      (length vs < cap →
         cap' = cap ∧ buf' = buf ∧
         trace s' = trace s ++ [EvConstruct (ctor_how args) x]).
Proof.
  intros Hh. split.
  { destruct Hh as (Hv & _). by apply (EmplaceBack_capacity_mono this args _ s Hv). }
  intros x Hx Hq%quiet_Forall.
  destruct (EmplaceBack_returns _ _ _ _ _ _ _ Hh Hx Hq)
    as (s' & buf' & cap' & Hrun & Hh' & Hfull & Hroom).
  exists s', buf', cap'. split; [done|]. split; [done|]. split; [|done].
  intros Hn. destruct (Hfull Hn) as (-> & Hb). repeat split; [lia|lia|done].
Qed.

End append.

(** ** Removing *)

Section remove.
Context `{ET : ElemType}.
Implicit Types (h : gmap addr (list slot)) (V : gmap vid Vector) (t : list event).
Implicit Types (vs ws : list T) (pre post : list slot).

Lemma assert_run b s : b = true → assert b s = (Ok (), s).
Proof. by intros ->. Qed.

Lemma destroy_at_at h V t a off pre v post :
  off = length pre →
  h !! a = Some (pre ++ Live v :: post) →
  destroy_at (Ptr a off) (St h V t) =
  (Ok (), St (<[a := pre ++ Raw :: post]> h) V (t ++ [EvDestroy v])).
Proof. intros ->. apply destroy_at_run. Qed.

Lemma ptr_diff_same a i j : j ≤ i → ptr_diff (Ptr a i) (Ptr a j) = Some (i - j).
Proof.
  intros H. unfold ptr_diff. rw decide_True //.
  by destruct (Nat.leb_spec j i); [|lia].
Qed.

(** A vector that holds an element has a block. *)
Lemma holds_block s this buf cap vs :
  holds s this buf cap vs → vs ≠ [] →
  ∃ a, buf = Ptr a 0 ∧
       heap s !! a = Some (map Live vs ++ replicate (cap - length vs) Raw).
Proof.
  intros (Hv & Hle & Hbuf) Hne. destruct buf as [|a off].
  - subst. destruct vs; [done|simpl in Hle; lia].
  - destruct Hbuf as [-> Ha]. eauto.
Qed.

Lemma PopBack_run h V t this a cap vs x :
  V !! this = Some {| data_ := {| buffer_ := Ptr a 0; capacity_ := cap |};
                      size_ := length (vs ++ [x]) |} →
  length (vs ++ [x]) ≤ cap →
  h !! a = Some (map Live (vs ++ [x]) ++ replicate (cap - length (vs ++ [x])) Raw) →
  PopBack this (St h V t) =
  (Ok (),
   St (<[a := map Live vs ++ replicate (cap - length vs) Raw]> h)
      (<[this := {| data_ := {| buffer_ := Ptr a 0; capacity_ := cap |};
                    size_ := length vs |}]> V)
      (t ++ [EvDestroy x])).
Proof.
  rw length_app /=. intros Hv Hle Ha. unfold PopBack.
  step by apply get_vec_run. cbn [size_ data_].
  step by (apply assert_run, Nat.ltb_lt; lia).
  rw size_sub_le; first lia.
  step by (apply RawMemory_plus_run; simpl; lia).
  step.
  { apply destroy_at_at with (pre := map Live vs); [rw /= length_map; lia|].
    by rw Ha map_app -app_assoc. }
  rw (set_size_run _ _ _ _ _ _ Hv) /= Nat.add_sub.
  do 3 f_equal. rw (replicate_split Raw 0 (cap - length vs)); first lia.
  by rw /= Nat.sub_0_r Nat.sub_add_distr.
Qed.

Lemma move_n_at h V t a p q n pre x vs post :
  p = Ptr a (length pre + 1) → q = Ptr a (length pre) → n = length vs →
  Forall (λ v, move_assign_throws v = false) vs →
  h !! a = Some (pre ++ Live x :: map Live vs ++ post) →
  move_n p n q (St h V t) =
  (Ok (), St (<[a := pre ++ map Live vs ++ Live (shift_residue x vs) :: post]> h) V
             (t ++ map (EvAssign Move) vs)).
Proof. intros -> -> ->. apply move_n_run. Qed.

Lemma Erase_run h V t this a cap front x back :
  V !! this = Some {| data_ := {| buffer_ := Ptr a 0; capacity_ := cap |};
                      size_ := length (front ++ x :: back) |} →
  length (front ++ x :: back) ≤ cap →
  h !! a = Some (map Live (front ++ x :: back) ++
                 replicate (cap - length (front ++ x :: back)) Raw) →
  Forall (λ v, move_assign_throws v = false) back →
  Erase this (Ptr a (length front)) (St h V t) =
  (Ok (Ptr a (length front)),
   St (<[a := map Live (front ++ back) ++ replicate (cap - length (front ++ back)) Raw]> h)
      (<[this := {| data_ := {| buffer_ := Ptr a 0; capacity_ := cap |};
                    size_ := length (front ++ back) |}]> V)
      (t ++ map (EvAssign Move) back ++ [EvDestroy (shift_residue x back)])).
Proof.
  rw !length_app /=. intros Hv Hle Ha Hq. unfold Erase.
  step by apply get_vec_run. cbn [size_ data_ GetAddress buffer_].
  step by (apply assert_run, Nat.ltb_lt; lia).
  rw ptr_diff_same; first lia. rw Nat.sub_0_r.
  step by reflexivity.
  unfold Vector_end. step by apply get_vec_run. cbn [size_ data_].
  step by (apply RawMemory_plus_run; simpl; lia).
  cbn [ptr_add buffer_]. unfold std_move.
  rw ptr_diff_same; first lia.
  step by reflexivity.
  step.
  { apply move_n_at with (pre := map Live front) (x := x) (vs := back);
      [by rw length_map|by rw length_map Nat.add_0_l|lia|done|].
    by rw Ha map_app -app_assoc. }
  rw size_sub_le; first lia.
  step by (apply RawMemory_index_run; simpl; lia).
  step.
  { apply destroy_at_at with (pre := map Live front ++ map Live back);
      [rw /= length_app !length_map; lia|].
    by rw lookup_insert_eq -app_assoc. }
  step by (by apply set_size_run).
  unfold Vector_begin. step by (apply get_vec_run; by rw lookup_insert_eq).
  step by apply ret_run. rw ret_run /=. f_equal. f_equal.
  - rw insert_insert_eq map_app -!app_assoc.
    do 3 f_equal. rw (replicate_split Raw 0 (cap - (length front + length back))); first lia.
    rw /= Nat.sub_0_r. do 2 f_equal. lia.
  - do 3 f_equal. lia.
  - by rw -!app_assoc.
Qed.

Lemma quiet_move_assign_Forall vs :
  forallb quiet vs = true → Forall (λ v, move_assign_throws v = false) vs.
Proof.
  intros H%quiet_Forall. eapply Forall_impl; [done|]. apply quiet_move_assign.
Qed.

(** ** C6 *)

(** C6.  [Erase] at [begin() + i], [i < size], of a vector whose move
    assignments do not throw: the vector then holds the same values without
    the one at [i] (the values before [i] stay, each later one is one slot to
    the left), its size is one less, the iterator returned is [begin() + i]
    (which is [end()] when the last element was erased), and the block and
    its capacity are the same: nothing is deallocated. *)
Theorem Erase_shifts_left s this buf cap vs i :
  holds s this buf cap vs → i < length vs →
  forallb quiet (drop (S i) vs) = true →
  ∃ s',
    Erase this (ptr_add buf i) s = (Ok (ptr_add buf i), s') ∧
    holds s' this buf cap (delete i vs) ∧
    length (delete i vs) = length vs - 1 ∧
    (∀ j, j < i → delete i vs !! j = vs !! j) ∧
    (∀ j, i ≤ j → delete i vs !! j = vs !! S j) ∧
    (S i = length vs → Vector_end this s' = (Ok (ptr_add buf i), s')) ∧
    dom (heap s') = dom (heap s) ∧
    Forall (λ e, ∀ b, e ≠ EvDelete b) (drop (length (trace s)) (trace s')).
Proof.
  destruct s as [h V t]. intros Hh Hi Hq%quiet_move_assign_Forall.
  destruct (holds_block _ _ _ _ _ Hh) as (a & -> & Ha).
  { intros ->. simpl in Hi. lia. }
  destruct Hh as (Hv & Hle & _). simpl in Hv, Ha.
  destruct (lookup_lt_is_Some_2 vs i Hi) as [x Hx].
  pose proof (take_drop_middle vs i x Hx) as Hvs.
  have Hlen : length (take i vs) = i by (rw length_take; lia).
  rw -Hvs in Hv Ha Hle.
  eexists. split; [|split; [|split; [|split; [|split; [|split; [|split]]]]]].
  - rw /= -{1 2}Hlen. by apply Erase_run.
  - rw delete_take_drop. split; [by rw /= lookup_insert_eq|].
    split; [|split; [done|by rw /= lookup_insert_eq]].
    rw !length_app /= in Hle. rw length_app. lia.
  - rw length_delete //.
  - intros j Hj. by apply list_lookup_delete_lt.
  - intros j Hj. by apply list_lookup_delete_ge.
  - intros Hlast. unfold Vector_end.
    step by (apply get_vec_run; by rw /= lookup_insert_eq).
    rw RawMemory_plus_run /=.
    + rw !length_app /= in Hle. rw length_app. lia.
    + do 3 f_equal. rw length_app length_drop. lia.
  - by rw /= dom_insert_lookup_L.
  - rw /= drop_app_length. apply Forall_app. split; [|by repeat constructor].
    apply Forall_forall. intros e (v & -> & _)%list_elem_of_fmap. done.
Qed.

(** ** C9 *)

(** C9.  [PopBack] on an empty vector and [operator[]] with an index that is
    not below the size end in the failed assertion of the debug build, with
    nothing changed; under the precondition the assertion passes:
    [operator[]] returns the address of the slot, and [PopBack] destroys the
    last element and only it, makes the size one less, and keeps the block
    and its capacity (nothing is deallocated). *)
Theorem preconditions_asserted s this buf cap vs :
  holds s this buf cap vs →
  (vs = [] → PopBack this s = (AssertFail, s)) ∧
  (∀ index, length vs ≤ index → Vector_index this index s = (AssertFail, s)) ∧
  (∀ index, index < length vs →
     Vector_index this index s = (Ok (ptr_add buf index), s)) ∧
  (∀ front x, vs = front ++ [x] →
     ∃ s', PopBack this s = (Ok (), s') ∧
           holds s' this buf cap front ∧
           trace s' = trace s ++ [EvDestroy x] ∧
           dom (heap s') = dom (heap s)).
Proof.
  destruct s as [h V t]. intros Hh. pose proof Hh as (Hv & Hle & Hbuf). simpl in Hv.
  split; [|split; [|split]].
  - intros ->. unfold PopBack. by step by apply get_vec_run.
  - intros index Hi. unfold Vector_index. step by apply get_vec_run.
    rw bind_run /assert /=. by destruct (Nat.ltb_spec index (length vs)); [lia|].
  - intros index Hi. unfold Vector_index. step by apply get_vec_run.
    step by (apply assert_run, Nat.ltb_lt; simpl; lia).
    rw RawMemory_index_run //=. lia.
  - intros front x ->.
    destruct (holds_block _ _ _ _ _ Hh) as (a & -> & Ha); first by destruct front.
    simpl in Ha. eexists. split; [by apply PopBack_run|].
    rw length_app /= in Hle. split; [|split; [done|]].
    + split; [by rw /= lookup_insert_eq|]. split; [lia|].
      split; [done|by rw /= lookup_insert_eq].
    + by rw /= dom_insert_lookup_L.
Qed.

End remove.

(** ** Inserting *)

Section insert.
Context `{ET : ElemType}.
Implicit Types (h : gmap addr (list slot)) (V : gmap vid Vector) (t : list event).
Implicit Types (vs ws : list T) (pre post : list slot).

Lemma replicate_split3 {A} (x : A) i k m :
  i + k < m →
  replicate m x = replicate i x ++ x :: replicate k x ++ replicate (m - i - k - 1) x.
Proof.
  intros H. replace m with (i + S (k + (m - i - k - 1))) at 1 by lia.
  by rw replicate_add /= replicate_add.
Qed.

Lemma EmplaceWithReallocate_run h V t this a front back args x :
  V !! this = Some {| data_ := {| buffer_ := Ptr a 0; capacity_ := length (front ++ back) |};
                      size_ := length (front ++ back) |} →
  h !! a = Some (map Live (front ++ back)) →
  ctor args = Ok x →
  Forall (λ v, quiet v = true) (front ++ back) →
  let b := fresh (dom h) in
  let n := length (front ++ back) in
  EmplaceWithReallocate this (Ptr a (length front)) args (St h V t) =
  (Ok (Ptr b (length front)),
   St (<[b := map Live (front ++ x :: back) ++ replicate (grown n - (n + 1)) Raw]>
         (delete a h))
      (<[this := {| data_ := {| buffer_ := Ptr b 0; capacity_ := grown n |};
                    size_ := n + 1 |}]> V)
      (t ++ EvNew b (grown n) :: EvConstruct (ctor_how args) x ::
         transfer_trace front ++ transfer_trace back ++ [EvDelete a])).
Proof.
  intros Hv Ha Hx [Hqf Hqb]%Forall_app b n. unfold EmplaceWithReallocate.
  have Hb : h !! b = None by apply fresh_block.
  have Hab : a ≠ b by congruence.
  have Hn := grown_gt n.
  have Hlen : n = length front + length back by rw /n length_app.
  step by apply get_vec_run.
  cbn [size_ data_ RawMemory_Capacity capacity_ GetAddress buffer_].
  rw ptr_diff_same; first lia. rw Nat.sub_0_r.
  step by reflexivity. rw -/n -/(grown n).
  step by (apply RawMemory_ctor_run; lia).
  step.
  { apply on_throw_ok.
    step by (apply RawMemory_plus_run; simpl; lia).
    step.
    { apply construct_at_at with (pre := replicate (length front) Raw) (y := Raw);
        [by rw /= length_replicate| |done].
      by rw lookup_insert_eq (replicate_split3 Raw (length front) (length back)); [lia|]. }
    step.
    { apply on_throw_ok.
      apply SafeMove_at with (pa := []) (qa := map Live back) (pb := [])
        (ys := replicate (length front) Raw); try done.
      - by rw length_replicate.
      - by rw lookup_insert_ne // lookup_insert_ne // Ha map_app.
      - by rw lookup_insert_eq. }
    step by (apply RawMemory_plus_run; simpl; lia).
    step by (apply RawMemory_plus_run; simpl; lia).
    apply on_throw_ok.
    rw size_sub_le; first lia.
    apply SafeMove_at with (pa := replicate (length front) Raw) (qa := [])
      (pb := map Live front ++ [Live x]) (ys := replicate (length back) Raw); try done.
    - by rw /= length_replicate.
    - rw /= length_app length_map /=. lia.
    - lia.
    - by rw length_replicate.
    - by rw lookup_insert_eq /= app_nil_r.
    - by rw lookup_insert_ne // lookup_insert_eq /= -app_assoc. }
  cbn [RawMemory_Swap buffer_ capacity_].
  step by apply set_data_run.
  step by (apply set_size_run; by rw lookup_insert_eq).
  unfold Vector_begin.
  step by (apply get_vec_run; by rw lookup_insert_eq).
  step by apply ret_run.
  step.
  { eapply Deallocate_run. by rw lookup_insert_eq. }
  rw ret_run /=. f_equal. f_equal.
  - heap_norm.
    rw -!app_assoc /= map_app /= -!app_assoc /=.
    do 5 f_equal. lia.
  - by rw !insert_insert_eq.
  - by rw -?app_assoc /= -?app_assoc.
Qed.

Lemma construct_local_run h V t args x :
  ctor args = Ok x →
  construct_local args (St h V t) =
  (Ok x, St h V (t ++ [EvConstruct (ctor_how args) x])).
Proof. intros Hx. by rw /construct_local bind_run /lift Hx. Qed.

Lemma destroy_local_run h V t x :
  destroy_local x (St h V t) = (Ok (), St h V (t ++ [EvDestroy x])).
Proof. done. Qed.

Lemma move_assign_local_at h V t a off pre y post x :
  off = length pre → move_assign_throws x = false →
  h !! a = Some (pre ++ Live y :: post) →
  move_assign_local (Ptr a off) x (St h V t) =
  (Ok (moved_from x), St (<[a := pre ++ Live x :: post]> h) V (t ++ [EvAssign Move x])).
Proof.
  intros -> Hx Ha. unfold move_assign_local.
  rw (bind_ok _ _ _ _ _ (load_mid _ _ _ _ _ _ _ Ha)) Hx.
  by rw (bind_ok _ _ _ _ _ (store_mid _ _ _ _ _ _ _ (Live x) Ha)).
Qed.

Lemma move_construct_at_next_at h V t a p q pre v y post :
  p = Ptr a (length pre + 1) → q = Ptr a (length pre) →
  move_ctor_throws v = false →
  h !! a = Some (pre ++ Live v :: y :: post) →
  move_construct_at p q (St h V t) =
  (Ok (), St (<[a := pre ++ Live (moved_from v) :: Live v :: post]> h) V
             (t ++ [EvConstruct Move v])).
Proof. intros -> ->. apply move_construct_at_next. Qed.

Lemma move_backward_n_at h V t a last n d_last pre vs y post :
  last = Ptr a (length pre + length vs) → n = length vs →
  d_last = Ptr a (length pre + length vs + 1) →
  Forall (λ v, move_assign_throws v = false) vs →
  h !! a = Some (pre ++ map Live vs ++ Live y :: post) →
  move_backward_n last n d_last (St h V t) =
  (Ok (), St (<[a := pre ++ Live (gap_residue y vs) :: map Live vs ++ post]> h) V
             (t ++ map (EvAssign Move) (rev vs))).
Proof. intros -> -> ->. apply move_backward_n_run. Qed.

Lemma EmplaceWithoutReallocate_run h V t this a cap front mid l args x :
  let n := length (front ++ mid ++ [l]) in
  V !! this = Some {| data_ := {| buffer_ := Ptr a 0; capacity_ := cap |}; size_ := n |} →
  n < cap →
  h !! a = Some (map Live (front ++ mid ++ [l]) ++ replicate (cap - n) Raw) →
  ctor args = Ok x →
  Forall (λ v, quiet v = true) (x :: l :: mid) →
  EmplaceWithoutReallocate this (Ptr a (length front)) args (St h V t) =
  (Ok (Ptr a (length front)),
   St (<[a := map Live (front ++ x :: mid ++ [l]) ++ replicate (cap - (n + 1)) Raw]> h)
      (<[this := {| data_ := {| buffer_ := Ptr a 0; capacity_ := cap |};
                    size_ := n + 1 |}]> V)
      (t ++ EvConstruct (ctor_how args) x :: EvConstruct Move l ::
         map (EvAssign Move) (rev mid) ++ [EvAssign Move x; EvDestroy (moved_from x)])).
Proof.
  intros n Hv Hlt Ha Hx Hq. unfold EmplaceWithoutReallocate.
  apply Forall_cons in Hq as [Hqx Hq]. apply Forall_cons in Hq as [Hql Hqm].
  have Hlen : n = length front + length mid + 1 by (rw /n !length_app /=; lia).
  step by apply get_vec_run.
  cbn [size_ data_ RawMemory_Capacity capacity_ GetAddress buffer_].
  rw ptr_diff_same; first lia. rw Nat.sub_0_r.
  step by reflexivity.
  step by (by apply construct_local_run).
  step.
  { apply on_throw_ok.
    unfold Vector_end. step by apply get_vec_run. cbn [size_ data_].
    step by (apply RawMemory_plus_run; simpl; lia).
    rw size_sub_le; first lia.
    step by (apply RawMemory_index_run; simpl; lia).
    cbn [ptr_add buffer_].
    step.
    { apply move_construct_at_next_at with (pre := map Live (front ++ mid)) (v := l)
        (y := Raw) (post := replicate (cap - n - 1) Raw).
      - rw length_map length_app. f_equal. lia.
      - rw length_map length_app. f_equal. lia.
      - by apply quiet_move.
      - rw Ha !map_app -!app_assoc /=.
        by rw (replicate_split Raw 0 (cap - n)) ?Nat.sub_0_r; [lia|]. }
    unfold std_move_backward.
    rw !Nat.add_0_l.
    have -> : Ptr a n = Ptr a (length front + length mid + 1) by (f_equal; lia).
    rw ptr_sub_1 ptr_diff_same; first lia.
    step by reflexivity.
    step.
    { apply move_backward_n_at with (pre := map Live front) (vs := mid)
        (y := moved_from l) (post := Live l :: replicate (cap - n - 1) Raw).
      - by rw length_map.
      - lia.
      - by rw length_map.
      - eapply Forall_impl; [done|]. apply quiet_move_assign.
      - by rw lookup_insert_eq map_app -app_assoc. }
    step by (apply RawMemory_index_run; simpl; lia).
    apply move_assign_local_at with (pre := map Live front)
      (y := gap_residue (moved_from l) mid).
    - by rw /= length_map.
    - by apply quiet_move_assign.
    - by rw lookup_insert_eq. }
  step by (by apply set_size_run).
  unfold Vector_begin.
  step by (apply get_vec_run; by rw lookup_insert_eq).
  step by apply ret_run.
  step by apply destroy_local_run.
  rw ret_run /=. f_equal. f_equal.
  - heap_norm. rw !map_app /= !map_app -!app_assoc /= Nat.sub_add_distr.
    by rw -?app_assoc /= -?app_assoc.
  - by rw -?app_assoc /= -?app_assoc.
Qed.

Lemma Vector_end_run h V t this buf cap n :
  V !! this = Some {| data_ := {| buffer_ := buf; capacity_ := cap |}; size_ := n |} →
  n ≤ cap →
  Vector_end this (St h V t) = (Ok (ptr_add buf n), St h V t).
Proof.
  intros Hv Hle. unfold Vector_end. step by apply get_vec_run.
  by rw RawMemory_plus_run.
Qed.

Lemma Vector_begin_run h V t this v :
  V !! this = Some v → Vector_begin this (St h V t) = (Ok (buffer_ (data_ v)), St h V t).
Proof. intros Hv. unfold Vector_begin. by step by apply get_vec_run. Qed.

Lemma holds_begin s this buf cap vs :
  holds s this buf cap vs → Vector_begin this s = (Ok buf, s).
Proof. destruct s. intros (Hv & _). by rw (Vector_begin_run _ _ _ _ _ Hv). Qed.

Lemma snoc_of_nonempty {A} (l : list A) :
  l ≠ [] → ∃ l' x, l = l' ++ [x].
Proof. destruct l as [|y l] using rev_ind; [done|eauto]. Qed.

(** ** C2 *)

(** C2.  [Emplace] at [begin() + i], [i <= size], with a constructor and
    element operations that do not throw: the vector then holds the old values
    with the new one inserted at [i] (size one more, the values before [i] in
    place, the new value at [i], every value from [i] on one slot to the
    right), and the iterator returned is [begin() + i] of the vector as it is
    afterwards.  At [end()] the call is the call of [EmplaceBack]. *)
Theorem Emplace_inserts s this buf cap vs i args x :
  holds s this buf cap vs → i ≤ length vs →
  ctor args = Ok x → forallb quiet (x :: vs) = true →
  ∃ s' buf' cap',
    let vs' := take i vs ++ x :: drop i vs in
    Emplace this (ptr_add buf i) args s = (Ok (ptr_add buf' i), s') ∧
    holds s' this buf' cap' vs' ∧
    Vector_begin this s' = (Ok buf', s') ∧
    length vs' = length vs + 1 ∧
    (∀ j, j < i → vs' !! j = vs !! j) ∧
    vs' !! i = Some x ∧
    (∀ j, i ≤ j → vs' !! S j = vs !! j) ∧
    (i = length vs →
       Vector_end this s = (Ok (ptr_add buf i), s) ∧
       Emplace this (ptr_add buf i) args s = EmplaceBack this args s).
Proof.
  intros Hh Hi Hx Hq%quiet_Forall.
  have Hlen : length (take i vs) = i by (rw length_take; lia).
  cut (∃ s' buf' cap',
    Emplace this (ptr_add buf i) args s = (Ok (ptr_add buf' i), s') ∧
    holds s' this buf' cap' (take i vs ++ x :: drop i vs) ∧
    (i = length vs →
       Vector_end this s = (Ok (ptr_add buf i), s) ∧
       Emplace this (ptr_add buf i) args s = EmplaceBack this args s)).
  { intros (s' & buf' & cap' & Hrun & Hh' & Hend). exists s', buf', cap'.
    split; [done|]. split; [done|]. split; [by eapply holds_begin|].
    split; [rw length_app /= length_drop; lia|].
    split; [|split; [|split; [|done]]].
    - intros j Hj. rw lookup_app_l; first lia. by rw lookup_take_lt.
    - by rw list_lookup_middle.
    - intros j Hj. rw lookup_app_r; first lia.
      rw Hlen. replace (S j - i) with (S (j - i)) by lia.
      rw /= lookup_drop. by have -> : i + (j - i) = j by lia. }
  apply Forall_cons in Hq as [Hqx Hq].
  pose proof Hh as (Hv & Hle & Hbuf). destruct s as [h V t]. simpl in Hv.
  pose proof (Vector_end_run h V t _ _ _ _ Hv Hle) as Hend.
  destruct (decide (i = length vs)) as [->|Hne].
  - have Heq : Emplace this (ptr_add buf (length vs)) args (St h V t) =
               EmplaceBack this args (St h V t).
    { unfold Emplace. rw (bind_ok _ _ _ _ _ Hend). by rw decide_True. }
    destruct (EmplaceBack_returns _ _ _ _ _ _ _ Hh Hx Hq)
      as (s' & buf' & cap' & Hrun & Hh' & _).
    exists s', buf', cap'. rw Heq take_ge // drop_ge //.
  - destruct (holds_block _ _ _ _ _ Hh) as (a & -> & Ha).
    { intros ->. simpl in Hi, Hne. lia. }
    simpl in Ha. pose proof (take_drop i vs) as Hvs.
    have Hpos : Ptr a (0 + i) ≠ Ptr a (0 + length vs) by (intros [= ?]; lia).
    destruct (decide (length vs = cap)) as [Hfull|Hroom].
    + subst cap. rw Nat.sub_diag app_nil_r in Ha.
      pose proof (EmplaceWithReallocate_run h V t this a (take i vs) (drop i vs) args x)
        as Hrun.
      rw Hvs Hlen in Hrun. specialize (Hrun Hv Ha Hx Hq). simpl in Hrun.
      eexists _, (Ptr (fresh (dom h)) 0), _. split; [|split; [|lia]].
      * unfold Emplace. rw (bind_ok _ _ _ _ _ Hend) decide_False //.
        step by apply get_vec_run. by rw decide_True.
      * have Hlen' : length (take i vs ++ x :: drop i vs) = length vs + 1
          by (rw length_app /= length_drop; lia).
        pose proof (grown_gt (length vs)).
        split; [by rw /= lookup_insert_eq Hlen'|].
        split; [lia|]. split; [done|]. by rw /= lookup_insert_eq Hlen'.
    + destruct (snoc_of_nonempty (drop i vs)) as (mid & l & Hmid).
      { intros Hnil. apply (f_equal length) in Hnil. rw length_drop /= in Hnil. lia. }
      rw Hmid in Hvs.
      pose proof (EmplaceWithoutReallocate_run h V t this a cap (take i vs) mid l args x)
        as Hrun.
      rw Hvs Hlen in Hrun. simpl in Hrun.
      eexists _, (Ptr a 0), _. split; [|split; [|lia]].
      * unfold Emplace. rw (bind_ok _ _ _ _ _ Hend) decide_False //.
        step by apply get_vec_run. rw decide_False //.
        apply Hrun; [done|lia|done|done|].
        apply Forall_cons. split; [done|].
        rw -Hvs !Forall_app in Hq. destruct Hq as (_ & Hqm & Hql).
        apply Forall_cons. split; [by inversion Hql|done].
      * rw Hmid.
        have Hlen' : length (take i vs ++ x :: mid ++ [l]) = length vs + 1
          by (rw -{2}Hvs !length_app /= !length_app /=; lia).
        split; [by rw /= lookup_insert_eq Hlen'|].
        split; [lia|]. split; [done|]. by rw /= lookup_insert_eq Hlen'.
Qed.

End insert.

(** ** Transferring *)

Section transfer.
Context `{ET : ElemType}.
Implicit Types (h : gmap addr (list slot)) (V : gmap vid Vector) (t : list event).
Implicit Types (vs ws : list T) (pre post : list slot).

Lemma forallb_negb_Forall (f : T → bool) vs :
  forallb (λ v, negb (f v)) vs = true → Forall (λ v, f v = false) vs.
Proof.
  intros H. apply Forall_forall. intros v Hv%list_elem_of_In.
  by apply negb_true_iff, (proj1 (forallb_forall _ _) H).
Qed.

Lemma forallb_negb_Exists (f : T → bool) vs :
  forallb (λ v, negb (f v)) vs = false → Exists (λ v, f v = true) vs.
Proof.
  induction vs as [|v vs IH]; simpl; [done|].
  destruct (f v) eqn:Hv; simpl; [by left|]. intros H. right. by apply IH.
Qed.

(** ** C4 *)

(** C4.  [SafeMove] of the [length vs] live elements at [from] into raw
    storage at [to], in another block.  When the move constructor of [T] is
    [noexcept] or [T] has no copy constructor, the elements are
    move-constructed into the destination and the moved-from sources are
    destroyed (and a [noexcept] move constructor never throws).  Otherwise
    they are copy-constructed, and the sources are destroyed after the last
    copy; when a copy throws the transfer throws with the heap as it was
    before: every source is live with its value and the destination is raw. *)
Theorem SafeMove_policy h V t a b pa vs qa pb qb :
  a ≠ b →
  h !! a = Some (pa ++ map Live vs ++ qa) →
  h !! b = Some (pb ++ replicate (length vs) Raw ++ qb) →
  let run := SafeMove (Ptr a (length pa)) (length vs) (Ptr b (length pb)) (St h V t) in
  let transferred :=
    St (<[a := pa ++ replicate (length vs) Raw ++ qa]>
          (<[b := pb ++ map Live vs ++ qb]> h)) V in
  (is_nothrow_move_constructible || negb is_copy_constructible = true →
     (is_nothrow_move_constructible = true →
        forallb (λ v, negb (move_ctor_throws v)) vs = true) ∧
     (forallb (λ v, negb (move_ctor_throws v)) vs = true →
        run = (Ok (), transferred
                 (t ++ map (EvConstruct Move) vs ++ map EvDestroy (map moved_from vs))))) ∧
  (is_nothrow_move_constructible || negb is_copy_constructible = false →
     (forallb (λ v, negb (copy_throws v)) vs = true →
        run = (Ok (), transferred
                 (t ++ map (EvConstruct Copy) vs ++ map EvDestroy vs))) ∧
     (forallb (λ v, negb (copy_throws v)) vs = false →
        ∃ evs, run = (Thrown, St h V (t ++ evs)))).
Proof.
  intros Hab Ha Hb run transferred. split; intros Hk; split.
  - intros Hn. apply forallb_forall. intros v _. by rw /move_ctor_throws Hn.
  - intros Hq%forallb_negb_Forall.
    apply SafeMove_move_run with (ys := replicate (length vs) Raw);
      [done..|by rw length_replicate|done|done].
  - intros Hq%forallb_negb_Forall.
    apply SafeMove_copy_run with (ys := replicate (length vs) Raw);
      [done..|by rw length_replicate|done|done].
  - intros Hex%forallb_negb_Exists. by apply (SafeMove_copy_thrown _ _ _ _ _ _ _ qa _ qb).
Qed.

End transfer.

(** ** Copy assignment *)

Section assign.
Context `{ET : ElemType}.
Implicit Types (h : gmap addr (list slot)) (V : gmap vid Vector) (t : list event).
Implicit Types (vs ws : list T) (pre post : list slot).

Lemma uninitialized_copy_n_at h V t a b i j n pa vs qa pb ys qb :
  i = length pa → j = length pb → n = length vs →
  is_copy_constructible = true → a ≠ b →
  Forall (λ v, copy_throws v = false) vs →
  length ys = length vs →
  h !! a = Some (pa ++ map Live vs ++ qa) →
  h !! b = Some (pb ++ ys ++ qb) →
  uninitialized_copy_n (Ptr a i) n (Ptr b j) (St h V t) =
  (Ok (), St (<[b := pb ++ map Live vs ++ qb]> h) V (t ++ map (EvConstruct Copy) vs)).
Proof. intros -> -> ->. apply uninitialized_copy_n_run. Qed.

Lemma copy_n_at h V t a b i j n pa vs qa pb ws qb :
  i = length pa → j = length pb → n = length vs →
  a ≠ b →
  Forall (λ v, copy_assign_throws v = false) vs →
  length ws = length vs →
  h !! a = Some (pa ++ map Live vs ++ qa) →
  h !! b = Some (pb ++ map Live ws ++ qb) →
  copy_n (Ptr a i) n (Ptr b j) (St h V t) =
  (Ok (Ptr b (j + n)),
   St (<[b := pb ++ map Live vs ++ qb]> h) V (t ++ map (EvAssign Copy) vs)).
Proof. intros -> -> ->. apply copy_n_run. Qed.

Lemma destroy_n_at h V t a i n pre vs post :
  i = length pre → n = length vs →
  h !! a = Some (pre ++ map Live vs ++ post) →
  destroy_n (Ptr a i) n (St h V t) =
  (Ok (), St (<[a := pre ++ replicate (length vs) Raw ++ post]> h) V
             (t ++ map EvDestroy vs)).
Proof. intros -> ->. apply destroy_n_run. Qed.

Lemma Vector_copy_run h V t this other r capr ws :
  is_copy_constructible = true →
  V !! other = Some {| data_ := {| buffer_ := Ptr r 0; capacity_ := capr |};
                       size_ := length ws |} →
  ws ≠ [] →
  h !! r = Some (map Live ws ++ replicate (capr - length ws) Raw) →
  Forall (λ v, copy_throws v = false) ws →
  let b := fresh (dom h) in
  Vector_copy this other (St h V t) =
  (Ok (),
   St (<[b := map Live ws]> h)
      (<[this := {| data_ := {| buffer_ := Ptr b 0; capacity_ := length ws |};
                    size_ := length ws |}]> V)
      (t ++ EvNew b (length ws) :: map (EvConstruct Copy) ws)).
Proof.
  intros Hc Hv Hne Hr Hq b. unfold Vector_copy.
  have Hb : h !! b = None by apply fresh_block.
  have Hrb : r ≠ b by congruence.
  step by apply get_vec_run. cbn [size_ data_ GetAddress buffer_].
  step by (apply RawMemory_ctor_run; by destruct ws).
  step.
  { apply on_throw_ok.
    apply uninitialized_copy_n_at with (pa := []) (qa := replicate (capr - length ws) Raw)
      (pb := []) (ys := replicate (length ws) Raw) (qb := []); try done.
    - by rw length_replicate.
    - by rw lookup_insert_ne.
    - by rw lookup_insert_eq /= app_nil_r. }
  rw put_vec_run /=. by rw insert_insert_eq app_nil_r -app_assoc.
Qed.

(** A copy that throws leaves no trace of the new vector but events. *)
Lemma Vector_copy_thrown h V t this other r capr ws :
  is_copy_constructible = true →
  V !! other = Some {| data_ := {| buffer_ := Ptr r 0; capacity_ := capr |};
                       size_ := length ws |} →
  h !! r = Some (map Live ws ++ replicate (capr - length ws) Raw) →
  Exists (λ v, copy_throws v = true) ws →
  ∃ evs, Vector_copy this other (St h V t) = (Thrown, St h V (t ++ evs)).
Proof.
  intros Hc Hv Hr Hex. unfold Vector_copy.
  set (b := fresh (dom h)).
  have Hb : h !! b = None by apply fresh_block.
  have Hrb : r ≠ b by congruence.
  have Hne : length ws ≠ 0 by (destruct ws; [by apply Exists_nil in Hex|done]).
  destruct (uninitialized_copy_n_thrown (<[b := replicate (length ws) Raw]> h) V
              (t ++ [EvNew b (length ws)]) r b [] ws
              (replicate (capr - length ws) Raw) [] []) as [evs Hrun]; [done..| | |].
  { by rw lookup_insert_ne. }
  { by rw lookup_insert_eq /= app_nil_r. }
  eexists.
  step by apply get_vec_run. cbn [size_ data_ GetAddress buffer_].
  step by (by apply RawMemory_ctor_run).
  rw bind_run. erewrite on_throw_thrown; [|exact Hrun|].
  2:{ eapply Deallocate_run. by rw lookup_insert_eq. }
  rw delete_insert_id // -!app_assoc. reflexivity.
Qed.

Lemma Vector_dtor_run h V t this a cap vs :
  V !! this = Some {| data_ := {| buffer_ := Ptr a 0; capacity_ := cap |};
                      size_ := length vs |} →
  h !! a = Some (map Live vs ++ replicate (cap - length vs) Raw) →
  Vector_dtor this (St h V t) =
  (Ok (), St (delete a h) (delete this V) (t ++ map EvDestroy vs ++ [EvDelete a])).
Proof.
  intros Hv Ha. unfold Vector_dtor.
  step by apply get_vec_run. cbn [size_ data_ GetAddress buffer_].
  step by (by apply destroy_n_at with (pre := [])).
  step.
  { eapply Deallocate_run. by rw lookup_insert_eq. }
  by rw /end_of_life /= delete_insert_eq -app_assoc.
Qed.

Lemma Vector_dtor_null_run h V t this cap :
  V !! this = Some {| data_ := {| buffer_ := nullptr; capacity_ := cap |}; size_ := 0 |} →
  Vector_dtor this (St h V t) = (Ok (), St h (delete this V) t).
Proof. intros Hv. unfold Vector_dtor. by step by apply get_vec_run. Qed.

Lemma local_vector_run h V t :
  local_vector (St h V t) = (Ok (fresh (dom V)), St h V t).
Proof. done. Qed.

Lemma fresh_vector V : V !! fresh (dom V) = None.
Proof. apply not_elem_of_dom, is_fresh. Qed.

Lemma ltb_true a b : a < b → (a <? b) = true.
Proof. by intros ?%Nat.ltb_lt. Qed.

Lemma ltb_false a b : b ≤ a → (a <? b) = false.
Proof. by intros ?%Nat.ltb_ge. Qed.

(** The source does not fit: a full copy is built and swapped in. *)
Lemma copy_assign_realloc_run h V t this rhs a cap vs r capr ws :
  is_copy_constructible = true → this ≠ rhs → a ≠ r →
  V !! this = Some {| data_ := {| buffer_ := Ptr a 0; capacity_ := cap |};
                      size_ := length vs |} →
  h !! a = Some (map Live vs ++ replicate (cap - length vs) Raw) →
  V !! rhs = Some {| data_ := {| buffer_ := Ptr r 0; capacity_ := capr |};
                     size_ := length ws |} →
  h !! r = Some (map Live ws ++ replicate (capr - length ws) Raw) →
  cap < length ws →
  Forall (λ v, copy_throws v = false) ws →
  let b := fresh (dom h) in
  Vector_copy_assign this rhs (St h V t) =
  (Ok (),
   St (<[b := map Live ws]> (delete a h))
      (<[this := {| data_ := {| buffer_ := Ptr b 0; capacity_ := length ws |};
                    size_ := length ws |}]> V)
      (t ++ EvNew b (length ws) :: map (EvConstruct Copy) ws ++ map EvDestroy vs
         ++ [EvDelete a])).
Proof.
  intros Hc Hne Har Hv Ha Hw Hr Hlt Hq b. unfold Vector_copy_assign.
  have Hb : h !! b = None by apply fresh_block.
  have Hab : a ≠ b by congruence.
  pose proof (fresh_vector V) as Hrc. set (rc := fresh (dom V)) in *.
  have Hrc1 : rc ≠ this by congruence.
  have Hrc2 : rc ≠ rhs by congruence.
  rw decide_True //.
  step by apply get_vec_run. step by apply get_vec_run.
  cbn [size_ data_ capacity_ GetAddress buffer_]. rw ltb_true //.
  step by apply local_vector_run.
  step.
  { apply Vector_copy_run with (r := r) (capr := capr) (ws := ws);
      [done|done|by destruct ws; [simpl in Hlt; lia|]|done|done]. }
  step.
  { apply Vector_Swap_run; [by rw lookup_insert_ne|by rw lookup_insert_eq]. }
  rw (Vector_dtor_run _ _ _ _ a cap vs).
  - by rw lookup_insert_eq.
  - by rw lookup_insert_ne.
  - f_equal. f_equal.
    + by rw delete_insert_ne.
    + rw delete_insert_eq delete_insert_ne // delete_insert_id //.
    + by rw -!app_assoc.
Qed.

Lemma copy_assign_realloc_null_run h V t this rhs r capr ws :
  is_copy_constructible = true → this ≠ rhs →
  V !! this = Some {| data_ := {| buffer_ := nullptr; capacity_ := 0 |}; size_ := 0 |} →
  V !! rhs = Some {| data_ := {| buffer_ := Ptr r 0; capacity_ := capr |};
                     size_ := length ws |} →
  h !! r = Some (map Live ws ++ replicate (capr - length ws) Raw) →
  0 < length ws →
  Forall (λ v, copy_throws v = false) ws →
  let b := fresh (dom h) in
  Vector_copy_assign this rhs (St h V t) =
  (Ok (),
   St (<[b := map Live ws]> h)
      (<[this := {| data_ := {| buffer_ := Ptr b 0; capacity_ := length ws |};
                    size_ := length ws |}]> V)
      (t ++ EvNew b (length ws) :: map (EvConstruct Copy) ws)).
Proof.
  intros Hc Hne Hv Hw Hr Hlt Hq b. unfold Vector_copy_assign.
  pose proof (fresh_vector V) as Hrc. set (rc := fresh (dom V)) in *.
  have Hrc1 : rc ≠ this by congruence.
  have Hrc2 : rc ≠ rhs by congruence.
  rw decide_True //.
  step by apply get_vec_run. step by apply get_vec_run.
  cbn [size_ data_ capacity_ GetAddress buffer_]. rw ltb_true //.
  step by apply local_vector_run.
  step.
  { apply Vector_copy_run with (r := r) (capr := capr) (ws := ws);
      [done|done|by destruct ws; [simpl in Hlt; lia|]|done|done]. }
  step.
  { apply Vector_Swap_run; [by rw lookup_insert_ne|by rw lookup_insert_eq]. }
  rw (Vector_dtor_null_run _ _ _ _ 0); first by rw lookup_insert_eq.
  by rw delete_insert_eq delete_insert_ne // delete_insert_id.
Qed.

(** ... and when that copy throws nothing has changed but the trace. *)
Lemma copy_assign_realloc_thrown h V t this rhs v r capr ws :
  is_copy_constructible = true → this ≠ rhs →
  V !! this = Some v →
  V !! rhs = Some {| data_ := {| buffer_ := Ptr r 0; capacity_ := capr |};
                     size_ := length ws |} →
  h !! r = Some (map Live ws ++ replicate (capr - length ws) Raw) →
  capacity_ (data_ v) < length ws →
  Exists (λ v, copy_throws v = true) ws →
  ∃ evs, Vector_copy_assign this rhs (St h V t) = (Thrown, St h V (t ++ evs)).
Proof.
  intros Hc Hne Hv Hw Hr Hlt Hex. unfold Vector_copy_assign.
  destruct (Vector_copy_thrown h V t (fresh (dom V)) rhs r capr ws) as [evs Hrun];
    [done..|].
  exists evs. rw decide_True //.
  step by apply get_vec_run. step by apply get_vec_run.
  cbn [size_ data_ capacity_ GetAddress buffer_]. rw ltb_true //.
  step by apply local_vector_run.
  by rw bind_run Hrun.
Qed.

(** The source fits and is shorter: assign over its length, destroy the
    tail. *)
Lemma copy_assign_shrink_run h V t this rhs a cap vs1 vs2 r capr ws :
  this ≠ rhs → a ≠ r →
  V !! this = Some {| data_ := {| buffer_ := Ptr a 0; capacity_ := cap |};
                      size_ := length (vs1 ++ vs2) |} →
  h !! a = Some (map Live (vs1 ++ vs2) ++ replicate (cap - length (vs1 ++ vs2)) Raw) →
  V !! rhs = Some {| data_ := {| buffer_ := Ptr r 0; capacity_ := capr |};
                     size_ := length ws |} →
  h !! r = Some (map Live ws ++ replicate (capr - length ws) Raw) →
  length vs1 = length ws → 0 < length vs2 → length (vs1 ++ vs2) ≤ cap →
  Forall (λ v, copy_assign_throws v = false) ws →
  Vector_copy_assign this rhs (St h V t) =
  (Ok (),
   St (<[a := map Live ws ++ replicate (cap - length ws) Raw]> h)
      (<[this := {| data_ := {| buffer_ := Ptr a 0; capacity_ := cap |};
                    size_ := length ws |}]> V)
      (t ++ map (EvAssign Copy) ws ++ map EvDestroy vs2)).
Proof.
  rw length_app. intros Hne Har Hv Ha Hw Hr Hlen Hvs2 Hle Hq.
  unfold Vector_copy_assign. rw decide_True //.
  step by apply get_vec_run. step by apply get_vec_run.
  cbn [size_ data_ capacity_ GetAddress buffer_].
  rw ltb_false; first lia. rw ltb_true; first lia.
  step.
  { apply copy_n_at with (pa := []) (qa := replicate (capr - length ws) Raw) (pb := [])
      (vs := ws) (ws := vs1)
      (qb := map Live vs2 ++ replicate (cap - (length vs1 + length vs2)) Raw);
      try done.
    by rw Ha map_app -app_assoc. }
  step.
  { apply destroy_n_at with (pre := map Live ws) (vs := vs2);
      [by rw length_map|lia|by rw lookup_insert_eq]. }
  rw (set_size_run _ _ _ _ _ _ Hv) /=. f_equal. f_equal.
  - rw insert_insert_eq -replicate_add. do 3 f_equal. lia.
  - by rw -app_assoc.
Qed.

(** The source fits and is not shorter: assign over the elements there are,
    construct the others in the raw slots after them. *)
Lemma copy_assign_grow_run h V t this rhs a cap vs r capr ws1 ws2 :
  is_copy_constructible = true → this ≠ rhs → a ≠ r →
  V !! this = Some {| data_ := {| buffer_ := Ptr a 0; capacity_ := cap |};
                      size_ := length vs |} →
  h !! a = Some (map Live vs ++ replicate (cap - length vs) Raw) →
  V !! rhs = Some {| data_ := {| buffer_ := Ptr r 0; capacity_ := capr |};
                     size_ := length (ws1 ++ ws2) |} →
  h !! r = Some (map Live (ws1 ++ ws2) ++ replicate (capr - length (ws1 ++ ws2)) Raw) →
  length ws1 = length vs → length (ws1 ++ ws2) ≤ cap →
  Forall (λ v, copy_assign_throws v = false) ws1 →
  Forall (λ v, copy_throws v = false) ws2 →
  Vector_copy_assign this rhs (St h V t) =
  (Ok (),
   St (<[a := map Live (ws1 ++ ws2) ++ replicate (cap - length (ws1 ++ ws2)) Raw]> h)
      (<[this := {| data_ := {| buffer_ := Ptr a 0; capacity_ := cap |};
                    size_ := length (ws1 ++ ws2) |}]> V)
      (t ++ map (EvAssign Copy) ws1 ++ map (EvConstruct Copy) ws2)).
Proof.
  rw length_app. intros Hc Hne Har Hv Ha Hw Hr Hlen Hle Hq1 Hq2.
  unfold Vector_copy_assign. rw decide_True //.
  step by apply get_vec_run. step by apply get_vec_run.
  cbn [size_ data_ capacity_ GetAddress buffer_ ptr_add].
  rw ltb_false; first lia. rw ltb_false; first lia.
  step.
  { apply copy_n_at with (pa := [])
      (qa := map Live ws2 ++ replicate (capr - (length ws1 + length ws2)) Raw)
      (pb := []) (vs := ws1) (ws := vs) (qb := replicate (cap - length vs) Raw);
      try done.
    by rw Hr map_app -app_assoc. }
  step.
  { apply uninitialized_copy_n_at with (pa := map Live ws1) (vs := ws2)
      (qa := replicate (capr - (length ws1 + length ws2)) Raw)
      (pb := map Live ws1) (ys := replicate (length ws2) Raw)
      (qb := replicate (cap - (length ws1 + length ws2)) Raw); try done.
    - by rw /= length_map.
    - by rw /= length_map.
    - lia.
    - by rw length_replicate.
    - by rw lookup_insert_ne // Hr map_app -app_assoc.
    - rw lookup_insert_eq /= -replicate_add. do 3 f_equal. lia. }
  rw (set_size_run _ _ _ _ _ _ Hv) /=. f_equal. f_equal.
  - by rw insert_insert_eq map_app -app_assoc.
  - by rw -app_assoc.
Qed.

(** The source is empty: the elements are destroyed. *)
Lemma copy_assign_clear_run h V t this rhs buf cap vs bufr capr :
  this ≠ rhs →
  holds (St h V t) this buf cap vs →
  V !! rhs = Some {| data_ := {| buffer_ := bufr; capacity_ := capr |}; size_ := 0 |} →
  ∃ h',
    Vector_copy_assign this rhs (St h V t) =
    (Ok (), St h' (<[this := {| data_ := {| buffer_ := buf; capacity_ := cap |};
                                size_ := 0 |}]> V) (t ++ map EvDestroy vs)) ∧
    (∀ b, buf ≠ Ptr b 0 → h' !! b = h !! b) ∧
    match buf with
    | nullptr => True
    | Ptr a _ => h' !! a = Some (replicate cap Raw)
    end.
Proof.
  intros Hne Hh Hw. pose proof Hh as (Hv & Hle & Hbuf). simpl in Hv.
  unfold Vector_copy_assign. rw decide_True //.
  destruct vs as [|v vs].
  - exists h. split; [|split; [done|]].
    + step by apply get_vec_run. step by apply get_vec_run.
      cbn [size_ data_ capacity_ GetAddress buffer_ length].
      rw ltb_false; first lia. rw ltb_false; first lia.
      step by reflexivity. step by reflexivity.
      by rw (set_size_run _ _ _ _ _ _ Hv) /= app_nil_r.
    + destruct buf; [done|]. destruct Hbuf as [_ Ha]. by rw Ha /= Nat.sub_0_r.
  - destruct (holds_block _ _ _ _ _ Hh) as (a & -> & Ha); [done|]. simpl in Ha.
    eexists. split; [|split].
    + step by apply get_vec_run. step by apply get_vec_run.
      cbn [size_ data_ capacity_ GetAddress buffer_].
      rw ltb_false; first lia. rw ltb_true; first (simpl; lia).
      step by reflexivity. rw Nat.sub_0_r.
      step.
      { apply destroy_n_at with (pre := []) (vs := v :: vs); [done|done|]. exact Ha. }
      by rw (set_size_run _ _ _ _ _ _ Hv).
    + intros b Hb. rw lookup_insert_ne //. congruence.
    + rw lookup_insert_eq -replicate_add. simpl in Hle.
      by have -> : length (v :: vs) + (cap - S (length vs)) = cap by (simpl; lia).
Qed.

Lemma quiet_copy_Forall vs :
  Forall (λ v, quiet v = true) vs → Forall (λ v, copy_throws v = false) vs.
Proof. intros H. eapply Forall_impl; [done|]. apply quiet_copy. Qed.

Lemma quiet_copy_assign_Forall vs :
  Forall (λ v, quiet v = true) vs → Forall (λ v, copy_assign_throws v = false) vs.
Proof. intros H. eapply Forall_impl; [done|]. apply quiet_copy_assign. Qed.

(** ** C3 *)

(** C3.  Copy assignment [a = b] between two distinct vectors of a
    copy-constructible [T] whose storage is separate.  When the copies and
    assignments of [b]'s values do not throw it returns with [a] holding [b]'s
    values (so the same size) and [b] as it was; if [b]'s size exceeds [a]'s
    capacity, [a] then has a new block of exactly [b]'s size, and otherwise
    [a] keeps its block and capacity and the element events are: a copy
    assignment for each of the first [min(a.size, b.size)] values, then the
    destruction of [a]'s excess tail when [b] is smaller, or else the copy
    construction of [b]'s further values.  When [b] does not fit and a copy
    throws, the assignment throws with the heap and both vectors exactly as
    before. *)
Theorem Vector_copy_assign_spec s this rhs buf cap vs bufr capr ws :
  is_copy_constructible = true →
  this ≠ rhs →
  holds s this buf cap vs → holds s rhs bufr capr ws →
  (∀ a, buf = Ptr a 0 → bufr ≠ Ptr a 0) →
  (forallb quiet ws = true →
     ∃ s' buf' cap',
       Vector_copy_assign this rhs s = (Ok (), s') ∧
       holds s' this buf' cap' ws ∧ holds s' rhs bufr capr ws ∧
       (cap < length ws →
          cap' = length ws ∧ ∃ b, buf' = Ptr b 0 ∧ heap s !! b = None) ∧
       (length ws ≤ cap →
          buf' = buf ∧ cap' = cap ∧
          trace s' = trace s ++ map (EvAssign Copy) (take (length vs) ws) ++
            (if length ws <? length vs
             then map EvDestroy (drop (length ws) vs)
             else map (EvConstruct Copy) (drop (length vs) ws)))) ∧
  (cap < length ws → forallb (λ v, negb (copy_throws v)) ws = false →
     ∃ s', Vector_copy_assign this rhs s = (Thrown, s') ∧
           heap s' = heap s ∧ vecs s' = vecs s).
Proof.
  destruct s as [h V t]. intros Hc Hne Hh Hhr Hsep.
  pose proof Hh as (Hv & Hle & Hbuf). pose proof Hhr as (Hw & Hler & Hbufr).
  simpl in Hv, Hw. split.
  - intros Hq%quiet_Forall.
    pose proof (quiet_copy_Forall _ Hq) as Hqc.
    pose proof (quiet_copy_assign_Forall _ Hq) as Hqa.
    destruct (decide (cap < length ws)) as [Hlt|Hfit].
    + destruct (holds_block _ _ _ _ _ Hhr) as (r & -> & Hr).
      { intros ->. simpl in Hlt. lia. }
      simpl in Hr.
      have Hbr : h !! fresh (dom h) = None by apply fresh_block.
      have Hrb : r ≠ fresh (dom h) by congruence.
      destruct buf as [|a off].
      * subst cap. destruct vs; [|simpl in Hle; lia].
        eexists _, (Ptr (fresh (dom h)) 0), (length ws).
        split; [by apply copy_assign_realloc_null_run with (r := r) (capr := capr)|].
        split; [|split; [|split; [|lia]]].
        -- split; [by rw /= lookup_insert_eq|]. split; [done|]. split; [done|].
           by rw /= lookup_insert_eq Nat.sub_diag app_nil_r.
        -- split; [by rw /= lookup_insert_ne|]. split; [done|]. split; [done|].
           by rw /= lookup_insert_ne.
        -- intros _. split; [done|]. by eexists.
      * destruct Hbuf as [-> Ha]. simpl in Ha.
        have Har : a ≠ r by (intros ->; by apply (Hsep r)).
        eexists _, (Ptr (fresh (dom h)) 0), (length ws).
        split; [by apply copy_assign_realloc_run with (cap := cap) (r := r) (capr := capr)|].
        split; [|split; [|split; [|lia]]].
        -- split; [by rw /= lookup_insert_eq|]. split; [done|]. split; [done|].
           by rw /= lookup_insert_eq Nat.sub_diag app_nil_r.
        -- split; [by rw /= lookup_insert_ne|]. split; [done|]. split; [done|].
           by rw /= lookup_insert_ne // lookup_delete_ne.
        -- intros _. split; [done|]. by eexists.
    + destruct (decide (ws = [])) as [->|Hws].
      * destruct (copy_assign_clear_run h V t this rhs buf cap vs bufr capr Hne Hh Hw)
          as (h' & Hrun & Hframe & Hblock).
        eexists _, buf, cap. split; [exact Hrun|].
        split; [|split; [|split; [simpl; lia|]]].
        -- split; [by rw /= lookup_insert_eq|]. split; [simpl; lia|].
           destruct buf; [done|]. destruct Hbuf as [-> _]. split; [done|].
           by rw /= Hblock Nat.sub_0_r.
        -- split; [by rw /= lookup_insert_ne|]. split; [done|].
           destruct bufr as [|r off]; [done|]. destruct Hbufr as [-> Hr]. split; [done|].
           rw /= Hframe //. intros Heq. by apply (Hsep r).
        -- intros _. split; [done|]. split; [done|].
           rw /= take_nil drop_nil /=. by destruct vs.
      * destruct (holds_block _ _ _ _ _ Hhr) as (r & -> & Hr); [done|]. simpl in Hr.
        have Hlw : 0 < length ws by (destruct ws; [done|simpl; lia]).
        destruct buf as [|a off]; [lia|]. destruct Hbuf as [-> Ha]. simpl in Ha.
        have Har : a ≠ r by (intros ->; by apply (Hsep r)).
        destruct (decide (length ws < length vs)) as [Hshort|Hlong].
        -- pose proof (take_drop (length ws) vs) as Hvs.
           have Hl1 : length (take (length ws) vs) = length ws by (rw length_take; lia).
           have Hl2 : 0 < length (drop (length ws) vs) by (rw length_drop; lia).
           pose proof (copy_assign_shrink_run h V t this rhs a cap
                         (take (length ws) vs) (drop (length ws) vs) r capr ws) as Hrun.
           rw Hvs in Hrun. specialize (Hrun Hne Har Hv Ha Hw Hr Hl1 Hl2 Hle Hqa).
           eexists _, (Ptr a 0), cap. split; [exact Hrun|].
           split; [|split; [|split; [lia|]]].
           ++ split; [by rw /= lookup_insert_eq|]. split; [lia|]. split; [done|].
              by rw /= lookup_insert_eq.
           ++ split; [by rw /= lookup_insert_ne|]. split; [done|]. split; [done|].
              by rw /= lookup_insert_ne.
           ++ intros _. split; [done|]. split; [done|].
              rw /= take_ge; first lia. by rw ltb_true.
        -- pose proof (take_drop (length vs) ws) as Hws'.
           have Hl1 : length (take (length vs) ws) = length vs by (rw length_take; lia).
           pose proof (copy_assign_grow_run h V t this rhs a cap vs r capr
                         (take (length vs) ws) (drop (length vs) ws)) as Hrun.
           rw Hws' in Hrun.
           rw -Hws' in Hqa Hqc. apply Forall_app in Hqa as [Hqa _].
           apply Forall_app in Hqc as [_ Hqc].
           specialize (Hrun Hc Hne Har Hv Ha Hw Hr Hl1 ltac:(lia) Hqa Hqc).
           eexists _, (Ptr a 0), cap. split; [exact Hrun|].
           split; [|split; [|split; [lia|]]].
           ++ split; [by rw /= lookup_insert_eq|]. split; [lia|]. split; [done|].
              by rw /= lookup_insert_eq.
           ++ split; [by rw /= lookup_insert_ne|]. split; [done|]. split; [done|].
              by rw /= lookup_insert_ne.
           ++ intros _. split; [done|]. split; [done|].
              rw /= ltb_false //. lia.
  - intros Hlt Hex%forallb_negb_Exists.
    destruct (holds_block _ _ _ _ _ Hhr) as (r & -> & Hr).
    { intros ->. simpl in Hlt. lia. }
    simpl in Hr.
    destruct (copy_assign_realloc_thrown h V t this rhs _ r capr ws Hc Hne Hv Hw Hr Hlt Hex)
      as [evs Hrun].
    by eexists.
Qed.

End assign.

(** ** Swap, self-assignment, the invariant, and a failing transfer *)

Section whole.
Context `{ET : ElemType}.
Implicit Types (h : gmap addr (list slot)) (V : gmap vid Vector) (t : list event).
Implicit Types (vs ws : list T) (pre post : list slot).

(** ** C8 *)

(** C8.  [a.Swap(b)] returns (it never throws), leaves the heap and the trace
    as they are (no element is constructed or destroyed, nothing is allocated
    or freed), and exchanges the blocks, capacities, sizes and so the element
    sequences of the two vectors. *)
Theorem Vector_Swap_exchanges s this other bufa capa vs bufb capb ws :
  holds s this bufa capa vs → holds s other bufb capb ws →
  ∃ s',
    Vector_Swap this other s = (Ok (), s') ∧
    heap s' = heap s ∧ trace s' = trace s ∧
    holds s' this bufb capb ws ∧ holds s' other bufa capa vs.
Proof.
  destruct s as [h V t]. intros (Hv & Hle & Hbuf) (Hw & Hler & Hbufr).
  simpl in Hv, Hw. eexists. split; [by apply Vector_Swap_run|].
  split; [done|]. split; [done|]. split.
  - split; [|done]. simpl. destruct (decide (this = other)) as [->|Hne].
    + rw lookup_insert_eq. congruence.
    + by rw lookup_insert_ne // lookup_insert_eq.
  - split; [|done]. by rw /= lookup_insert_eq.
Qed.

(** ** C10 *)

(** C10.  Self-assignment, by copy and by move, does nothing: it returns with
    the state as it was. *)
Theorem self_assignment_is_identity this (s : state) :
  Vector_copy_assign this this s = (Ok (), s) ∧
  Vector_move_assign this this s = (Ok (), s).
Proof.
  unfold Vector_copy_assign, Vector_move_assign.
  by destruct (decide (this ≠ this)).
Qed.

(** ** C7 *)

(** C7.  If every vector object has [size <= capacity], then so has every
    vector object after any public operation (construction, assignment,
    [Swap], [Reserve], [Resize], [EmplaceBack]/[PushBack], [PopBack],
    [Emplace]/[Insert], [Erase]), whether the operation returns or throws. *)
Theorem size_le_capacity_invariant op s :
  size_le_capacity (vecs s) →
  match exec op s with
  | (Ok _, s') | (Thrown, s') => size_le_capacity (vecs s')
  | _ => True
  end.
Proof.
  intros Hs. pose proof (vt_exec op s Hs) as H.
  by destruct (exec op s) as [[] s'].
Qed.

End whole.

(** ** C1 *)

(** C1, at the vector [[1, 13]] (size 2 = capacity 2) of a copyable type with
    a throwing move constructor, whose copy constructor throws on 13.
    Inserting 99 at index 1 reallocates: [SafeMove] copies the prefix [[1]]
    into the new block and destroys its source; the copy of 13 then throws.
    The handler destroys what is in the new block and the exception leaves
    [Emplace] with the vector object unchanged (size 2, capacity 2, same
    block) but slot 0 of that block destroyed: the first element is lost.
    Appending 99 to the same vector throws with the block intact, but the
    element constructed in the new block is never destroyed. *)
Theorem Emplace_throw_loses_prefix :
  let s := full_pair (ET := Fragile) 1 13 in
  let args := ArgPack (ET := Fragile) (99 : @Args Fragile) in
  holds s 0 (Ptr 1 0) 2 [1; 13] ∧
  ctor args = Ok (99 : @T Fragile) ∧
  (Emplace 0 (Ptr 1 1) args s).1 = Thrown ∧
  vecs (Emplace 0 (Ptr 1 1) args s).2 = vecs s ∧
  heap (Emplace 0 (Ptr 1 1) args s).2 !! 1 = Some [Raw; Live (ET := Fragile) 13] ∧
  (EmplaceBack 0 args s).1 = Thrown ∧
  heap (EmplaceBack 0 args s).2 = heap s ∧
  trace (EmplaceBack 0 args s).2 =
    [EvNew 2 4; EvConstruct (ET := Fragile) Direct 99;
     EvConstruct (ET := Fragile) Copy 1; EvDestroy (ET := Fragile) 1; EvDelete 2].
Proof.
  split; [split; [reflexivity|split; [simpl; lia|split; reflexivity]]|].
  split; [reflexivity|]. by vm_compute.
Qed.


(** ** The theorems at concrete vectors *)

Lemma two_vectors_first (x y z : @T Plain) :
  holds (two_vectors (ET := Plain) x y z) 0 (Ptr 1 0) 4 [x; y].
Proof. split; [reflexivity|]. split; [simpl; lia|]. split; reflexivity. Defined.

Lemma two_vectors_second (x y z : @T Plain) :
  holds (two_vectors (ET := Plain) x y z) 5 (Ptr 2 0) 1 [z].
Proof. split; [reflexivity|]. split; [simpl; lia|]. split; reflexivity. Defined.

(** Inserting 9 at index 1 of [[1, 2]]. *)
Lemma Emplace_inserts_witness :
  let s := two_vectors (ET := Plain) 1 2 3 in
  holds s 0 (Ptr 1 0) 4 [1; 2] ∧ 1 ≤ 2 ∧
  ctor (ArgPack (ET := Plain) 9) = Ok (9 : @T Plain) ∧
  forallb (quiet (ET := Plain)) [9; 1; 2] = true ∧
  ∃ s' buf' cap',
    Emplace 0 (Ptr 1 1) (ArgPack (ET := Plain) 9) s = (Ok (ptr_add buf' 1), s') ∧
    holds s' 0 buf' cap' [1; 9; 2].
Proof.
  intros s. split; [apply two_vectors_first|]. split; [lia|].
  split; [reflexivity|]. split; [reflexivity|].
  destruct (Emplace_inserts s 0 (Ptr 1 0) 4 [1; 2] 1 (ArgPack (ET := Plain) 9) 9
              (two_vectors_first 1 2 3) ltac:(simpl; lia) eq_refl eq_refl)
    as (s' & buf' & cap' & Hrun & Hh & _).
  by exists s', buf', cap'.
Defined.

(** Assigning [[3]] to [[1, 2]], which has room for it. *)
Lemma Vector_copy_assign_spec_witness :
  let s := two_vectors (ET := Plain) 1 2 3 in
  is_copy_constructible (ElemType := Plain) = true ∧ 0 ≠ 5 ∧
  holds s 0 (Ptr 1 0) 4 [1; 2] ∧ holds s 5 (Ptr 2 0) 1 [3] ∧
  (∀ a, Ptr 1 0 = Ptr a 0 → Ptr 2 0 ≠ Ptr a 0) ∧
  ∃ s' buf' cap',
    Vector_copy_assign 0 5 s = (Ok (), s') ∧
    holds s' 0 buf' cap' [3] ∧ holds s' 5 (Ptr 2 0) 1 [3].
Proof.
  intros s.
  have Hsep : ∀ a, Ptr 1 0 = Ptr a 0 → Ptr 2 0 ≠ Ptr a 0 by (intros a [= <-]).
  split; [reflexivity|]. split; [lia|].
  split; [apply two_vectors_first|]. split; [apply two_vectors_second|].
  split; [exact Hsep|].
  destruct (Vector_copy_assign_spec s 0 5 (Ptr 1 0) 4 [1; 2] (Ptr 2 0) 1 [3] eq_refl
              ltac:(lia) (two_vectors_first 1 2 3) (two_vectors_second 1 2 3) Hsep)
    as [Hok _].
  destruct (Hok eq_refl) as (s' & buf' & cap' & Hrun & Hh & Hh' & _).
  by exists s', buf', cap'.
Defined.

(** Transferring [[1, 13]] by copy: the copy of 13 throws and the heap is as
    before. *)
Lemma SafeMove_policy_witness :
  let h : gmap addr (list (slot (ET := Fragile))) :=
    {[1 := [Live (ET := Fragile) 1; Live (ET := Fragile) 13]; 2 := [Raw; Raw]]} in
  1 ≠ 2 ∧
  h !! 1 = Some ([] ++ map (Live (ET := Fragile)) [1; 13] ++ []) ∧
  h !! 2 = Some ([] ++ replicate 2 Raw ++ []) ∧
  ∃ evs, SafeMove (Ptr 1 0) 2 (Ptr 2 0) (St h ∅ []) = (Thrown, St h ∅ ([] ++ evs)).
Proof.
  intros h. split; [lia|]. split; [reflexivity|]. split; [reflexivity|].
  destruct (SafeMove_policy (ET := Fragile) h ∅ [] 1 2 [] [1; 13] [] [] []
              ltac:(lia) eq_refl eq_refl) as [_ Hcopy].
  destruct (Hcopy eq_refl) as [_ Hthrown].
  exact (Hthrown eq_refl).
Defined.

(** Appending 7 to [[1, 2]], which has room. *)
Lemma EmplaceBack_capacity_witness :
  let s := two_vectors (ET := Plain) 1 2 3 in
  holds s 0 (Ptr 1 0) 4 [1; 2] ∧
  ∃ s' buf' cap',
    EmplaceBack 0 (ArgPack (ET := Plain) 7) s = (Ok (ptr_add buf' 2), s') ∧
    holds s' 0 buf' cap' [1; 2; 7].
Proof.
  intros s. split; [apply two_vectors_first|].
  destruct (EmplaceBack_capacity s 0 (Ptr 1 0) 4 [1; 2] (ArgPack (ET := Plain) 7)
              (two_vectors_first 1 2 3)) as [_ Hret].
  destruct (Hret 7 eq_refl eq_refl) as (s' & buf' & cap' & Hrun & Hh & _).
  by exists s', buf', cap'.
Defined.

(** Erasing the first element of [[1, 2]]. *)
Lemma Erase_shifts_left_witness :
  let s := two_vectors (ET := Plain) 1 2 3 in
  holds s 0 (Ptr 1 0) 4 [1; 2] ∧ 0 < 2 ∧
  forallb (quiet (ET := Plain)) [2] = true ∧
  ∃ s', Erase 0 (Ptr 1 0) s = (Ok (Ptr 1 0), s') ∧ holds s' 0 (Ptr 1 0) 4 [2].
Proof.
  intros s. split; [apply two_vectors_first|]. split; [lia|]. split; [reflexivity|].
  destruct (Erase_shifts_left s 0 (Ptr 1 0) 4 [1; 2] 0 (two_vectors_first 1 2 3)
              ltac:(simpl; lia) eq_refl) as (s' & Hrun & Hh & _).
  by exists s'.
Defined.

(** [PopBack] keeps the invariant of the two vectors. *)
Lemma size_le_capacity_invariant_witness :
  let s := two_vectors (ET := Plain) 1 2 3 in
  size_le_capacity (vecs s) ∧
  match exec (OpPopBack 0) s with
  | (Ok _, s') | (Thrown, s') => size_le_capacity (vecs s')
  | _ => True
  end.
Proof.
  intros s.
  have Hs : size_le_capacity (vecs s).
  { apply map_Forall_insert_2; [simpl; lia|].
    apply map_Forall_insert_2; [simpl; lia|]. apply map_Forall_empty. }
  split; [exact Hs|]. exact (size_le_capacity_invariant (OpPopBack 0) s Hs).
Defined.

(** Swapping [[1, 2]] and [[3]]. *)
Lemma Vector_Swap_exchanges_witness :
  let s := two_vectors (ET := Plain) 1 2 3 in
  holds s 0 (Ptr 1 0) 4 [1; 2] ∧ holds s 5 (Ptr 2 0) 1 [3] ∧
  ∃ s', Vector_Swap 0 5 s = (Ok (), s') ∧
        holds s' 0 (Ptr 2 0) 1 [3] ∧ holds s' 5 (Ptr 1 0) 4 [1; 2].
Proof.
  intros s. split; [apply two_vectors_first|]. split; [apply two_vectors_second|].
  destruct (Vector_Swap_exchanges s 0 5 (Ptr 1 0) 4 [1; 2] (Ptr 2 0) 1 [3]
              (two_vectors_first 1 2 3) (two_vectors_second 1 2 3))
    as (s' & Hrun & _ & _ & Hh & Hh').
  by exists s'.
Defined.

(** [operator[]] on [[1, 2]]: index 1 is answered, index 2 is refused. *)
Lemma preconditions_asserted_witness :
  let s := two_vectors (ET := Plain) 1 2 3 in
  holds s 0 (Ptr 1 0) 4 [1; 2] ∧
  Vector_index 0 1 s = (Ok (Ptr 1 1), s) ∧
  Vector_index 0 2 s = (AssertFail, s).
Proof.
  intros s. split; [apply two_vectors_first|].
  destruct (preconditions_asserted s 0 (Ptr 1 0) 4 [1; 2] (two_vectors_first 1 2 3))
    as (_ & Hout & Hin & _).
  split; [exact (Hin 1 ltac:(simpl; lia))|exact (Hout 2 ltac:(simpl; lia))].
Defined.

(** * The rest of the interface

    ** Constructors, the destructor and the moves *)

Section lifetime.
Context `{ET : ElemType}.
Implicit Types (h : gmap addr (list slot)) (V : gmap vid Vector) (t : list event).
Implicit Types (vs ws : list T) (pre post : list slot).

(** ** Value construction *)


Lemma value_construct_at_thrown p s :
  T_default = None → value_construct_at p s = (Thrown, s).
Proof. intros Hd. unfold value_construct_at. by rw Hd. Qed.



Lemma uninitialized_value_construct_n_thrown p n s :
  T_default = None → n ≠ 0 →
  uninitialized_value_construct_n p n s = (Thrown, s).
Proof.
  intros Hd Hn. destruct n as [|n]; [done|]. simpl.
  by rw bind_run value_construct_at_thrown.
Qed.


(** ** [Vector(size_t)] *)



Lemma Vector_sized_thrown h V t this size :
  T_default = None → size ≠ 0 →
  let b := fresh (dom h) in
  Vector_sized this size (St h V t) =
  (Thrown, St h V (t ++ [EvNew b size; EvDelete b])).
Proof.
  intros Hd Hn b. unfold Vector_sized.
  have Hb : h !! b = None by apply fresh_block.
  step by (by apply RawMemory_ctor_run).
  cbn [GetAddress buffer_].
  rw bind_run. erewrite on_throw_thrown;
    [|by apply uninitialized_value_construct_n_thrown|].
  2:{ eapply Deallocate_run. by rw lookup_insert_eq. }
  by rw delete_insert_id // -app_assoc.
Qed.

(** ** [Vector(Vector&&)] and [operator=(Vector&&)] *)

Lemma take_size_run h V t this rhs v r :
  this ≠ rhs → V !! this = Some v → V !! rhs = Some r →
  take_size this rhs (St h V t) =
  (Ok (), St h (<[this := {| data_ := data_ v; size_ := size_ r |}]>
                  (<[rhs := {| data_ := data_ r; size_ := 0 |}]> V)) t).
Proof.
  intros Hne Hv Hr. unfold take_size.
  step by apply get_vec_run.
  step by (by apply set_size_run).
  by rw (set_size_run _ _ _ _ v) // lookup_insert_ne.
Qed.

Lemma take_data_null_run h V t this rhs n r :
  this ≠ rhs →
  V !! this = Some {| data_ := {| buffer_ := nullptr; capacity_ := 0 |}; size_ := n |} →
  V !! rhs = Some r →
  take_data this rhs (St h V t) =
  (Ok (), St h (<[rhs := {| data_ := {| buffer_ := nullptr; capacity_ := 0 |};
                            size_ := size_ r |}]>
                  (<[this := {| data_ := {| buffer_ := buffer_ (data_ r);
                                            capacity_ := capacity_ (data_ r) |};
                                size_ := n |}]> V)) t).
Proof.
  intros Hne Hv Hr. unfold take_data.
  step by apply get_vec_run. step by apply get_vec_run.
  unfold RawMemory_Init. cbn [data_ buffer_].
  step by apply Deallocate_null.
  step by apply ret_run. cbv iota beta.
  step by (by apply set_data_run).
  by rw (set_data_run _ _ _ _ r) // lookup_insert_ne.
Qed.

Lemma take_data_run h V t this rhs a cap n blk r :
  this ≠ rhs →
  V !! this = Some {| data_ := {| buffer_ := Ptr a 0; capacity_ := cap |}; size_ := n |} →
  h !! a = Some blk →
  V !! rhs = Some r →
  take_data this rhs (St h V t) =
  (Ok (), St (delete a h)
             (<[rhs := {| data_ := {| buffer_ := nullptr; capacity_ := 0 |};
                          size_ := size_ r |}]>
                (<[this := {| data_ := {| buffer_ := buffer_ (data_ r);
                                          capacity_ := capacity_ (data_ r) |};
                              size_ := n |}]> V))
             (t ++ [EvDelete a])).
Proof.
  intros Hne Hv Ha Hr. unfold take_data.
  step by apply get_vec_run. step by apply get_vec_run.
  unfold RawMemory_Init. cbn [data_ buffer_].
  step by (by eapply Deallocate_run).
  step by apply ret_run. cbv iota beta.
  step by (by apply set_data_run).
  by rw (set_data_run _ _ _ _ r) // lookup_insert_ne.
Qed.

Lemma Vector_move_run h V t this other r :
  this ≠ other → V !! other = Some r →
  Vector_move this other (St h V t) =
  (Ok (),
   St h (<[this := {| data_ := {| buffer_ := buffer_ (data_ r);
                                  capacity_ := capacity_ (data_ r) |};
                      size_ := size_ r |}]>
           (<[other := {| data_ := {| buffer_ := nullptr; capacity_ := 0 |};
                          size_ := 0 |}]> V)) t).
Proof.
  intros Hne Hr. unfold Vector_move.
  step by apply put_vec_run.
  step.
  { apply take_data_null_run with (n := 0) (r := r); [done|by rw lookup_insert_eq|].
    by rw lookup_insert_ne. }
  erewrite take_size_run; [|done|by rw lookup_insert_ne // lookup_insert_eq
                           |by rw lookup_insert_eq].
  cbn [data_ size_]. do 2 f_equal.
  rw insert_insert_eq (insert_insert_ne _ this other) // insert_insert_eq.
  by rw insert_insert_eq insert_insert_ne.
Qed.

Lemma Vector_move_assign_null_run h V t this rhs n r :
  this ≠ rhs →
  V !! this = Some {| data_ := {| buffer_ := nullptr; capacity_ := 0 |}; size_ := n |} →
  V !! rhs = Some r →
  Vector_move_assign this rhs (St h V t) =
  (Ok (),
   St h (<[this := {| data_ := {| buffer_ := buffer_ (data_ r);
                                  capacity_ := capacity_ (data_ r) |};
                      size_ := size_ r |}]>
           (<[rhs := {| data_ := {| buffer_ := nullptr; capacity_ := 0 |};
                        size_ := 0 |}]> V)) t).
Proof.
  intros Hne Hv Hr. unfold Vector_move_assign. rw decide_True //.
  step by (by eapply take_data_null_run).
  erewrite take_size_run; [|done|by rw lookup_insert_ne // lookup_insert_eq
                           |by rw lookup_insert_eq].
  cbn [data_ size_]. do 2 f_equal.
  rw insert_insert_eq (insert_insert_ne _ this rhs) // insert_insert_eq.
  by rw insert_insert_ne.
Qed.

Lemma Vector_move_assign_run h V t this rhs a cap n blk r :
  this ≠ rhs →
  V !! this = Some {| data_ := {| buffer_ := Ptr a 0; capacity_ := cap |}; size_ := n |} →
  h !! a = Some blk →
  V !! rhs = Some r →
  Vector_move_assign this rhs (St h V t) =
  (Ok (),
   St (delete a h)
      (<[this := {| data_ := {| buffer_ := buffer_ (data_ r);
                                capacity_ := capacity_ (data_ r) |};
                    size_ := size_ r |}]>
         (<[rhs := {| data_ := {| buffer_ := nullptr; capacity_ := 0 |};
                      size_ := 0 |}]> V))
      (t ++ [EvDelete a])).
Proof.
  intros Hne Hv Ha Hr. unfold Vector_move_assign. rw decide_True //.
  step by (by eapply take_data_run).
  erewrite take_size_run; [|done|by rw lookup_insert_ne // lookup_insert_eq
                           |by rw lookup_insert_eq].
  cbn [data_ size_]. do 2 f_equal.
  rw insert_insert_eq (insert_insert_ne _ this rhs) // insert_insert_eq.
  by rw insert_insert_ne.
Qed.

End lifetime.

(** ** [Reserve] and [Resize] *)

Section capacity.
Context `{ET : ElemType}.
Implicit Types (h : gmap addr (list slot)) (V : gmap vid Vector) (t : list event).
Implicit Types (vs ws : list T) (pre post : list slot).

(** ** [Reserve] *)






(** ** [Resize] *)

Lemma Resize_shrink_run h V t this a cap front back :
  V !! this = Some {| data_ := {| buffer_ := Ptr a 0; capacity_ := cap |};
                      size_ := length (front ++ back) |} →
  h !! a = Some (map Live (front ++ back) ++
                 replicate (cap - length (front ++ back)) Raw) →
  length (front ++ back) ≤ cap → back ≠ [] →
  Resize this (length front) (St h V t) =
  (Ok (),
   St (<[a := map Live front ++ replicate (cap - length front) Raw]> h)
      (<[this := {| data_ := {| buffer_ := Ptr a 0; capacity_ := cap |};
                    size_ := length front |}]> V)
      (t ++ map EvDestroy back)).
Proof.
  rw length_app. intros Hv Ha Hle Hne. unfold Resize.
  have Hb : 0 < length back by (destruct back; [done|simpl; lia]).
  step by apply get_vec_run. cbn [size_ data_ GetAddress buffer_].
  rw ltb_true; first lia.
  step.
  { apply destroy_n_at with (pre := map Live front) (vs := back)
      (post := replicate (cap - (length front + length back)) Raw).
    - by rw /= length_map.
    - lia.
    - by rw Ha map_app -app_assoc. }
  rw (set_size_run _ _ _ _ _ _ Hv) /=. do 3 f_equal.
  rw -replicate_add. do 2 f_equal. lia.
Qed.

Lemma Resize_same_run h V t this v :
  V !! this = Some v → Resize this (size_ v) (St h V t) = (Ok (), St h V t).
Proof.
  intros Hv. unfold Resize. step by apply get_vec_run.
  rw Nat.ltb_irrefl. step by apply ret_run.
  rw (set_size_run _ _ _ _ _ _ Hv) insert_id //. by destruct v.
Qed.



End capacity.

(** ** Insertions that throw *)

Section failure.
Context `{ET : ElemType}.
Implicit Types (h : gmap addr (list slot)) (V : gmap vid Vector) (t : list event).
Implicit Types (vs ws ok rest front back : list T) (pre post : list slot).

(** ** A transfer that fails *)

(** The copies made before the one that throws are destroyed again, the last
    one first. *)
Lemma uninitialized_copy_n_stops h V t a b pa ok v rest qa pb qb :
  is_copy_constructible = true → a ≠ b →
  Forall (λ v, copy_throws v = false) ok → copy_throws v = true →
  h !! a = Some (pa ++ map Live (ok ++ v :: rest) ++ qa) →
  h !! b = Some (pb ++ replicate (length (ok ++ v :: rest)) Raw ++ qb) →
  uninitialized_copy_n (Ptr a (length pa)) (length (ok ++ v :: rest))
                       (Ptr b (length pb)) (St h V t) =
  (Thrown, St h V (t ++ map (EvConstruct Copy) ok ++ map EvDestroy (rev ok))).
Proof.
  intros Hc Hab. revert pa pb h t.
  induction ok as [|w ok IH]; intros pa pb h t Hq Hv Ha Hb.
  - simpl. rw bind_run (copy_construct_at_thrown _ _ _ _ _ _ _ _ Hc Hv Ha).
    by rw app_nil_r.
  - inversion Hq as [|?? Hw Hq']; subst. simpl in Ha, Hb |- *.
    rw (bind_ok _ _ _ _ _ (copy_construct_at_run _ _ _ _ _ _ _ _ _ _ _ Hc Hw Ha Hb)).
    rw (ptr_add_snoc a pa (Live w)) (ptr_add_snoc b pb (Live w)).
    erewrite on_throw_thrown.
    2:{ apply IH; [done|done| |].
        - by rw lookup_insert_ne // snoc_app.
        - by rw lookup_insert_eq snoc_app. }
    2:{ apply destroy_at_run. by rw lookup_insert_eq. }
    rw insert_insert_eq insert_id // map_app /= -!app_assoc. done.
Qed.

Lemma SafeMove_copy_stops h V t a b i j n pa ok v rest qa pb qb :
  i = length pa → j = length pb → n = length (ok ++ v :: rest) →
  is_nothrow_move_constructible || negb is_copy_constructible = false →
  a ≠ b →
  Forall (λ v, copy_throws v = false) ok → copy_throws v = true →
  h !! a = Some (pa ++ map Live (ok ++ v :: rest) ++ qa) →
  h !! b = Some (pb ++ replicate (length (ok ++ v :: rest)) Raw ++ qb) →
  SafeMove (Ptr a i) n (Ptr b j) (St h V t) =
  (Thrown, St h V (t ++ map (EvConstruct Copy) ok ++ map EvDestroy (rev ok))).
Proof.
  intros -> -> -> Hk Hab Hq Hv Ha Hb. unfold SafeMove. rw Hk.
  apply orb_false_iff in Hk as [_ Hc]. apply negb_false_iff in Hc.
  by rw bind_run (uninitialized_copy_n_stops _ _ _ _ _ _ _ _ _ _ _ _ Hc Hab Hq Hv Ha Hb).
Qed.

(** *** in [EmplaceBack] *)


(** *** in [EmplaceWithReallocate] *)


(** The copy that throws is at or after the position: by then the first
    transfer has destroyed the sources before the position. *)
Lemma EmplaceWithReallocate_suffix_thrown h V t this a front ok v rest args x :
  let back := ok ++ v :: rest in
  let n := length (front ++ back) in
  is_nothrow_move_constructible || negb is_copy_constructible = false →
  V !! this = Some {| data_ := {| buffer_ := Ptr a 0; capacity_ := n |}; size_ := n |} →
  h !! a = Some (map Live (front ++ back)) →
  ctor args = Ok x →
  Forall (λ v, copy_throws v = false) (front ++ ok) → copy_throws v = true →
  let b := fresh (dom h) in
  EmplaceWithReallocate this (Ptr a (length front)) args (St h V t) =
  (Thrown,
   St (<[a := replicate (length front) Raw ++ map Live back]> h) V
      (t ++ EvNew b (grown n) :: EvConstruct (ctor_how args) x ::
         (map (EvConstruct Copy) front ++ map EvDestroy front) ++
         (map (EvConstruct Copy) ok ++ map EvDestroy (rev ok)) ++
         map EvDestroy (front ++ [x]) ++ [EvDelete b])).
Proof.
  intros back n Hk Hv Ha Hx [Hqf Hqo]%Forall_app Hthrow b.
  unfold EmplaceWithReallocate.
  have Hb : h !! b = None by apply fresh_block.
  have Hab : a ≠ b by congruence.
  have Hn := grown_gt n.
  have Hlen : n = length front + length back by rw /n length_app.
  have Hback : 0 < length back by (rw /back length_app /=; lia).
  step by apply get_vec_run.
  cbn [size_ data_ RawMemory_Capacity capacity_ GetAddress buffer_].
  rw ptr_diff_same; first lia. rw Nat.sub_0_r.
  step by reflexivity. rw -/(grown n).
  step by (apply RawMemory_ctor_run; lia).
  flatten. rw bind_run. erewrite on_throw_thrown.
  2:{ step by (apply RawMemory_plus_run; simpl; lia).
      step.
      { apply construct_at_at with (pre := replicate (length front) Raw) (y := Raw);
          [by rw /= length_replicate| |done].
        by rw lookup_insert_eq (replicate_split3 Raw (length front) (length back));
          [lia|]. }
      step.
      { apply on_throw_ok.
        apply SafeMove_copy_run with (pa := []) (qa := map Live back) (pb := [])
          (ys := replicate (length front) Raw); try done.
        - by rw length_replicate.
        - by rw lookup_insert_ne // lookup_insert_ne // Ha map_app.
        - by rw lookup_insert_eq. }
      step by (apply RawMemory_plus_run; simpl; lia).
      step by (apply RawMemory_plus_run; simpl; lia).
      rw size_sub_le; first lia.
      erewrite on_throw_thrown; [reflexivity| |].
      - apply SafeMove_copy_stops with (pa := replicate (length front) Raw) (qa := [])
          (pb := map Live front ++ [Live x]) (ok := ok) (v := v) (rest := rest)
          (qb := replicate (grown n - length front - length back - 1) Raw);
          try done.
        + by rw /= length_replicate.
        + rw /= length_app length_map /=. lia.
        + fold back. lia.
        + by rw lookup_insert_eq /= app_nil_r.
        + by rw lookup_insert_ne // lookup_insert_eq /= -app_assoc.
      - cbn [GetAddress buffer_].
        apply destroy_n_at with (pre := []) (vs := front ++ [x])
          (post := replicate (length back) Raw ++
                     replicate (grown n - length front - length back - 1) Raw).
        + done.
        + by rw length_app.
        + by rw lookup_insert_ne // lookup_insert_eq /= map_app -app_assoc. }
  2:{ eapply Deallocate_run. by rw lookup_insert_eq. }
  f_equal. f_equal.
  - heap_norm. by rw delete_id.
  - by rw -?app_assoc /= -?app_assoc.
Qed.

(** ** A constructor of the new element that throws *)

Lemma EmplaceBack_full_ctor_thrown h V t this v args :
  V !! this = Some v → size_ v = capacity_ (data_ v) →
  ctor args = Thrown →
  let b := fresh (dom h) in
  EmplaceBack this args (St h V t) =
  (Thrown, St h V (t ++ [EvNew b (grown (size_ v)); EvDelete b])).
Proof.
  intros Hv Hfull Hx b. unfold EmplaceBack.
  have Hb : h !! b = None by apply fresh_block.
  have Hn := grown_gt (size_ v).
  step by apply get_vec_run. unfold RawMemory_Capacity.
  rw decide_True // -/(grown (size_ v)).
  step by (apply RawMemory_ctor_run; lia).
  flatten. rw bind_run. erewrite on_throw_thrown.
  2:{ step by (apply RawMemory_plus_run; simpl; lia).
      rw bind_run construct_at_thrown //. }
  2:{ eapply Deallocate_run. by rw lookup_insert_eq. }
  by rw delete_insert_id // -app_assoc.
Qed.

Lemma EmplaceBack_room_ctor_thrown h V t this v args :
  V !! this = Some v → size_ v < capacity_ (data_ v) →
  ctor args = Thrown →
  EmplaceBack this args (St h V t) = (Thrown, St h V t).
Proof.
  intros Hv Hroom Hx. unfold EmplaceBack.
  step by apply get_vec_run. unfold RawMemory_Capacity.
  rw decide_False; first lia.
  step by (apply RawMemory_plus_run; simpl; lia).
  flatten. by rw bind_run construct_at_thrown.
Qed.

Lemma EmplaceWithReallocate_ctor_thrown h V t this a cap n i args :
  V !! this = Some {| data_ := {| buffer_ := Ptr a 0; capacity_ := cap |}; size_ := n |} →
  i ≤ n → ctor args = Thrown →
  let b := fresh (dom h) in
  EmplaceWithReallocate this (Ptr a i) args (St h V t) =
  (Thrown, St h V (t ++ [EvNew b (grown n); EvDelete b])).
Proof.
  intros Hv Hi Hx b. unfold EmplaceWithReallocate.
  have Hb : h !! b = None by apply fresh_block.
  have Hn := grown_gt n.
  step by apply get_vec_run.
  cbn [size_ data_ RawMemory_Capacity capacity_ GetAddress buffer_].
  rw ptr_diff_same; first lia. rw Nat.sub_0_r.
  step by reflexivity. rw -/(grown n).
  step by (apply RawMemory_ctor_run; lia).
  flatten. rw bind_run. erewrite on_throw_thrown.
  2:{ step by (apply RawMemory_plus_run; simpl; lia).
      rw bind_run construct_at_thrown //. }
  2:{ eapply Deallocate_run. by rw lookup_insert_eq. }
  by rw delete_insert_id // -app_assoc.
Qed.

Lemma EmplaceWithoutReallocate_ctor_thrown h V t this a cap n i args :
  V !! this = Some {| data_ := {| buffer_ := Ptr a 0; capacity_ := cap |}; size_ := n |} →
  ctor args = Thrown →
  EmplaceWithoutReallocate this (Ptr a i) args (St h V t) = (Thrown, St h V t).
Proof.
  intros Hv Hx. unfold EmplaceWithoutReallocate.
  step by apply get_vec_run.
  cbn [size_ data_ RawMemory_Capacity capacity_ GetAddress buffer_].
  rw ptr_diff_same; first lia.
  step by reflexivity.
  by rw !bind_run /construct_local bind_run /lift Hx.
Qed.

End failure.

(** ** What the operations promise *)

Section contract.
Context `{ET : ElemType}.
Implicit Types (h : gmap addr (list slot)) (V : gmap vid Vector) (t : list event).
Implicit Types (vs ws ok rest front back : list T) (pre post : list slot).

(** ** Reading a well-formed vector *)

Lemma holds_load s this buf cap vs i x :
  holds s this buf cap vs → vs !! i = Some x →
  load (ptr_add buf i) s = (Ok x, s).
Proof.
  destruct s as [h V t]. intros Hh Hx.
  destruct (holds_block _ _ _ _ _ Hh) as (a & -> & Ha); first by destruct vs.
  simpl in Ha. eapply load_run; [done|].
  rw /= lookup_app_l; first (rw length_map; by eapply lookup_lt_Some).
  by rw list_lookup_fmap Hx.
Qed.

Lemma ptr_diff_before a i j : i < j → ptr_diff (Ptr a i) (Ptr a j) = None.
Proof.
  intros H. unfold ptr_diff. rw decide_True //.
  by destruct (Nat.leb_spec j i); [lia|].
Qed.

Lemma holds_full_block s this a vs :
  holds s this (Ptr a 0) (length vs) vs → heap s !! a = Some (map Live vs).
Proof. intros (_ & _ & _ & Ha). by rw Nat.sub_diag app_nil_r in Ha. Qed.

(** The copy constructor on an empty source allocates nothing. *)
Lemma Vector_copy_empty_run h V t this other buf cap :
  V !! other = Some {| data_ := {| buffer_ := buf; capacity_ := cap |}; size_ := 0 |} →
  Vector_copy this other (St h V t) =
  (Ok (),
   St h (<[this := {| data_ := {| buffer_ := nullptr; capacity_ := 0 |}; size_ := 0 |}]> V) t).
Proof. intros Hv. unfold Vector_copy. step by apply get_vec_run. done. Qed.

(** An insertion whose constructor and element operations do not throw. *)
Lemma Emplace_returns s this buf cap vs i args x :
  holds s this buf cap vs → i ≤ length vs →
  ctor args = Ok x → Forall (λ v, quiet v = true) (x :: vs) →
  ∃ s' buf' cap',
    Emplace this (ptr_add buf i) args s = (Ok (ptr_add buf' i), s') ∧
    holds s' this buf' cap' (take i vs ++ x :: drop i vs).
Proof.
  intros Hh Hi Hx Hq.
  have Hlen : length (take i vs) = i by (rw length_take; lia).
  apply Forall_cons in Hq as [Hqx Hq].
  pose proof Hh as (Hv & Hle & Hbuf). destruct s as [h V t]. simpl in Hv.
  pose proof (Vector_end_run h V t _ _ _ _ Hv Hle) as Hend.
  destruct (decide (i = length vs)) as [->|Hne].
  - destruct (EmplaceBack_returns _ _ _ _ _ _ _ Hh Hx Hq)
      as (s' & buf' & cap' & Hrun & Hh' & _).
    exists s', buf', cap'. rw take_ge // drop_ge //. split; [|done].
    unfold Emplace. rw (bind_ok _ _ _ _ _ Hend). by rw decide_True.
  - destruct (holds_block _ _ _ _ _ Hh) as (a & -> & Ha).
    { intros ->. simpl in Hi, Hne. lia. }
    simpl in Ha. pose proof (take_drop i vs) as Hvs.
    have Hpos : Ptr a (0 + i) ≠ Ptr a (0 + length vs) by (intros [= ?]; lia).
    destruct (decide (length vs = cap)) as [Hfull|Hroom].
    + subst cap. rw Nat.sub_diag app_nil_r in Ha.
      pose proof (EmplaceWithReallocate_run h V t this a (take i vs) (drop i vs) args x)
        as Hrun.
      rw Hvs Hlen in Hrun. specialize (Hrun Hv Ha Hx Hq). simpl in Hrun.
      eexists _, (Ptr (fresh (dom h)) 0), _. split.
      * unfold Emplace. rw (bind_ok _ _ _ _ _ Hend) decide_False //.
        step by apply get_vec_run. by rw decide_True.
      * have Hlen' : length (take i vs ++ x :: drop i vs) = length vs + 1
          by (rw length_app /= length_drop; lia).
        pose proof (grown_gt (length vs)).
        split; [by rw /= lookup_insert_eq Hlen'|].
        split; [lia|]. split; [done|]. by rw /= lookup_insert_eq Hlen'.
    + destruct (snoc_of_nonempty (drop i vs)) as (mid & l & Hmid).
      { intros Hnil. apply (f_equal length) in Hnil. rw length_drop /= in Hnil. lia. }
      rw Hmid in Hvs.
      pose proof (EmplaceWithoutReallocate_run h V t this a cap (take i vs) mid l args x)
        as Hrun.
      rw Hvs Hlen in Hrun. simpl in Hrun.
      eexists _, (Ptr a 0), _. split.
      * unfold Emplace. rw (bind_ok _ _ _ _ _ Hend) decide_False //.
        step by apply get_vec_run. rw decide_False //.
        apply Hrun; [done|lia|done|done|].
        apply Forall_cons. split; [done|].
        rw -Hvs !Forall_app in Hq. destruct Hq as (_ & Hqm & Hql).
        apply Forall_cons. split; [by inversion Hql|done].
      * rw Hmid.
        have Hlen' : length (take i vs ++ x :: mid ++ [l]) = length vs + 1
          by (rw -{2}Hvs !length_app /= !length_app /=; lia).
        split; [by rw /= lookup_insert_eq Hlen'|].
        split; [lia|]. split; [done|]. by rw /= lookup_insert_eq Hlen'.
Qed.

(** ** Construction and destruction *)


(** X2.  [Vector(size)], [size > 0], with a default constructor that throws: the
    constructor throws, the block it allocated is freed again, and neither
    the heap nor any vector object has changed. *)
Theorem Vector_sized_throw_releases s this size :
  T_default = None → 0 < size →
  ∃ s' b,
    Vector_sized this size s = (Thrown, s') ∧
    heap s' = heap s ∧ vecs s' = vecs s ∧
    trace s' = trace s ++ [EvNew b size; EvDelete b].
Proof.
  destruct s as [h V t]. intros Hd Hn. eexists _, _.
  split; [apply Vector_sized_thrown; [done|lia]|]. done.
Qed.

(** X3.  The copy constructor, when no copy throws: the new vector holds the
    values of the source in a block of its own with exactly as many slots as
    elements (the capacity of the source is not copied), an empty source
    gives a vector without a block, and the source is as it was. *)
Theorem Vector_copy_constructs s this other buf cap ws :
  is_copy_constructible = true → this ≠ other →
  holds s other buf cap ws →
  forallb (λ v, negb (copy_throws v)) ws = true →
  ∃ s' buf',
    Vector_copy this other s = (Ok (), s') ∧
    holds s' this buf' (length ws) ws ∧ holds s' other buf cap ws ∧
    (ws = [] → buf' = nullptr ∧ heap s' = heap s ∧ trace s' = trace s) ∧
    (ws ≠ [] →
       ∃ b, buf' = Ptr b 0 ∧ heap s !! b = None ∧
            trace s' = trace s ++ EvNew b (length ws) :: map (EvConstruct Copy) ws).
Proof.
  destruct s as [h V t]. intros Hc Hne Hh Hq%forallb_negb_Forall.
  pose proof Hh as (Hv & Hle & Hbuf). simpl in Hv.
  destruct (decide (ws = [])) as [->|Hws].
  - eexists _, nullptr. split; [by eapply Vector_copy_empty_run|].
    split; [|split; [|done]].
    + split; [by rw /= lookup_insert_eq|]. done.
    + split; [by rw /= lookup_insert_ne|]. done.
  - destruct (holds_block _ _ _ _ _ Hh Hws) as (r & -> & Hr). simpl in Hr.
    have Hb : h !! fresh (dom h) = None by apply fresh_block.
    eexists _, (Ptr (fresh (dom h)) 0). split; [by eapply Vector_copy_run|].
    split; [|split; [|split; [done|]]].
    + split; [by rw /= lookup_insert_eq|]. split; [done|]. split; [done|].
      by rw /= lookup_insert_eq Nat.sub_diag app_nil_r.
    + split; [by rw /= lookup_insert_ne|]. split; [done|]. split; [done|].
      rw /= lookup_insert_ne //. congruence.
    + intros _. by eexists.
Qed.


(** X5.  The move constructor: the new vector takes over the block, the capacity
    and the elements of the source, which is left empty and without a block.
    Nothing is allocated, constructed or destroyed. *)
Theorem Vector_move_steals s this other buf cap ws :
  this ≠ other → holds s other buf cap ws →
  ∃ s',
    Vector_move this other s = (Ok (), s') ∧
    holds s' this buf cap ws ∧ holds s' other nullptr 0 [] ∧
    heap s' = heap s ∧ trace s' = trace s.
Proof.
  destruct s as [h V t]. intros Hne (Hv & Hle & Hbuf). simpl in Hv.
  eexists. split; [by eapply Vector_move_run|].
  split; [|split; [|done]].
  - split; [by rw /= lookup_insert_eq|]. done.
  - split; [by rw /= lookup_insert_ne // lookup_insert_eq|]. done.
Qed.

(** X6.  Move assignment between two distinct vectors: the target takes over the
    block, the capacity and the elements of the source, which is left empty
    and without a block.  The block the target had is freed, but the
    elements in it are not destroyed: the deallocation is the only event. *)
Theorem Vector_move_assign_steals s this rhs buf cap vs bufr capr ws :
  this ≠ rhs →
  holds s this buf cap vs → holds s rhs bufr capr ws →
  (∀ a, buf = Ptr a 0 → bufr ≠ Ptr a 0) →
  ∃ s',
    Vector_move_assign this rhs s = (Ok (), s') ∧
    holds s' this bufr capr ws ∧ holds s' rhs nullptr 0 [] ∧
    match buf with
    | nullptr => heap s' = heap s ∧ trace s' = trace s
    | Ptr a _ => heap s' = delete a (heap s) ∧ trace s' = trace s ++ [EvDelete a]
    end.
Proof.
  destruct s as [h V t]. intros Hne (Hv & Hle & Hbuf) (Hw & Hler & Hbufr) Hsep.
  simpl in Hv, Hw. destruct buf as [|a off].
  - subst cap. eexists. split; [by eapply Vector_move_assign_null_run|].
    split; [|split; [|done]].
    + split; [by rw /= lookup_insert_eq|]. done.
    + split; [by rw /= lookup_insert_ne // lookup_insert_eq|]. done.
  - destruct Hbuf as [-> Ha]. simpl in Ha.
    eexists. split; [by eapply Vector_move_assign_run|].
    split; [|split; [|done]].
    + split; [by rw /= lookup_insert_eq|]. split; [done|].
      destruct bufr as [|r off]; [done|]. destruct Hbufr as [-> Hr].
      split; [done|]. rw /= lookup_delete_ne //.
      intros <-. by apply (Hsep a).
    + split; [by rw /= lookup_insert_ne // lookup_insert_eq|]. done.
Qed.

(** X7.  The destructor destroys the elements from the first to the last, then
    frees the block; the object is gone.  A vector without a block causes no
    event. *)
Theorem Vector_dtor_releases s this buf cap vs :
  holds s this buf cap vs →
  ∃ s',
    Vector_dtor this s = (Ok (), s') ∧
    vecs s' = delete this (vecs s) ∧
    match buf with
    | nullptr => heap s' = heap s ∧ trace s' = trace s
    | Ptr a _ =>
        heap s' = delete a (heap s) ∧
        trace s' = trace s ++ map EvDestroy vs ++ [EvDelete a]
    end.
Proof.
  destruct s as [h V t]. intros (Hv & Hle & Hbuf). simpl in Hv.
  destruct buf as [|a off].
  - subst cap. destruct vs; [|simpl in Hle; lia].
    eexists. split; [by eapply Vector_dtor_null_run|]. done.
  - destruct Hbuf as [-> Ha]. simpl in Ha.
    eexists. split; [by eapply Vector_dtor_run|]. done.
Qed.

(** X8.  A vector copied from another and then destroyed leaves the heap and the
    vector objects as they were: every copy that was constructed is
    destroyed and the block is freed. *)
Theorem copy_then_destroy_restores s this other buf cap ws :
  is_copy_constructible = true → this ≠ other →
  vecs s !! this = None →
  holds s other buf cap ws →
  forallb (λ v, negb (copy_throws v)) ws = true →
  ∃ s',
    (Vector_copy this other ≫= λ _, Vector_dtor this) s = (Ok (), s') ∧
    heap s' = heap s ∧ vecs s' = vecs s ∧
    (ws = [] → trace s' = trace s) ∧
    (ws ≠ [] →
       ∃ b, trace s' = trace s ++ EvNew b (length ws) ::
              map (EvConstruct Copy) ws ++ map EvDestroy ws ++ [EvDelete b]).
Proof.
  destruct s as [h V t]. intros Hc Hne Hnone Hh Hq%forallb_negb_Forall.
  pose proof Hh as (Hv & Hle & Hbuf). simpl in Hv, Hnone.
  destruct (decide (ws = [])) as [->|Hws].
  - eexists. split.
    + step by (by eapply Vector_copy_empty_run).
      eapply Vector_dtor_null_run. by rw lookup_insert_eq.
    + by rw /= delete_insert_id.
  - destruct (holds_block _ _ _ _ _ Hh Hws) as (r & -> & Hr). simpl in Hr.
    have Hb : h !! fresh (dom h) = None by apply fresh_block.
    eexists. split.
    + step by (by eapply Vector_copy_run).
      eapply Vector_dtor_run with (vs := ws); [by rw lookup_insert_eq|].
      by rw lookup_insert_eq Nat.sub_diag app_nil_r.
    + rw /= !delete_insert_id //. split; [done|]. split; [done|].
      split; [done|]. intros _. eexists. by rw -app_assoc.
Qed.

(** ** [RawMemory] *)

(** X9.  A [RawMemory] of [n] slots: it has a block exactly when [n] is not 0;
    [operator+] accepts the offset [n] (one past the last slot) and
    [operator[]] refuses the index [n]; its destructor gives the block
    back, so that the heap is as before the construction. *)
Theorem RawMemory_lifetime s n :
  ∃ m s1,
    RawMemory_ctor n s = (Ok m, s1) ∧
    capacity_ m = n ∧ (buffer_ m = nullptr ↔ n = 0) ∧ vecs s1 = vecs s ∧
    RawMemory_plus m n s1 = (Ok (ptr_add (buffer_ m) n), s1) ∧
    RawMemory_index m n s1 = (AssertFail, s1) ∧
    ∃ s2, RawMemory_dtor m s1 = (Ok (), s2) ∧ heap s2 = heap s ∧ vecs s2 = vecs s.
Proof.
  destruct s as [h V t]. destruct (decide (n = 0)) as [->|Hn].
  - eexists _, _. split; [apply RawMemory_ctor_0|]. simpl.
    split; [done|]. split; [done|]. split; [done|]. split; [done|].
    split; [done|]. by eexists.
  - have Hb : h !! fresh (dom h) = None by apply fresh_block.
    eexists _, _. split; [by apply RawMemory_ctor_run|]. simpl.
    split; [done|]. split; [done|]. split; [done|].
    split; [by rw RawMemory_plus_run|].
    split; [by rw /RawMemory_index bind_run /assert /= Nat.ltb_irrefl|].
    eexists. split; [eapply Deallocate_run; by rw lookup_insert_eq|].
    by rw /= delete_insert_id.
Qed.

(** ** Capacity *)



(** X12.  [Resize(n)] with [n] not above the size: the elements from index [n] on
    are destroyed, the first first; the block and the capacity stay, nothing
    is freed. *)
Theorem Resize_shrinks s this buf cap vs n :
  holds s this buf cap vs → n ≤ length vs →
  ∃ s',
    Resize this n s = (Ok (), s') ∧
    holds s' this buf cap (take n vs) ∧
    trace s' = trace s ++ map EvDestroy (drop n vs) ∧
    dom (heap s') = dom (heap s).
Proof.
  destruct s as [h V t]. intros Hh Hn. pose proof Hh as (Hv & Hle & Hbuf).
  simpl in Hv. destruct (decide (n = length vs)) as [->|Hne].
  - exists (St h V t). split; [by apply (Resize_same_run h V t this _ Hv)|].
    by rw take_ge // drop_ge //= app_nil_r.
  - destruct (holds_block _ _ _ _ _ Hh) as (a & -> & Ha).
    { intros ->. simpl in Hn, Hne. lia. }
    simpl in Ha. pose proof (take_drop n vs) as Hvs.
    have Hlen : length (take n vs) = n by (rw length_take; lia).
    pose proof (Resize_shrink_run h V t this a cap (take n vs) (drop n vs)) as Hrun.
    rw Hvs Hlen in Hrun.
    eexists. split; [apply Hrun; try done|].
    { intros Hnil. apply (f_equal length) in Hnil. rw length_drop /= in Hnil. lia. }
    split; [|split; [done|by rw /= dom_insert_lookup_L]].
    split; [by rw /= lookup_insert_eq Hlen|]. split; [lia|]. split; [done|].
    by rw /= lookup_insert_eq Hlen.
Qed.



(** ** Iterators and element access *)

(** X15.  [begin()] is the start of the block and [end()] is [begin() + size], so
    that [end() - begin()] is [Size()]; the element at [begin() + i] is the
    [i]-th value; [end()] designates no object. *)
Theorem iterators_span s this buf cap vs :
  holds s this buf cap vs →
  Vector_begin this s = (Ok buf, s) ∧
  Vector_end this s = (Ok (ptr_add buf (length vs)), s) ∧
  Size this s = (Ok (length vs), s) ∧
  Capacity this s = (Ok cap, s) ∧
  ptr_diff (ptr_add buf (length vs)) buf = Some (length vs) ∧
  (∀ i x, vs !! i = Some x → load (ptr_add buf i) s = (Ok x, s)) ∧
  load (ptr_add buf (length vs)) s = (Undefined, s).
Proof.
  intros Hh. pose proof Hh as (Hv & Hle & Hbuf).
  split; [by eapply holds_begin|].
  split; [destruct s; by eapply Vector_end_run|].
  split; [destruct s; unfold Size; by step by apply get_vec_run|].
  split; [destruct s; unfold Capacity; by step by apply get_vec_run|].
  split; [|split; [intros i x; by eapply holds_load|]].
  - destruct buf as [|a off]; [subst cap; destruct vs; [done|simpl in Hle; lia]|].
    destruct Hbuf as [-> _]. cbn [ptr_add]. rw ptr_diff_same; first lia. f_equal. lia.
  - destruct s as [h V t]. destruct buf as [|a off]; [done|].
    destruct Hbuf as [-> Ha]. simpl in Ha.
    rw /load bind_run /slot_at /= Ha /=.
    destruct (decide (length vs = cap)) as [<-|Hlt].
    + rw Nat.sub_diag app_nil_r lookup_ge_None_2 //. by rw length_map.
    + rw lookup_app_r length_map // Nat.sub_diag.
      by rw (replicate_split Raw 0 (cap - length vs)); [lia|].
Qed.

(** ** Appending and inserting, and taking back *)

(** X16.  [PushBack(value)], by copy or by move, of a value whose constructor does
    not throw: the vector then ends with [value], and the reference returned
    designates that last element. *)
Theorem PushBack_returns_last s this buf cap vs value :
  holds s this buf cap vs → forallb quiet vs = true →
  (is_copy_constructible = true → copy_throws value = false →
     ∃ s' buf' cap' p,
       PushBack_copy this value s = (Ok p, s') ∧
       holds s' this buf' cap' (vs ++ [value]) ∧
       p = ptr_add buf' (length vs) ∧ load p s' = (Ok value, s')) ∧
  (move_ctor_throws value = false →
     ∃ s' buf' cap' p,
       PushBack_move this value s = (Ok p, s') ∧
       holds s' this buf' cap' (vs ++ [value]) ∧
       p = ptr_add buf' (length vs) ∧ load p s' = (Ok value, s')).
Proof.
  intros Hh Hq%quiet_Forall. split.
  - intros Hc Hx.
    destruct (EmplaceBack_returns s this buf cap vs (ArgCopy value) value Hh)
      as (s' & buf' & cap' & Hrun & Hh' & _); [by rw /= Hc Hx|done|].
    exists s', buf', cap', (ptr_add buf' (length vs)).
    split; [done|]. split; [done|]. split; [done|].
    eapply holds_load; [done|]. by rw list_lookup_middle.
  - intros Hx.
    destruct (EmplaceBack_returns s this buf cap vs (ArgMove value) value Hh)
      as (s' & buf' & cap' & Hrun & Hh' & _); [by rw /= Hx|done|].
    exists s', buf', cap', (ptr_add buf' (length vs)).
    split; [done|]. split; [done|]. split; [done|].
    eapply holds_load; [done|]. by rw list_lookup_middle.
Qed.

(** X17.  [PushBack] followed by [PopBack] gives back the values the vector held;
    the capacity is not reduced. *)
Theorem PushBack_PopBack_round_trip s this buf cap vs value :
  holds s this buf cap vs →
  is_copy_constructible = true → copy_throws value = false →
  forallb quiet vs = true →
  ∃ s' buf' cap',
    (PushBack_copy this value ≫= λ _, PopBack this) s = (Ok (), s') ∧
    holds s' this buf' cap' vs ∧ cap ≤ cap' ∧
    (length vs < cap → buf' = buf ∧ cap' = cap).
Proof.
  intros Hh Hc Hx Hq%quiet_Forall. pose proof Hh as (_ & Hle & _).
  destruct (EmplaceBack_returns s this buf cap vs (ArgCopy value) value Hh)
    as (s1 & buf' & cap' & Hrun & Hh1 & Hfull & Hroom); [by rw /= Hc Hx|done|].
  destruct (holds_block _ _ _ _ _ Hh1) as (a & -> & Ha); first by destruct vs.
  destruct s1 as [h1 V1 t1]. pose proof Hh1 as (Hv1 & Hle1 & _).
  simpl in Hv1, Ha. rw length_app /= in Hle1.
  eexists _, (Ptr a 0), cap'. split; [|split; [|split]].
  - unfold PushBack_copy. rw (bind_ok _ _ _ _ _ Hrun).
    apply PopBack_run; [done|by rw length_app /=|done].
  - split; [by rw /= lookup_insert_eq|]. split; [lia|]. split; [done|].
    by rw /= lookup_insert_eq.
  - destruct (decide (length vs = cap)) as [Heq|Hne].
    + destruct (Hfull Heq) as [-> _]. lia.
    + destruct Hroom as (-> & _); lia.
  - intros Hlt. by destruct (Hroom Hlt) as (-> & <- & _).
Qed.

(** X18.  [Insert] at [begin() + i] followed by [Erase] at the iterator it returned
    gives back the values the vector held, and the second iterator is again
    [begin() + i]. *)
Theorem Insert_Erase_round_trip s this buf cap vs i value :
  holds s this buf cap vs → i ≤ length vs →
  is_copy_constructible = true →
  forallb quiet (value :: vs) = true →
  ∃ s' buf' cap',
    (Insert_copy this (ptr_add buf i) value ≫= Erase this) s =
      (Ok (ptr_add buf' i), s') ∧
    holds s' this buf' cap' vs.
Proof.
  intros Hh Hi Hc Hq%quiet_Forall.
  have Hx : ctor (ArgCopy value) = Ok value.
  { apply Forall_cons in Hq as [Hqx _]. by rw /= Hc (quiet_copy _ Hqx). }
  destruct (Emplace_returns s this buf cap vs i (ArgCopy value) value Hh Hi Hx Hq)
    as (s1 & buf' & cap' & Hrun & Hh1).
  destruct (holds_block _ _ _ _ _ Hh1) as (a & -> & Ha); first by destruct (take i vs).
  destruct s1 as [h1 V1 t1]. pose proof Hh1 as (Hv1 & Hle1 & _).
  simpl in Hv1, Ha.
  have Hlen : length (take i vs) = i by (rw length_take; lia).
  pose proof (Erase_run h1 V1 t1 this a cap' (take i vs) value (drop i vs)) as HE.
  rw Hlen take_drop in HE.
  eexists _, (Ptr a 0), cap'. split.
  - unfold Insert_copy. rw (bind_ok _ _ _ _ _ Hrun). apply HE; [done..|].
    apply Forall_cons in Hq as [_ Hq]. rw -(take_drop i vs) in Hq.
    apply Forall_app in Hq as [_ Hq].
    eapply Forall_impl; [done|]. apply quiet_move_assign.
  - rw length_app /= length_drop in Hle1.
    split; [by rw /= lookup_insert_eq|]. split; [lia|]. split; [done|].
    by rw /= lookup_insert_eq.
Qed.

(** X19.  [Swap] is symmetric, and swapping twice restores every vector object. *)
Theorem Vector_Swap_involution s this other a b :
  vecs s !! this = Some a → vecs s !! other = Some b →
  Vector_Swap this other s = Vector_Swap other this s ∧
  (Vector_Swap this other ≫= λ _, Vector_Swap this other) s = (Ok (), s).
Proof.
  destruct s as [h V t]. simpl. intros Ha Hb. split.
  - rw (Vector_Swap_run h V t this other a b) // (Vector_Swap_run h V t other this b a) //.
    do 2 f_equal. destruct (decide (this = other)) as [->|Hne].
    + by simplify_eq.
    + by rw insert_insert_ne.
  - rw (bind_ok _ _ _ _ _ (Vector_Swap_run h V t this other a b Ha Hb)).
    destruct (decide (this = other)) as [->|Hne].
    + simplify_eq. erewrite Vector_Swap_run; [|by rw lookup_insert_eq..].
      by rw !insert_insert_eq insert_id.
    + erewrite Vector_Swap_run;
        [|by rw lookup_insert_ne // lookup_insert_eq|by rw lookup_insert_eq].
      do 2 f_equal. apply map_eq. intros k.
      destruct (decide (k = other)) as [->|Hko]; [by rw lookup_insert_eq|].
      rw lookup_insert_ne //.
      destruct (decide (k = this)) as [->|Hkt]; [by rw lookup_insert_eq|].
      by rw !lookup_insert_ne.
Qed.

(** X20.  [Erase] on an empty vector ends in the failed assertion, whatever the
    position; on a vector that holds elements the assertion does not look at
    the position, and [Erase(end())] passes it and runs into undefined
    behaviour. *)
Theorem Erase_preconditions s this buf cap vs :
  holds s this buf cap vs →
  (vs = [] → ∀ pos, Erase this pos s = (AssertFail, s)) ∧
  (vs ≠ [] → Erase this (ptr_add buf (length vs)) s = (Undefined, s)).
Proof.
  destruct s as [h V t]. intros Hh. pose proof Hh as (Hv & Hle & Hbuf).
  simpl in Hv. split.
  - intros -> pos. unfold Erase. by step by apply get_vec_run.
  - intros Hne. destruct (holds_block _ _ _ _ _ Hh Hne) as (a & -> & Ha).
    have Hpos : 0 < length vs by (destruct vs; [done|simpl; lia]).
    unfold Erase. step by apply get_vec_run. cbn [size_ data_ GetAddress buffer_].
    step by (apply assert_run, Nat.ltb_lt; lia).
    cbn [ptr_add]. rw ptr_diff_same; first lia. rw Nat.sub_0_r.
    step by reflexivity.
    step by (by eapply Vector_end_run).
    cbn [ptr_add]. rw bind_run /std_move bind_run ptr_diff_before; first lia.
    done.
Qed.

(** ** Exceptions during an insertion *)

(** X21.  When the constructor of the new element throws, [EmplaceBack] and
    [Emplace] at any position throw with the heap and the vector objects as
    they were: no existing element has been touched. *)
Theorem Emplace_ctor_throw_keeps s this buf cap vs args :
  holds s this buf cap vs → ctor args = Thrown →
  (∃ s', EmplaceBack this args s = (Thrown, s') ∧
         heap s' = heap s ∧ vecs s' = vecs s) ∧
  (∀ i, i ≤ length vs →
     ∃ s', Emplace this (ptr_add buf i) args s = (Thrown, s') ∧
           heap s' = heap s ∧ vecs s' = vecs s).
Proof.
  destruct s as [h V t]. intros Hh Hx. pose proof Hh as (Hv & Hle & Hbuf).
  simpl in Hv.
  have Hback : ∃ s', EmplaceBack this args (St h V t) = (Thrown, s') ∧
                     heap s' = h ∧ vecs s' = V.
  { destruct (decide (length vs = cap)) as [Hfull|Hroom].
    - eexists. split; [by eapply EmplaceBack_full_ctor_thrown|done].
    - eexists. split; [eapply EmplaceBack_room_ctor_thrown; [done|simpl; lia|done]|done]. }
  split; [done|]. intros i Hi.
  pose proof (Vector_end_run h V t _ _ _ _ Hv Hle) as Hend.
  destruct (decide (i = length vs)) as [->|Hne].
  - destruct Hback as (s' & Hrun & Hs'). exists s'. split; [|done].
    unfold Emplace. rw (bind_ok _ _ _ _ _ Hend). by rw decide_True.
  - destruct (holds_block _ _ _ _ _ Hh) as (a & -> & Ha).
    { intros ->. simpl in Hi, Hne. lia. }
    have Hpos : Ptr a (0 + i) ≠ Ptr a (0 + length vs) by (intros [= ?]; lia).
    destruct (decide (length vs = cap)) as [Hfull|Hroom].
    + eexists. split.
      { unfold Emplace. rw (bind_ok _ _ _ _ _ Hend) decide_False //.
        step by apply get_vec_run. rw decide_True //.
        by eapply EmplaceWithReallocate_ctor_thrown. }
      done.
    + eexists. split.
      { unfold Emplace. rw (bind_ok _ _ _ _ _ Hend) decide_False //.
        step by apply get_vec_run. rw decide_False //.
        by eapply EmplaceWithoutReallocate_ctor_thrown. }
      done.
Qed.



(** X24.  [Emplace] before the end of a full vector whose elements are transferred
    by copy, when the copy that throws is of an element at or after the
    position: [Emplace] throws with the vector object as before (same block,
    size and capacity), but the elements before the position have been
    destroyed and their slots are raw storage. *)
Theorem Emplace_suffix_throw_destroys_prefix s this a front ok v rest args x :
  let back := ok ++ v :: rest in
  holds s this (Ptr a 0) (length (front ++ back)) (front ++ back) →
  is_nothrow_move_constructible || negb is_copy_constructible = false →
  ctor args = Ok x →
  forallb (λ w, negb (copy_throws w)) (front ++ ok) = true → copy_throws v = true →
  ∃ s',
    Emplace this (Ptr a (length front)) args s = (Thrown, s') ∧
    vecs s' = vecs s ∧
    heap s' = <[a := replicate (length front) Raw ++ map Live back]> (heap s) ∧
    (∀ i, i < length front → load (Ptr a i) s' = (Undefined, s')).
Proof.
  destruct s as [h V t]. intros back Hh Hk Hx Hq%forallb_negb_Forall Hv.
  pose proof (holds_full_block _ _ _ _ Hh) as Ha. destruct Hh as (HV & Hle & _).
  simpl in HV, Ha.
  pose proof (Vector_end_run h V t _ _ _ _ HV Hle) as Hend.
  have Hlt : length front < length (front ++ back).
  { rw length_app /back length_app /=. lia. }
  eexists. split; [|split; [|split]].
  - unfold Emplace. rw (bind_ok _ _ _ _ _ Hend) decide_False.
    { intros [= ?]. lia. }
    step by apply get_vec_run. rw decide_True //.
    by apply EmplaceWithReallocate_suffix_thrown.
  - done.
  - done.
  - intros i Hi. rw /load bind_run /slot_at /= lookup_insert_eq /=.
    rw lookup_app_l; first by rw length_replicate.
    by rw lookup_replicate_2.
Qed.

End contract.


(** ** The contract at concrete vectors *)

Lemma two_vectors_holds `{ET : ElemType} (x y z : T) :
  holds (two_vectors x y z) 0 (Ptr 1 0) 4 [x; y] ∧
  holds (two_vectors x y z) 5 (Ptr 2 0) 1 [z].
Proof.
  split.
  - split; [reflexivity|]. split; [simpl; lia|]. split; reflexivity.
  - split; [reflexivity|]. split; [simpl; lia|]. split; reflexivity.
Defined.

Lemma full_pair_holds `{ET : ElemType} (x y : T) :
  holds (full_pair x y) 0 (Ptr 1 0) 2 [x; y].
Proof. split; [reflexivity|]. split; [simpl; lia|]. split; reflexivity. Defined.


(** [Vector(2)] of a type whose default constructor throws. *)
Lemma Vector_sized_throw_releases_witness :
  let s := two_vectors (ET := NoDefault) 1 2 3 in
  T_default (ElemType := NoDefault) = None ∧ 0 < 2 ∧
  ∃ s', Vector_sized 7 2 s = (Thrown, s') ∧ heap s' = heap s ∧ vecs s' = vecs s.
Proof.
  intros s. split; [reflexivity|]. split; [lia|].
  destruct (Vector_sized_throw_releases (ET := NoDefault) s 7 2 eq_refl ltac:(lia))
    as (s' & b & Hrun & Hheap & Hvecs & _).
  by exists s'.
Defined.

(** Copying [[1, 2]], which has room for four. *)
Lemma Vector_copy_constructs_witness :
  let s := two_vectors (ET := Plain) 1 2 3 in
  is_copy_constructible (ElemType := Plain) = true ∧ 7 ≠ 0 ∧
  holds s 0 (Ptr 1 0) 4 [1; 2] ∧
  forallb (λ v, negb (copy_throws (ElemType := Plain) v)) [1; 2] = true ∧
  ∃ s' buf', Vector_copy 7 0 s = (Ok (), s') ∧ holds s' 7 buf' 2 [1; 2].
Proof.
  intros s. pose proof (proj1 (two_vectors_holds (ET := Plain) 1 2 3)) as Hh.
  split; [reflexivity|]. split; [lia|]. split; [exact Hh|]. split; [reflexivity|].
  destruct (Vector_copy_constructs (ET := Plain) s 7 0 (Ptr 1 0) 4 [1; 2] eq_refl
              ltac:(lia) Hh eq_refl) as (s' & buf' & Hrun & Hh' & _).
  by exists s', buf'.
Defined.


(** Move-constructing from [[1, 2]]. *)
Lemma Vector_move_steals_witness :
  let s := two_vectors (ET := Plain) 1 2 3 in
  7 ≠ 0 ∧ holds s 0 (Ptr 1 0) 4 [1; 2] ∧
  ∃ s', Vector_move 7 0 s = (Ok (), s') ∧
        holds s' 7 (Ptr 1 0) 4 [1; 2] ∧ holds s' 0 nullptr 0 [].
Proof.
  intros s. pose proof (proj1 (two_vectors_holds (ET := Plain) 1 2 3)) as Hh.
  split; [lia|]. split; [exact Hh|].
  destruct (Vector_move_steals (ET := Plain) s 7 0 (Ptr 1 0) 4 [1; 2] ltac:(lia) Hh)
    as (s' & Hrun & Hh1 & Hh2 & _).
  by exists s'.
Defined.

(** Move-assigning [[3]] to [[1, 2]]: block 1 is freed, 1 and 2 are not
    destroyed. *)
Lemma Vector_move_assign_steals_witness :
  let s := two_vectors (ET := Plain) 1 2 3 in
  0 ≠ 5 ∧ holds s 0 (Ptr 1 0) 4 [1; 2] ∧ holds s 5 (Ptr 2 0) 1 [3] ∧
  (∀ a, Ptr 1 0 = Ptr a 0 → Ptr 2 0 ≠ Ptr a 0) ∧
  ∃ s', Vector_move_assign 0 5 s = (Ok (), s') ∧
        holds s' 0 (Ptr 2 0) 1 [3] ∧ holds s' 5 nullptr 0 [] ∧
        trace s' = trace s ++ [EvDelete 1].
Proof.
  intros s. destruct (two_vectors_holds (ET := Plain) 1 2 3) as [Hh Hh'].
  have Hsep : ∀ a, Ptr 1 0 = Ptr a 0 → Ptr 2 0 ≠ Ptr a 0 by (intros a [= <-]).
  split; [lia|]. split; [exact Hh|]. split; [exact Hh'|]. split; [exact Hsep|].
  destruct (Vector_move_assign_steals (ET := Plain) s 0 5 (Ptr 1 0) 4 [1; 2]
              (Ptr 2 0) 1 [3] ltac:(lia) Hh Hh' Hsep)
    as (s' & Hrun & Hh1 & Hh2 & _ & Ht).
  by exists s'.
Defined.

(** Destroying [[1, 2]]. *)
Lemma Vector_dtor_releases_witness :
  let s := two_vectors (ET := Plain) 1 2 3 in
  holds s 0 (Ptr 1 0) 4 [1; 2] ∧
  ∃ s', Vector_dtor 0 s = (Ok (), s') ∧
        trace s' = trace s ++ [EvDestroy (ET := Plain) 1; EvDestroy (ET := Plain) 2;
                               EvDelete 1].
Proof.
  intros s. pose proof (proj1 (two_vectors_holds (ET := Plain) 1 2 3)) as Hh.
  split; [exact Hh|].
  destruct (Vector_dtor_releases (ET := Plain) s 0 (Ptr 1 0) 4 [1; 2] Hh)
    as (s' & Hrun & _ & _ & Ht).
  by exists s'.
Defined.

(** A temporary copy of [[1, 2]]. *)
Lemma copy_then_destroy_restores_witness :
  let s := two_vectors (ET := Plain) 1 2 3 in
  is_copy_constructible (ElemType := Plain) = true ∧ 7 ≠ 0 ∧
  vecs s !! 7 = None ∧ holds s 0 (Ptr 1 0) 4 [1; 2] ∧
  forallb (λ v, negb (copy_throws (ElemType := Plain) v)) [1; 2] = true ∧
  ∃ s', (Vector_copy 7 0 ≫= λ _, Vector_dtor 7) s = (Ok (), s') ∧
        heap s' = heap s ∧ vecs s' = vecs s.
Proof.
  intros s. pose proof (proj1 (two_vectors_holds (ET := Plain) 1 2 3)) as Hh.
  split; [reflexivity|]. split; [lia|]. split; [reflexivity|].
  split; [exact Hh|]. split; [reflexivity|].
  destruct (copy_then_destroy_restores (ET := Plain) s 7 0 (Ptr 1 0) 4 [1; 2] eq_refl
              ltac:(lia) eq_refl Hh eq_refl) as (s' & Hrun & Hheap & Hvecs & _).
  by exists s'.
Defined.



(** Resizing [[1, 2]] to one element. *)
Lemma Resize_shrinks_witness :
  let s := two_vectors (ET := Plain) 1 2 3 in
  holds s 0 (Ptr 1 0) 4 [1; 2] ∧ 1 ≤ 2 ∧
  ∃ s', Resize 0 1 s = (Ok (), s') ∧ holds s' 0 (Ptr 1 0) 4 [1] ∧
        trace s' = trace s ++ [EvDestroy (ET := Plain) 2].
Proof.
  intros s. pose proof (proj1 (two_vectors_holds (ET := Plain) 1 2 3)) as Hh.
  split; [exact Hh|]. split; [lia|].
  destruct (Resize_shrinks (ET := Plain) s 0 (Ptr 1 0) 4 [1; 2] 1 Hh
              ltac:(simpl; lia)) as (s' & Hrun & Hh' & Ht & _).
  by exists s'.
Defined.



(** The range of [[1, 2]]. *)
Lemma iterators_span_witness :
  let s := two_vectors (ET := Plain) 1 2 3 in
  holds s 0 (Ptr 1 0) 4 [1; 2] ∧
  Vector_begin 0 s = (Ok (Ptr 1 0), s) ∧
  Vector_end 0 s = (Ok (Ptr 1 2), s) ∧
  load (Ptr 1 1) s = (Ok (2 : @T Plain), s) ∧
  load (Ptr 1 2) s = (Undefined, s).
Proof.
  intros s. pose proof (proj1 (two_vectors_holds (ET := Plain) 1 2 3)) as Hh.
  split; [exact Hh|].
  destruct (iterators_span (ET := Plain) s 0 (Ptr 1 0) 4 [1; 2] Hh)
    as (Hb & He & _ & _ & _ & Hl & Hu).
  split; [exact Hb|]. split; [exact He|].
  split; [exact (Hl 1 2 eq_refl)|exact Hu].
Defined.

(** [PushBack(7)] on [[1, 2]]. *)
Lemma PushBack_returns_last_witness :
  let s := two_vectors (ET := Plain) 1 2 3 in
  holds s 0 (Ptr 1 0) 4 [1; 2] ∧
  forallb (quiet (ET := Plain)) [1; 2] = true ∧
  is_copy_constructible (ElemType := Plain) = true ∧
  copy_throws (ElemType := Plain) 7 = false ∧
  ∃ s' buf' cap' p,
    PushBack_copy (ET := Plain) 0 7 s = (Ok p, s') ∧
    holds s' 0 buf' cap' [1; 2; 7] ∧ load p s' = (Ok (7 : @T Plain), s').
Proof.
  intros s. pose proof (proj1 (two_vectors_holds (ET := Plain) 1 2 3)) as Hh.
  split; [exact Hh|]. split; [reflexivity|]. split; [reflexivity|].
  split; [reflexivity|].
  destruct (PushBack_returns_last (ET := Plain) s 0 (Ptr 1 0) 4 [1; 2] 7 Hh eq_refl)
    as [Hcopy _].
  destruct (Hcopy eq_refl eq_refl) as (s' & buf' & cap' & p & Hrun & Hh' & _ & Hl).
  by exists s', buf', cap', p.
Defined.

(** [PushBack(7)] then [PopBack()] on [[3]], which is full. *)
Lemma PushBack_PopBack_round_trip_witness :
  let s := two_vectors (ET := Plain) 1 2 3 in
  holds s 5 (Ptr 2 0) 1 [3] ∧
  is_copy_constructible (ElemType := Plain) = true ∧
  copy_throws (ElemType := Plain) 7 = false ∧
  forallb (quiet (ET := Plain)) [3] = true ∧
  ∃ s' buf' cap',
    (PushBack_copy (ET := Plain) 5 7 ≫= λ _, PopBack 5) s = (Ok (), s') ∧
    holds s' 5 buf' cap' [3] ∧ 1 ≤ cap'.
Proof.
  intros s. pose proof (proj2 (two_vectors_holds (ET := Plain) 1 2 3)) as Hh.
  split; [exact Hh|]. split; [reflexivity|]. split; [reflexivity|].
  split; [reflexivity|].
  destruct (PushBack_PopBack_round_trip (ET := Plain) s 5 (Ptr 2 0) 1 [3] 7 Hh
              eq_refl eq_refl eq_refl) as (s' & buf' & cap' & Hrun & Hh' & Hc & _).
  by exists s', buf', cap'.
Defined.

(** [Insert(begin() + 1, 9)] then [Erase] on [[1, 2]]. *)
Lemma Insert_Erase_round_trip_witness :
  let s := two_vectors (ET := Plain) 1 2 3 in
  holds s 0 (Ptr 1 0) 4 [1; 2] ∧ 1 ≤ 2 ∧
  is_copy_constructible (ElemType := Plain) = true ∧
  forallb (quiet (ET := Plain)) [9; 1; 2] = true ∧
  ∃ s' buf' cap',
    (Insert_copy (ET := Plain) 0 (Ptr 1 1) 9 ≫= Erase 0) s = (Ok (ptr_add buf' 1), s') ∧
    holds s' 0 buf' cap' [1; 2].
Proof.
  intros s. pose proof (proj1 (two_vectors_holds (ET := Plain) 1 2 3)) as Hh.
  split; [exact Hh|]. split; [lia|]. split; [reflexivity|]. split; [reflexivity|].
  exact (Insert_Erase_round_trip (ET := Plain) s 0 (Ptr 1 0) 4 [1; 2] 1 9 Hh
           ltac:(simpl; lia) eq_refl eq_refl).
Defined.

(** Swapping [[1, 2]] and [[3]] twice. *)
Lemma Vector_Swap_involution_witness :
  let s := two_vectors (ET := Plain) 1 2 3 in
  vecs s !! 0 = Some {| data_ := {| buffer_ := Ptr 1 0; capacity_ := 4 |}; size_ := 2 |} ∧
  vecs s !! 5 = Some {| data_ := {| buffer_ := Ptr 2 0; capacity_ := 1 |}; size_ := 1 |} ∧
  (Vector_Swap 0 5 ≫= λ _, Vector_Swap 0 5) s = (Ok (), s).
Proof.
  intros s. split; [reflexivity|]. split; [reflexivity|].
  exact (proj2 (Vector_Swap_involution (ET := Plain) s 0 5 _ _ eq_refl eq_refl)).
Defined.

(** [Erase(end())] on [[1, 2]]. *)
Lemma Erase_preconditions_witness :
  let s := two_vectors (ET := Plain) 1 2 3 in
  holds s 0 (Ptr 1 0) 4 [1; 2] ∧
  Erase 0 (Ptr 1 2) s = (Undefined, s).
Proof.
  intros s. pose proof (proj1 (two_vectors_holds (ET := Plain) 1 2 3)) as Hh.
  split; [exact Hh|].
  destruct (Erase_preconditions (ET := Plain) s 0 (Ptr 1 0) 4 [1; 2] Hh) as [_ Hend].
  exact (Hend ltac:(discriminate)).
Defined.

(** Inserting a copy of 13, whose copy constructor throws, into [[1, 13]]. *)
Lemma Emplace_ctor_throw_keeps_witness :
  let s := full_pair (ET := Fragile) 1 13 in
  holds s 0 (Ptr 1 0) 2 [1; 13] ∧
  ctor (ArgCopy (ET := Fragile) 13) = Thrown ∧
  ∃ s', Emplace 0 (Ptr 1 1) (ArgCopy (ET := Fragile) 13) s = (Thrown, s') ∧
        heap s' = heap s ∧ vecs s' = vecs s.
Proof.
  intros s. pose proof (full_pair_holds (ET := Fragile) 1 13) as Hh.
  split; [exact Hh|]. split; [reflexivity|].
  destruct (Emplace_ctor_throw_keeps (ET := Fragile) s 0 (Ptr 1 0) 2 [1; 13]
              (ArgCopy (ET := Fragile) 13) Hh eq_refl) as [_ Hat].
  exact (Hat 1 ltac:(simpl; lia)).
Defined.



(** Inserting 99 before the last element of the full [[1, 13]] when the copy
    of 13 throws: the element 1 is lost. *)
Lemma Emplace_suffix_throw_destroys_prefix_witness :
  let s := full_pair (ET := Fragile) 1 13 in
  holds s 0 (Ptr 1 0) 2 [1; 13] ∧
  is_nothrow_move_constructible (ElemType := Fragile) ||
    negb (is_copy_constructible (ElemType := Fragile)) = false ∧
  ctor (ArgPack (ET := Fragile) 99) = Ok (99 : @T Fragile) ∧
  forallb (λ w, negb (copy_throws (ElemType := Fragile) w)) [1] = true ∧
  copy_throws (ElemType := Fragile) 13 = true ∧
  ∃ s', Emplace 0 (Ptr 1 1) (ArgPack (ET := Fragile) 99) s = (Thrown, s') ∧
        vecs s' = vecs s ∧ load (Ptr 1 0) s' = (Undefined, s').
Proof.
  intros s. pose proof (full_pair_holds (ET := Fragile) 1 13) as Hh.
  split; [exact Hh|]. split; [reflexivity|]. split; [reflexivity|].
  split; [reflexivity|]. split; [reflexivity|].
  destruct (Emplace_suffix_throw_destroys_prefix (ET := Fragile) s 0 1 [1] [] 13 []
              (ArgPack (ET := Fragile) 99) 99 Hh eq_refl eq_refl eq_refl eq_refl)
    as (s' & Hrun & Hvecs & _ & Hl).
  exists s'. split; [exact Hrun|]. split; [exact Hvecs|].
  exact (Hl 0 ltac:(simpl; lia)).
Defined.
